(** * version-guard: the validators and the dispatcher of [src/main.ts]

    A shallow embedding of the rule engine of the pull-request linter: the
    version-pinning matchers, the migration checker and [analyzeCode].

    The program is written against the ECMAScript string and regular
    expression built-ins, so the first part of this file is a model of the
    part of that runtime the program uses: strings as sequences of UTF-16
    code units, a backtracking matcher that follows the specification's
    [RepeatMatcher] and friends, [RegExpBuiltinExec] with [lastIndex], and
    the pattern parser behind [new RegExp(string)]. *)

From Stdlib Require Import String Ascii.
From Stdlib Require Import List NArith Arith Bool Lia.
Import ListNotations.

Set Implicit Arguments.

(* ================================================================== *)
(** * Strings *)
(* ================================================================== *)

(** A JavaScript string is a sequence of 16-bit code units. *)
Definition char := N.
Definition jsstring := list char.

Fixpoint str (s : string) : jsstring :=
  match s with
  | EmptyString => []
  | String a s' => N_of_ascii a :: str s'
  end.

Definition char_eqb (a b : char) : bool := N.eqb a b.

Fixpoint jseq (a b : jsstring) : bool :=
  match a, b with
  | [], [] => true
  | x :: a', y :: b' => char_eqb x y && jseq a' b'
  | _, _ => false
  end.

(** [s.startsWith(p)] *)
Fixpoint startsWith (s p : jsstring) : bool :=
  match p, s with
  | [], _ => true
  | x :: p', y :: s' => char_eqb x y && startsWith s' p'
  | _ :: _, [] => false
  end.

(** [s.includes(p)] *)
Fixpoint includes (s p : jsstring) : bool :=
  startsWith s p ||
  match s with
  | [] => false
  | _ :: s' => includes s' p
  end.

(** [s.endsWith(p)] *)
Definition endsWith (s p : jsstring) : bool :=
  startsWith (rev s) (rev p).

(** [s.split(sep)] for a separator of one code unit: the pieces between
    the separators, one more than there are separators. *)
Fixpoint split (sep : char) (s : jsstring) : list jsstring :=
  match s with
  | [] => [[]]
  | c :: s' =>
      if char_eqb c sep then [] :: split sep s'
      else match split sep s' with
           | piece :: pieces => (c :: piece) :: pieces
           | [] => [[c]]
           end
  end.

(** [a.join(sep)] *)
Fixpoint join (sep : jsstring) (l : list jsstring) : jsstring :=
  match l with
  | [] => []
  | [x] => x
  | x :: l' => x ++ sep ++ join sep l'
  end.

Definition LF : char := 10%N.
Definition PLUS : char := 43%N.

(* ================================================================== *)
(** * Completions *)
(* ================================================================== *)

(** A call either returns or throws. *)
Inductive error := TypeError | SyntaxError | Unmodelled.

Inductive completion (A : Type) :=
| Normal (a : A)
| Throw (e : error).
Arguments Normal {A} a.
Arguments Throw {A} e.

Definition bind {A B} (c : completion A) (k : A -> completion B) : completion B :=
  match c with
  | Normal a => k a
  | Throw e => Throw e
  end.

Notation "x <- c ;; k" := (bind c (fun x => k))
  (at level 61, c at next level, right associativity).

(* ================================================================== *)
(** * Regular expressions *)
(* ================================================================== *)

Inductive class_atom :=
| CChar (c : char)
| CRange (lo hi : char)
| CDigit | CNotDigit
| CSpace | CNotSpace
| CWord | CNotWord.

Inductive regex :=
| Empty
| Char (c : char)
| Dot
| Class (invert : bool) (atoms : list class_atom)
| Seq (r1 r2 : regex)
| Alt (r1 r2 : regex)
| Rep (r : regex) (min : nat) (max : option nat) (greedy : bool)
| Group (n : nat) (r : regex)
| Look (negative : bool) (r : regex)
| Bol
| Eol
| WordB (negative : bool).

Record flags := { ignoreCase : bool; multiline : bool; global : bool }.

Local Open Scope N_scope.

Definition in_range (lo hi c : char) : bool := N.leb lo c && N.leb c hi.

Definition isLineTerminator (c : char) : bool :=
  N.eqb c 10 || N.eqb c 13 || N.eqb c 8232 || N.eqb c 8233.

(** WhiteSpace and LineTerminator, the set behind [\s]. *)
Definition isSpace (c : char) : bool :=
  in_range 9 13 c || N.eqb c 32 || N.eqb c 160 || N.eqb c 5760 ||
  in_range 8192 8202 c || N.eqb c 8232 || N.eqb c 8233 || N.eqb c 8239 ||
  N.eqb c 8287 || N.eqb c 12288 || N.eqb c 65279.

Definition isDigit (c : char) : bool := in_range 48 57 c.

Definition isWord (c : char) : bool :=
  in_range 97 122 c || in_range 65 90 c || isDigit c || N.eqb c 95.

(** [Canonicalize] without the [u] flag maps a code unit to its upper-case
    form, and never maps a code unit from 128 up to one below 128.  Every
    pattern of the program that carries the [i] flag is made of code units
    below 128, and against those the comparison of canonical forms is the
    comparison of the ASCII folds below. *)
Definition canonicalize (c : char) : char :=
  if in_range 97 122 c then c - 32 else c.

Definition swapcase (c : char) : char :=
  if in_range 97 122 c then c - 32
  else if in_range 65 90 c then c + 32 else c.

Local Close Scope N_scope.

Definition atom_mem (a : class_atom) (c : char) : bool :=
  match a with
  | CChar x => N.eqb x c
  | CRange lo hi => in_range lo hi c
  | CDigit => isDigit c
  | CNotDigit => negb (isDigit c)
  | CSpace => isSpace c
  | CNotSpace => negb (isSpace c)
  | CWord => isWord c
  | CNotWord => negb (isWord c)
  end.

Definition set_mem (atoms : list class_atom) (c : char) : bool :=
  existsb (fun a => atom_mem a c) atoms.

Section Matcher.

Variable fl : flags.

Definition char_match (c x : char) : bool :=
  if ignoreCase fl then N.eqb (canonicalize c) (canonicalize x)
  else N.eqb c x.

(** [CharacterSetMatcher]: some member of the set has the canonical form of
    the input character; [invert] negates the outcome. *)
Definition class_match (invert : bool) (atoms : list class_atom) (x : char) : bool :=
  let found :=
    if ignoreCase fl then set_mem atoms x || set_mem atoms (swapcase x)
    else set_mem atoms x in
  xorb invert found.

Definition captures := list (nat * jsstring).

Fixpoint cap_get (n : nat) (cs : captures) : option jsstring :=
  match cs with
  | [] => None
  | (k, v) :: cs' => if Nat.eqb k n then Some v else cap_get n cs'
  end.

Definition cap_clear (ns : list nat) (cs : captures) : captures :=
  filter (fun kv => negb (existsb (Nat.eqb (fst kv)) ns)) cs.

Definition cap_set (n : nat) (v : jsstring) (cs : captures) : captures :=
  (n, v) :: cap_clear [n] cs.

(** The matcher state: the input on both sides of [endIndex] (the part
    before it reversed) and the captures. *)
Record state := { before : jsstring; after : jsstring; caps : captures }.

Definition endIndex (x : state) : nat := length (before x).

Definition step (x : state) (ok : char -> bool) : list state :=
  match after x with
  | a :: rest =>
      if ok a then [{| before := a :: before x; after := rest; caps := caps x |}]
      else []
  | [] => []
  end.

Fixpoint groups (r : regex) : list nat :=
  match r with
  | Seq r1 r2 | Alt r1 r2 => groups r1 ++ groups r2
  | Rep r _ _ _ | Look _ r => groups r
  | Group n r => n :: groups r
  | _ => []
  end.

Definition dec_max (max : option nat) : option nat :=
  match max with
  | Some k => Some (pred k)
  | None => None
  end.

(** [RepeatMatcher].  The results are listed in the order in which the
    backtracking matcher tries them.  Once [min] is zero an iteration that
    consumes nothing fails, so every further iteration moves [endIndex];
    [fuel] bounds the iterations. *)
Fixpoint RepeatMatcher (body : state -> list state) (parens : list nat)
    (greedy : bool) (fuel min : nat) (max : option nat) (x : state) : list state :=
  match fuel with
  | O => []
  | S fuel' =>
      match max with
      | Some O => [x]
      | _ =>
          let xr := {| before := before x; after := after x;
                       caps := cap_clear parens (caps x) |} in
          let d (y : state) :=
            if Nat.eqb min 0 && Nat.eqb (endIndex y) (endIndex x) then []
            else RepeatMatcher body parens greedy fuel' (pred min) (dec_max max) y in
          let again := flat_map d (body xr) in
          if negb (Nat.eqb min 0) then again
          else if greedy then again ++ [x]
          else x :: again
      end
  end.

Definition isWordAt (s : jsstring) : bool :=
  match s with
  | c :: _ => isWord c
  | [] => false
  end.

(** The matcher of a pattern: all the ways it matches from [x], best first. *)
Fixpoint m (r : regex) (x : state) : list state :=
  match r with
  | Empty => [x]
  | Char c => step x (char_match c)
  | Dot => step x (fun a => negb (isLineTerminator a))
  | Class invert atoms => step x (class_match invert atoms)
  | Seq r1 r2 => flat_map (m r2) (m r1 x)
  | Alt r1 r2 => m r1 x ++ m r2 x
  | Rep r min max greedy =>
      RepeatMatcher (m r) (groups r) greedy (S (min + length (after x))) min max x
  | Group n r =>
      map (fun y =>
             {| before := before y; after := after y;
                caps := cap_set n (rev (firstn (endIndex y - endIndex x) (before y)))
                                (caps y) |})
          (m r x)
  | Look negative r =>
      match m r x with
      | [] => if negative then [x] else []
      | y :: _ =>
          if negative then []
          else [{| before := before x; after := after x; caps := caps y |}]
      end
  | Bol =>
      match before x with
      | [] => [x]
      | c :: _ => if multiline fl && isLineTerminator c then [x] else []
      end
  | Eol =>
      match after x with
      | [] => [x]
      | c :: _ => if multiline fl && isLineTerminator c then [x] else []
      end
  | WordB negative =>
      if xorb negative (xorb (isWordAt (before x)) (isWordAt (after x)))
      then [x] else []
  end.

End Matcher.

(* ================================================================== *)
(** * RegExp objects and the string methods that take them *)
(* ================================================================== *)

Record RegExp := { source : regex; reflags : flags; lastIndex : nat }.

(** A regular expression literal evaluates to a new object each time. *)
Definition literal (r : regex) (i g mflag : bool) : RegExp :=
  {| source := r;
     reflags := {| ignoreCase := i; multiline := mflag; global := g |};
     lastIndex := 0 |}.

Definition set_lastIndex (R : RegExp) (i : nat) : RegExp :=
  {| source := source R; reflags := reflags R; lastIndex := i |}.

(** The match array: [index], element 0 and the numbered groups. *)
Record MatchResult := { index : nat; matched : jsstring; mcaps : captures }.

Definition group (k : nat) (mr : MatchResult) : option jsstring :=
  match k with
  | O => Some (matched mr)
  | _ => cap_get k (mcaps mr)
  end.

(** The loop of [RegExpBuiltinExec]: the first index from [lastIndex] on at
    which the matcher succeeds. *)
Fixpoint scan (fl : flags) (r : regex) (bef aft : jsstring) : option (nat * state) :=
  match m fl r {| before := bef; after := aft; caps := [] |} with
  | y :: _ => Some (length bef, y)
  | [] =>
      match aft with
      | [] => None
      | c :: aft' => scan fl r (c :: bef) aft'
      end
  end.

Definition RegExpBuiltinExec (R : RegExp) (s : jsstring) : option MatchResult * RegExp :=
  let g := global (reflags R) in
  let i := if g then lastIndex R else 0 in
  let fail := (None, if g then set_lastIndex R 0 else R) in
  if length s <? i then fail
  else
    match scan (reflags R) (source R) (rev (firstn i s)) (skipn i s) with
    | None => fail
    | Some (start, y) =>
        (Some {| index := start;
                 matched := rev (firstn (endIndex y - start) (before y));
                 mcaps := caps y |},
         if g then set_lastIndex R (endIndex y) else R)
    end.

(** [R.test(s)] *)
Definition RegExp_test (R : RegExp) (s : jsstring) : bool * RegExp :=
  let (res, R') := RegExpBuiltinExec R s in
  (match res with Some _ => true | None => false end, R').

Definition test (R : RegExp) (s : jsstring) : bool := fst (RegExp_test R s).

(** The loop shared by [s.match(R)] and [s.matchAll(R)] for a global [R]:
    exec until null, stepping over an empty match.  Each round moves
    [lastIndex] forward, so [length s + 2] rounds are never all used. *)
Fixpoint exec_loop (fuel : nat) (R : RegExp) (s : jsstring) : list MatchResult :=
  match fuel with
  | O => []
  | S fuel' =>
      match RegExpBuiltinExec R s with
      | (None, _) => []
      | (Some mr, R') =>
          let R'' :=
            match matched mr with
            | [] => set_lastIndex R' (S (lastIndex R'))
            | _ => R'
            end in
          mr :: exec_loop fuel' R'' s
      end
  end.

(** [[...s.matchAll(R)]]: the matcher is a copy of [R] that keeps its
    [lastIndex]; a pattern without the [g] flag is a TypeError. *)
Definition matchAll (s : jsstring) (R : RegExp) : completion (list MatchResult) :=
  if global (reflags R) then Normal (exec_loop (length s + 2) R s)
  else Throw TypeError.

(** [s.match(R)] for a global [R]: [lastIndex] is reset, the matched
    strings are collected, and no match at all gives null. *)
Definition match_global (s : jsstring) (R : RegExp) : option (list jsstring) :=
  match exec_loop (length s + 2) (set_lastIndex R 0) s with
  | [] => None
  | ms => Some (map matched ms)
  end.

(** [s.match(R)] for an [R] without the [g] flag. *)
Definition match_first (s : jsstring) (R : RegExp) : option MatchResult :=
  fst (RegExpBuiltinExec R s).

(** [s.replace(R, repl)] for an [R] without the [g] flag and a replacement
    without [$] patterns. *)
Definition replace (s : jsstring) (R : RegExp) (repl : jsstring) : jsstring :=
  match fst (RegExpBuiltinExec R s) with
  | None => s
  | Some mr =>
      firstn (index mr) s ++ repl ++ skipn (index mr + length (matched mr)) s
  end.

(* ================================================================== *)
(** * Pattern text *)
(* ================================================================== *)

Fixpoint seq (rs : list regex) : regex :=
  match rs with
  | [] => Empty
  | [r] => r
  | r :: rs' => Seq r (seq rs')
  end.

Definition chars (s : string) : list regex := map Char (str s).
Definition star (r : regex) : regex := Rep r 0 None true.
Definition lazy_star (r : regex) : regex := Rep r 0 None false.
Definition plus (r : regex) : regex := Rep r 1 None true.
Definition opt (r : regex) : regex := Rep r 0 (Some 1) true.
Definition ch (a : string) : char :=
  match str a with
  | c :: _ => c
  | [] => 0%N
  end.

Notation "' pat <- c ;; k" :=
  (bind c (fun x => match x with pat => k end))
  (at level 61, pat pattern, c at next level, right associativity).

(** The parser behind [new RegExp(pattern)], for patterns without flags:
    the grammar of the specification with the additions for web browsers.
    Backreferences, legacy octal escapes, lookbehind and named groups are
    left out: a pattern that uses one of them is [Unmodelled]. *)
Module Pattern.

Local Open Scope N_scope.

Definition isc (a : string) (c : char) : bool := N.eqb c (ch a).

Definition isHex (c : char) : bool :=
  isDigit c || in_range 97 102 c || in_range 65 70 c.

Definition hexVal (c : char) : N :=
  if isDigit c then c - 48
  else if in_range 97 102 c then c - 87
  else c - 55.

Fixpoint parseDigits (acc : nat) (s : jsstring) : nat * jsstring :=
  match s with
  | c :: s' =>
      if isDigit c then parseDigits (10 * acc + N.to_nat (c - 48))%nat s'
      else (acc, s)
  | [] => (acc, s)
  end.

(** The text after an opening brace as [n}], [n,}] or [n,m}]. *)
Definition parseBraced (s : jsstring) : option (nat * option nat * jsstring) :=
  match s with
  | c :: _ =>
      if isDigit c then
        let (n, s1) := parseDigits 0%nat s in
        match s1 with
        | c1 :: s2 =>
            if isc "}" c1 then Some (n, Some n, s2)
            else if isc "," c1 then
              match s2 with
              | c2 :: s3 =>
                  if isc "}" c2 then Some (n, None, s3)
                  else if isDigit c2 then
                    let (k, s4) := parseDigits 0%nat s2 in
                    match s4 with
                    | c3 :: s5 => if isc "}" c3 then Some (n, Some k, s5) else None
                    | [] => None
                    end
                  else None
              | [] => None
              end
            else None
        | [] => None
        end
      else None
  | [] => None
  end.

Definition quantify (r : regex) (s : jsstring) (n : nat)
  : completion (regex * jsstring * nat) :=
  let lazy (min : nat) (max : option nat) (s1 : jsstring) :=
    match s1 with
    | c :: s2 =>
        if isc "?" c then Normal (Rep r min max false, s2, n)
        else Normal (Rep r min max true, s1, n)
    | [] => Normal (Rep r min max true, s1, n)
    end in
  match s with
  | c :: s1 =>
      if isc "*" c then lazy 0%nat None s1
      else if isc "+" c then lazy 1%nat None s1
      else if isc "?" c then lazy 0%nat (Some 1%nat) s1
      else if isc "{" c then
        match parseBraced s1 with
        | Some (min, Some max, s2) =>
            if (max <? min)%nat then Throw SyntaxError else lazy min (Some max) s2
        | Some (min, None, s2) => lazy min None s2
        | None => Normal (r, s, n)
        end
      else Normal (r, s, n)
  | [] => Normal (r, s, n)
  end.

(** What follows a backslash, inside or outside a class, when it stands
    for one character or one of the sets [\d \s \w]. *)
Definition parseEscape (s : jsstring) : completion (class_atom * jsstring) :=
  match s with
  | [] => Throw SyntaxError
  | e :: s1 =>
      if isc "d" e then Normal (CDigit, s1)
      else if isc "D" e then Normal (CNotDigit, s1)
      else if isc "s" e then Normal (CSpace, s1)
      else if isc "S" e then Normal (CNotSpace, s1)
      else if isc "w" e then Normal (CWord, s1)
      else if isc "W" e then Normal (CNotWord, s1)
      else if isc "t" e then Normal (CChar 9, s1)
      else if isc "n" e then Normal (CChar 10, s1)
      else if isc "v" e then Normal (CChar 11, s1)
      else if isc "f" e then Normal (CChar 12, s1)
      else if isc "r" e then Normal (CChar 13, s1)
      else if isc "c" e then
        match s1 with
        | l :: s2 =>
            if in_range 97 122 l || in_range 65 90 l
            then Normal (CChar (N.modulo l 32), s2)
            else Throw Unmodelled
        | [] => Throw Unmodelled
        end
      else if isc "0" e then
        match s1 with
        | d :: _ => if isDigit d then Throw Unmodelled else Normal (CChar 0, s1)
        | [] => Normal (CChar 0, s1)
        end
      else if isDigit e then Throw Unmodelled
      else if isc "x" e then
        match s1 with
        | h1 :: h2 :: s2 =>
            if isHex h1 && isHex h2
            then Normal (CChar (16 * hexVal h1 + hexVal h2), s2)
            else Normal (CChar e, s1)
        | _ => Normal (CChar e, s1)
        end
      else if isc "u" e then
        match s1 with
        | h1 :: h2 :: h3 :: h4 :: s2 =>
            if isHex h1 && isHex h2 && isHex h3 && isHex h4
            then Normal (CChar (4096 * hexVal h1 + 256 * hexVal h2
                                + 16 * hexVal h3 + hexVal h4), s2)
            else Normal (CChar e, s1)
        | _ => Normal (CChar e, s1)
        end
      else Normal (CChar e, s1)
  end.

Definition parseClassAtom (s : jsstring) : completion (class_atom * jsstring) :=
  match s with
  | [] => Throw SyntaxError
  | c :: s1 =>
      if isc "\" c then
        match s1 with
        | e :: s2 => if isc "b" e then Normal (CChar 8, s2) else parseEscape s1
        | [] => Throw SyntaxError
        end
      else Normal (CChar c, s1)
  end.

(** The ranges of a class, up to the closing bracket. *)
Fixpoint parseClassRanges (fuel : nat) (s : jsstring) (acc : list class_atom)
  : completion (list class_atom * jsstring) :=
  match fuel with
  | O => Throw Unmodelled
  | S fuel' =>
      match s with
      | [] => Throw SyntaxError
      | c :: s1 =>
          if isc "]" c then Normal (rev acc, s1)
          else
            '(a, s2) <- parseClassAtom s ;;
            match s2 with
            | dash :: (c3 :: _) as s3 =>
                if isc "-" dash && negb (isc "]" c3) then
                  '(b, s4) <- parseClassAtom s3 ;;
                  match a, b with
                  | CChar lo, CChar hi =>
                      if N.ltb hi lo then Throw SyntaxError
                      else parseClassRanges fuel' s4 (CRange lo hi :: acc)
                  | _, _ => parseClassRanges fuel' s4 (b :: CChar dash :: a :: acc)
                  end
                else parseClassRanges fuel' s2 (a :: acc)
            | _ => parseClassRanges fuel' s2 (a :: acc)
            end
      end
  end.

Definition atom_regex (a : class_atom) : regex :=
  match a with
  | CChar c => Char c
  | _ => Class false [a]
  end.

Definition close (r : regex) (s : jsstring) (n : nat) (quantifiable : bool)
  : completion (regex * jsstring * nat) :=
  match s with
  | c :: s1 =>
      if isc ")" c then
        if quantifiable then quantify r s1 n else Normal (r, s1, n)
      else Throw SyntaxError
  | [] => Throw SyntaxError
  end.

Fixpoint parseDisjunction (fuel : nat) (s : jsstring) (n : nat)
  : completion (regex * jsstring * nat) :=
  match fuel with
  | O => Throw Unmodelled
  | S f =>
      '(r1, s1, n1) <- parseAlternative f s n [] ;;
      match s1 with
      | c :: s2 =>
          if isc "|" c then
            '(r2, s3, n2) <- parseDisjunction f s2 n1 ;;
            Normal (Alt r1 r2, s3, n2)
          else Normal (r1, s1, n1)
      | [] => Normal (r1, s1, n1)
      end
  end
with parseAlternative (fuel : nat) (s : jsstring) (n : nat) (acc : list regex)
  : completion (regex * jsstring * nat) :=
  match fuel with
  | O => Throw Unmodelled
  | S f =>
      match s with
      | [] => Normal (seq (rev acc), s, n)
      | c :: _ =>
          if isc "|" c || isc ")" c then Normal (seq (rev acc), s, n)
          else
            '(t, s1, n1) <- parseTerm f s n ;;
            parseAlternative f s1 n1 (t :: acc)
      end
  end
with parseTerm (fuel : nat) (s : jsstring) (n : nat)
  : completion (regex * jsstring * nat) :=
  match fuel with
  | O => Throw Unmodelled
  | S f =>
      match s with
      | [] => Throw SyntaxError
      | c :: s1 =>
          if isc "^" c then Normal (Bol, s1, n)
          else if isc "$" c then Normal (Eol, s1, n)
          else if isc "(" c then
            match s1 with
            | q :: s2 =>
                if isc "?" q then
                  match s2 with
                  | k :: s3 =>
                      if isc ":" k then
                        '(r, s4, n1) <- parseDisjunction f s3 n ;;
                        close r s4 n1 true
                      else if isc "=" k then
                        '(r, s4, n1) <- parseDisjunction f s3 n ;;
                        close (Look false r) s4 n1 true
                      else if isc "!" k then
                        '(r, s4, n1) <- parseDisjunction f s3 n ;;
                        close (Look true r) s4 n1 true
                      else if isc "<" k then Throw Unmodelled
                      else Throw SyntaxError
                  | [] => Throw SyntaxError
                  end
                else
                  '(r, s4, n1) <- parseDisjunction f s1 (S n) ;;
                  close (Group (S n) r) s4 n1 true
            | [] => Throw SyntaxError
            end
          else if isc "*" c || isc "+" c || isc "?" c || isc ")" c
          then Throw SyntaxError
          else if isc "{" c then
            match parseBraced s1 with
            | Some _ => Throw SyntaxError
            | None => quantify (Char c) s1 n
            end
          else if isc "[" c then
            match s1 with
            | c1 :: s2 =>
                if isc "^" c1 then
                  '(atoms, s3) <- parseClassRanges (S (length s2)) s2 [] ;;
                  quantify (Class true atoms) s3 n
                else
                  '(atoms, s3) <- parseClassRanges (S (length s1)) s1 [] ;;
                  quantify (Class false atoms) s3 n
            | [] => Throw SyntaxError
            end
          else if isc "." c then quantify Dot s1 n
          else if isc "\" c then
            match s1 with
            | e :: s2 =>
                if isc "b" e then Normal (WordB false, s2, n)
                else if isc "B" e then Normal (WordB true, s2, n)
                else
                  '(a, s3) <- parseEscape s1 ;;
                  quantify (atom_regex a) s3 n
            | [] => Throw SyntaxError
            end
          else quantify (Char c) s1 n
      end
  end.

Definition parse (pattern : jsstring) : completion regex :=
  '(r, rest, _) <- parseDisjunction (3 * length pattern + 4)%nat pattern 0%nat ;;
  match rest with
  | [] => Normal r
  | _ => Throw SyntaxError
  end.

End Pattern.

(** [new RegExp(pattern)] *)
Definition RegExpCreate (pattern : jsstring) : completion RegExp :=
  r <- Pattern.parse pattern ;;
  Normal (literal r false false false).

(* ================================================================== *)
(** * The regular expression literals of [main.ts] *)
(* ================================================================== *)

Definition DQ : char := 34%N.
Definition SQ : char := 39%N.

Definition ws : regex := Class false [CSpace].
Definition digits : regex := plus (Class false [CDigit]).
Definition not_of (cs : list class_atom) : regex := Class true cs.

Module Re.

(** Pattern "<DQ>([^<DQ>]+)<DQ>:\s*<DQ>([^<DQ>]+)<DQ>", flags "g", where <DQ> is the double quote. *)
Definition packageRegex : regex :=
  seq [Char DQ; Group 1 (plus (not_of [CChar DQ])); Char DQ; Char (ch ":");
       star ws; Char DQ; Group 2 (plus (not_of [CChar DQ])); Char DQ].

(** Pattern "^([^=><~\s]+)\s*((?:[<>=~]{1,2}|\^)?\s*[0-9][^;\s]*)?", flags "gm". *)
Definition requirementRegex : regex :=
  seq [Bol;
       Group 1 (plus (not_of [CChar (ch "="); CChar (ch ">"); CChar (ch "<");
                              CChar (ch "~"); CSpace]));
       star ws;
       opt (Group 2
              (seq [opt (Alt (Rep (Class false [CChar (ch "<"); CChar (ch ">");
                                                CChar (ch "="); CChar (ch "~")])
                                  1 (Some 2) true)
                             (Char (ch "^")));
                    star ws;
                    Class false [CRange (ch "0") (ch "9")];
                    star (not_of [CChar (ch ";"); CSpace])]))].

(** Pattern "gem\s+['<DQ>]([^'<DQ>]+)['<DQ>]\s*,\s*['<DQ>]([^'<DQ>]+)['<DQ>]", flags "g", where <DQ> is the double quote. *)
Definition gemRegex : regex :=
  let quote := Class false [CChar SQ; CChar DQ] in
  let body := plus (not_of [CChar SQ; CChar DQ]) in
  seq (chars "gem" ++
       [plus ws; quote; Group 1 body; quote; star ws; Char (ch ",");
        star ws; quote; Group 2 body; quote]).

(** Pattern "([^:]+):([^:]+):([^'\s]+)", flags "g". *)
Definition gradleRegex : regex :=
  seq [Group 1 (plus (not_of [CChar (ch ":")])); Char (ch ":");
       Group 2 (plus (not_of [CChar (ch ":")])); Char (ch ":");
       Group 3 (plus (not_of [CChar SQ; CSpace]))].

(** Pattern "<version>([^<]+)<\/version>", flags "g". *)
Definition mavenRegex : regex :=
  seq (chars "<version>" ++ [Group 1 (plus (not_of [CChar (ch "<")]))]
       ++ chars "</version>").

(** Pattern "image:\s*([^:\s]+)(?::([^\s]+))?", flags "g". *)
Definition k8sImageRegex : regex :=
  seq (chars "image:" ++
       [star ws;
        Group 1 (plus (not_of [CChar (ch ":"); CSpace]));
        opt (Seq (Char (ch ":")) (Group 2 (plus (not_of [CSpace]))))]).

(** Pattern "image:\s*['<DQ>]?([^:\s'<DQ>]+)(?::([^\s'<DQ>]+))?['<DQ>]?", flags "g", where <DQ> is the double quote. *)
Definition composeImageRegex : regex :=
  let quote := Class false [CChar SQ; CChar DQ] in
  seq (chars "image:" ++
       [star ws; opt quote;
        Group 1 (plus (not_of [CChar (ch ":"); CSpace; CChar SQ; CChar DQ]));
        opt (Seq (Char (ch ":"))
                 (Group 2 (plus (not_of [CSpace; CChar SQ; CChar DQ]))));
        opt quote]).

(** Pattern "^\+". *)
Definition leadingPlus : regex := Seq Bol (Char PLUS).

(** Pattern "^FROM\s+[^\n]+", flags "gm". *)
Definition fromLineRegex : regex :=
  seq ([Bol] ++ chars "FROM" ++ [plus ws; plus (not_of [CChar LF])]).

(** Pattern "FROM\s+([^:\s]+)(?::([^\s]+))?". *)
Definition fromRegex : regex :=
  seq (chars "FROM" ++
       [plus ws;
        Group 1 (plus (not_of [CChar (ch ":"); CSpace]));
        opt (Seq (Char (ch ":")) (Group 2 (plus (not_of [CSpace]))))]).

(** Pattern "^\d+$". *)
Definition integerRegex : regex := seq [Bol; digits; Eol].

(** Pattern "^\d+\.\d+$". *)
Definition majorMinorRegex : regex :=
  seq [Bol; digits; Char (ch "."); digits; Eol].

(** Pattern "^[a-zA-Z]+$". *)
Definition alphaRegex : regex :=
  seq [Bol;
       plus (Class false [CRange (ch "a") (ch "z"); CRange (ch "A") (ch "Z")]);
       Eol].

(** Pattern "uses:\s+([^@]+)@([^\s]+)", flags "g". *)
Definition actionRegex : regex :=
  seq (chars "uses:" ++
       [plus ws; Group 1 (plus (not_of [CChar (ch "@")])); Char (ch "@");
        Group 2 (plus (not_of [CSpace]))]).

(** Pattern "^v\d+\.\d+\.\d+$". *)
Definition semverRegex : regex :=
  seq [Bol; Char (ch "v"); digits; Char (ch "."); digits; Char (ch ".");
       digits; Eol].

(** Pattern "DO\s*\$\$\s*BEGIN[\s\S]*END\s*\$\$", flags "i". *)
Definition wrapperRegex : regex :=
  seq (chars "DO" ++ [star ws] ++ chars "$$" ++ [star ws] ++ chars "BEGIN"
       ++ [star (Class false [CSpace; CNotSpace])] ++ chars "END"
       ++ [star ws] ++ chars "$$").

(** Pattern "BEGIN([\s\S]*?)END", flags "i". *)
Definition blockRegex : regex :=
  seq (chars "BEGIN"
       ++ [Group 1 (lazy_star (Class false [CSpace; CNotSpace]))]
       ++ chars "END").

(** "IF\s+NOT\s+EXISTS", the guard of the first lookahead below. *)
Definition ifNotExists : list regex :=
  chars "IF" ++ [plus ws] ++ chars "NOT" ++ [plus ws] ++ chars "EXISTS".

Definition word : regex := Group 1 (plus (Class false [CWord])).

(** Pattern "CREATE\s+TABLE\s+(?!.*?IF\s+NOT\s+EXISTS)(\w+)", flags "i". *)
Definition createTableRegex : regex :=
  seq (chars "CREATE" ++ [plus ws] ++ chars "TABLE"
       ++ [plus ws; Look true (seq (lazy_star Dot :: ifNotExists)); word]).

(** Pattern "ALTER\s+TABLE\s+(?!.*?IF\s+(?:NOT\s+)?EXISTS)(\w+)", flags "i". *)
Definition alterTableRegex : regex :=
  seq (chars "ALTER" ++ [plus ws] ++ chars "TABLE"
       ++ [plus ws;
           Look true (seq ([lazy_star Dot] ++ chars "IF"
                           ++ [plus ws; opt (seq (chars "NOT" ++ [plus ws]))]
                           ++ chars "EXISTS"));
           word]).

(** Pattern "INSERT\s+INTO\s+(?!.*?(?:WHERE|IF)\s+NOT\s+EXISTS)(\w+)", flags "i". *)
Definition insertIntoRegex : regex :=
  seq (chars "INSERT" ++ [plus ws] ++ chars "INTO"
       ++ [plus ws;
           Look true (seq ([lazy_star Dot;
                            Alt (seq (chars "WHERE")) (seq (chars "IF"));
                            plus ws] ++ chars "NOT" ++ [plus ws]
                           ++ chars "EXISTS"));
           word]).

(** Pattern "DROP\s+TABLE\s+(?!.*?IF\s+EXISTS)(\w+)", flags "i". *)
Definition dropTableRegex : regex :=
  seq (chars "DROP" ++ [plus ws] ++ chars "TABLE"
       ++ [plus ws;
           Look true (seq ([lazy_star Dot] ++ chars "IF" ++ [plus ws]
                           ++ chars "EXISTS"));
           word]).

(** Pattern "IF\s+(?:NOT\s+)?EXISTS", flags "i". *)
Definition ifCheckRegex : regex :=
  seq (chars "IF" ++ [plus ws; opt (seq (chars "NOT" ++ [plus ws]))]
       ++ chars "EXISTS").

(** Pattern "\.(sql|migration)$". *)
Definition migrationFileRegex : regex :=
  seq [Char (ch ".");
       Group 1 (Alt (seq (chars "sql")) (seq (chars "migration")));
       Eol].

End Re.

(* ================================================================== *)
(** * Values and loops *)
(* ================================================================== *)

(** An element of a match array is a string or undefined. *)
Definition value := option jsstring.

(** Calling a method on undefined is a TypeError. *)
Definition receiver (v : value) : completion jsstring :=
  match v with
  | Some s => Normal s
  | None => Throw TypeError
  end.

Definition truthy (v : value) : bool :=
  match v with
  | Some (_ :: _) => true
  | _ => false
  end.

(** A value inside a template literal. *)
Definition interp (v : value) : jsstring :=
  match v with
  | Some s => s
  | None => str "undefined"
  end.

(** [v || d] *)
Definition or_else (v : value) (d : jsstring) : jsstring :=
  match v with
  | Some (c :: s) => c :: s
  | _ => d
  end.

(** [v === lit] *)
Definition strict_eq (v : value) (lit : jsstring) : bool :=
  match v with
  | Some s => jseq s lit
  | None => false
  end.

(** [for (const x of l) body], the body working on the [issues] array. *)
Fixpoint for_of {A : Type} (l : list A)
    (body : A -> list jsstring -> completion (list jsstring))
    (issues : list jsstring) : completion (list jsstring) :=
  match l with
  | [] => Normal issues
  | x :: l' => issues' <- body x issues ;; for_of l' body issues'
  end.

(** [issues.push(x)] *)
Definition push (issues : list jsstring) (x : jsstring) : list jsstring :=
  issues ++ [x].

(** [l.some(f)] *)
Fixpoint some {A : Type} (f : A -> completion bool) (l : list A) : completion bool :=
  match l with
  | [] => Normal false
  | x :: l' => b <- f x ;; if b then Normal true else some f l'
  end.

(** The warning sign that opens every message: U+26A0 U+FE0F. *)
Definition WARN : jsstring := [9888%N; 65039%N].

(* ================================================================== *)
(** * The version-pinning matchers *)
(* ================================================================== *)

Definition nodeMessage (packageName version : jsstring) : jsstring :=
  WARN ++ str " Package `" ++ packageName
       ++ str "` should use exact version instead of `" ++ version
       ++ str "`. Use exact version pinning for reproducible builds.".

Definition validateNodePackage (content : jsstring) : completion (list jsstring) :=
  let packageRegex := literal Re.packageRegex false true false in
  matches <- matchAll content packageRegex ;;
  for_of matches (fun mr issues =>
    let packageName := group 1 mr in
    let version := group 2 mr in
    v <- receiver version ;;
    if startsWith v (str "^") || startsWith v (str "~") || jseq v (str "*")
    then Normal (push issues (nodeMessage (interp packageName) v))
    else Normal issues) [].

Definition pythonMessage (packageName version : jsstring) : jsstring :=
  WARN ++ str " Python package `" ++ packageName
       ++ str "` should use exact version (==) instead of `" ++ version
       ++ str "`.".

Definition validatePythonPackage (content : jsstring) : completion (list jsstring) :=
  let requirementRegex := literal Re.requirementRegex false true true in
  matches <- matchAll content requirementRegex ;;
  for_of matches (fun mr issues =>
    let packageName := group 1 mr in
    let version := group 2 mr in
    if negb (truthy version)
       || includes (interp version) (str "~=")
       || includes (interp version) (str ">")
       || includes (interp version) (str "<")
    then Normal (push issues (pythonMessage (interp packageName)
                                            (or_else version (str "unspecified"))))
    else Normal issues) [].

Definition rubyMessage (gemName version : jsstring) : jsstring :=
  WARN ++ str " Ruby gem `" ++ gemName
       ++ str "` should use exact version instead of `" ++ version ++ str "`.".

Definition validateRubyPackage (content : jsstring) : completion (list jsstring) :=
  let gemRegex := literal Re.gemRegex false true false in
  matches <- matchAll content gemRegex ;;
  for_of matches (fun mr issues =>
    let gemName := group 1 mr in
    let version := group 2 mr in
    v <- receiver version ;;
    if includes v (str "~>") || includes v (str ">") || includes v (str "<")
    then Normal (push issues (rubyMessage (interp gemName) v))
    else Normal issues) [].

Definition gradleMessage (grp artifact version : jsstring) : jsstring :=
  WARN ++ str " Gradle dependency `" ++ grp ++ str ":" ++ artifact
       ++ str "` should use exact version instead of `" ++ version ++ str "`.".

Definition mavenMessage (version : jsstring) : jsstring :=
  WARN ++ str " Maven dependency should use exact version instead of `"
       ++ version ++ str "`.".

Definition validateJavaPackage (content : jsstring) : completion (list jsstring) :=
  let gradleRegex := literal Re.gradleRegex false true false in
  let mavenRegex := literal Re.mavenRegex false true false in
  gradleMatches <- matchAll content gradleRegex ;;
  mavenMatches <- matchAll content mavenRegex ;;
  issues <- for_of gradleMatches (fun mr issues =>
    let grp := group 1 mr in
    let artifact := group 2 mr in
    let version := group 3 mr in
    v <- receiver version ;;
    if includes v (str "+") || endsWith v (str ".+") || includes v (str "latest")
    then Normal (push issues (gradleMessage (interp grp) (interp artifact) v))
    else Normal issues) [] ;;
  for_of mavenMatches (fun mr issues =>
    let version := group 1 mr in
    v <- receiver version ;;
    if includes v (str "SNAPSHOT") || includes v (str "RELEASE")
       || includes v (str "LATEST")
    then Normal (push issues (mavenMessage v))
    else Normal issues) issues.

(** The tag rule shared by the Kubernetes and Compose matchers. *)
Definition looseTag (tag : value) : bool :=
  negb (truthy tag)
  || strict_eq tag (str "latest")
  || test (literal Re.integerRegex false false false) (interp tag)
  || test (literal Re.majorMinorRegex false false false) (interp tag).

Definition kubernetesMessage (image tag : jsstring) : jsstring :=
  WARN ++ str " Kubernetes container `" ++ image
       ++ str "` should use specific version tag instead of `" ++ tag
       ++ str "`.".

Definition validateKubernetesManifest (content : jsstring)
  : completion (list jsstring) :=
  let imageRegex := literal Re.k8sImageRegex false true false in
  matches <- matchAll content imageRegex ;;
  for_of matches (fun mr issues =>
    let image := group 1 mr in
    let tag := group 2 mr in
    if looseTag tag
    then Normal (push issues (kubernetesMessage (interp image)
                                                (or_else tag (str "latest"))))
    else Normal issues) [].

Definition composeMessage (image tag : jsstring) : jsstring :=
  WARN ++ str " Docker Compose service `" ++ image
       ++ str "` should use specific version tag instead of `" ++ tag
       ++ str "`.".

Definition validateDockerCompose (content : jsstring) : completion (list jsstring) :=
  let imageRegex := literal Re.composeImageRegex false true false in
  matches <- matchAll content imageRegex ;;
  for_of matches (fun mr issues =>
    let image := group 1 mr in
    let tag := group 2 mr in
    if looseTag tag
    then Normal (push issues (composeMessage (interp image)
                                             (or_else tag (str "latest"))))
    else Normal issues) [].

(** [content.split('\n').map(line => line.replace(/^\+/, '')).join('\n')] *)
Definition stripPlus (content : jsstring) : jsstring :=
  join [LF]
       (map (fun line => replace line (literal Re.leadingPlus false false false) [])
            (split LF content)).

Definition dockerNoTagMessage (image : jsstring) : jsstring :=
  WARN ++ str " Docker image `" ++ image
       ++ str "` has no version tag specified. Use specific version tags for reproducible builds.".

Definition dockerTagMessage (image tag : jsstring) : jsstring :=
  WARN ++ str " Docker image `" ++ image ++ str ":" ++ tag
       ++ str "` uses non-specific tag. Use complete version numbers (e.g., '20.5.0-alpine3.18').".

(** The condition of the [else if] of [validateDockerfile]. *)
Definition floatingTag (tag : value) : bool :=
  strict_eq tag (str "latest")
  || strict_eq tag (str "stable")
  || strict_eq tag (str "rolling")
  || strict_eq tag (str "alpine")
  || test (literal Re.integerRegex false false false) (interp tag)
  || test (literal Re.majorMinorRegex false false false) (interp tag)
  || test (literal Re.alphaRegex false false false) (interp tag).

Definition validateDockerfile (content : jsstring) : completion (list jsstring) :=
  let cleanContent := stripPlus content in
  let fromLines :=
    match match_global cleanContent (literal Re.fromLineRegex false true true) with
    | Some lines => lines
    | None => []
    end in
  for_of fromLines (fun fromLine issues =>
    match match_first fromLine (literal Re.fromRegex false false false) with
    | None => Normal issues
    | Some mr =>
        let image := group 1 mr in
        let tag := group 2 mr in
        if negb (truthy tag)
        then Normal (push issues (dockerNoTagMessage (interp image)))
        else if floatingTag tag
        then Normal (push issues (dockerTagMessage (interp image) (interp tag)))
        else Normal issues
    end) [].

Definition actionMessage (action version : jsstring) : jsstring :=
  WARN ++ str " GitHub Action `" ++ action
       ++ str "` should use exact version (e.g., v1.2.3) instead of `" ++ version
       ++ str "`. Use specific versions for reproducible workflows.".

Definition validateGitHubActions (diff : jsstring) : completion (list jsstring) :=
  let actionRegex := literal Re.actionRegex false true false in
  matches <- matchAll diff actionRegex ;;
  for_of matches (fun mr issues =>
    let action := group 1 mr in
    let version := group 2 mr in
    v <- receiver version ;;
    if strict_eq version (str "main") || strict_eq version (str "master")
       || negb (test (literal Re.semverRegex false false false) v)
    then Normal (push issues (actionMessage (interp action) v))
    else Normal issues) [].

(* ================================================================== *)
(** * The migration checker *)
(* ================================================================== *)

Definition wrapperMessage : jsstring :=
  WARN ++ str " Migration should be wrapped in `DO $$ BEGIN ... END $$` block".
Definition createTableMessage : jsstring :=
  WARN ++ str " Use `CREATE TABLE IF NOT EXISTS` for idempotent table creation".
Definition alterTableMessage : jsstring :=
  WARN ++ str " Use `ALTER TABLE IF EXISTS` for idempotent table alterations".
Definition insertIntoMessage : jsstring :=
  WARN ++ str " Consider adding `WHERE NOT EXISTS` check for idempotent data insertion".
Definition dropTableMessage : jsstring :=
  WARN ++ str " Use `DROP TABLE IF EXISTS` for idempotent table removal".

Definition riskyPatterns : list (RegExp * jsstring) :=
  [ (literal Re.createTableRegex true false false, createTableMessage);
    (literal Re.alterTableRegex true false false, alterTableMessage);
    (literal Re.insertIntoRegex true false false, insertIntoMessage);
    (literal Re.dropTableRegex true false false, dropTableMessage) ].

(** [/DO\s*\$\$\s*BEGIN[\s\S]*END\s*\$\$/i.test(cleanContent)] *)
Definition hasProperWrapper (cleanContent : jsstring) : bool :=
  test (literal Re.wrapperRegex true false false) cleanContent.

(** [cleanContent.match(/BEGIN([\s\S]*?)END/i)?.[1] || ''] *)
Definition blockContent (cleanContent : jsstring) : jsstring :=
  or_else
    match match_first cleanContent (literal Re.blockRegex true false false) with
    | Some mr => group 1 mr
    | None => None
    end [].

(** [/IF\s+(?:NOT\s+)?EXISTS/i.test(blockContent)] *)
Definition hasIfCheck (block : jsstring) : bool :=
  test (literal Re.ifCheckRegex true false false) block.

Definition validateDatabaseMigration (content : jsstring)
  : completion (list jsstring) :=
  let cleanContent := stripPlus content in
  if negb (hasProperWrapper cleanContent) then Normal (push [] wrapperMessage)
  else
    let block := blockContent cleanContent in
    for_of riskyPatterns (fun rule issues =>
      let (pattern, message) := rule in
      if test pattern block then
        if negb (hasIfCheck block) then Normal (push issues message)
        else Normal issues
      else Normal issues) [].

(* ================================================================== *)
(** * The registries and the dispatcher *)
(* ================================================================== *)

Record FileValidator := {
  extensions : list jsstring;
  patterns : list jsstring;
  validate : jsstring -> completion (list jsstring)
}.

(** A [Record<string, FileValidator>]: the entries in insertion order. *)
Definition registry := list (string * FileValidator).

Definition Object_values (r : registry) : list FileValidator := map snd r.

(** The module-level objects that outlive a call of [analyzeCode]. *)
Record Globals := {
  PACKAGE_VALIDATORS : registry;
  CONTAINER_VALIDATORS : registry
}.

Definition module_globals : Globals :=
  {| PACKAGE_VALIDATORS :=
       [ ("node"%string,
          {| extensions := [str "package.json"];
             patterns := [str "package.json"];
             validate := validateNodePackage |});
         ("python"%string,
          {| extensions := [str ".txt"; str ".pip"];
             patterns := [str "requirements.txt"; str "requirements/*.txt";
                          str "requirements/**.txt"];
             validate := validatePythonPackage |});
         ("ruby"%string,
          {| extensions := [str ".gemfile"; str ".gemspec"];
             patterns := [str "Gemfile"; str "Gemfile.lock"];
             validate := validateRubyPackage |});
         ("java"%string,
          {| extensions := [str ".gradle"; str ".pom"];
             patterns := [str "build.gradle"; str "pom.xml"];
             validate := validateJavaPackage |}) ];
     CONTAINER_VALIDATORS :=
       [ ("docker"%string,
          {| extensions := [str "Dockerfile"];
             patterns := [str "Dockerfile"; str "**/Dockerfile";
                          str "docker/Dockerfile"];
             validate := validateDockerfile |});
         ("kubernetes"%string,
          {| extensions := [str ".yaml"; str ".yml"];
             patterns := [str "k8s/*.y{a,}ml"; str "kubernetes/*.y{a,}ml"];
             validate := validateKubernetesManifest |});
         ("compose"%string,
          {| extensions := [str ".yaml"; str ".yml"];
             patterns := [str "docker-compose.y{a,}ml"];
             validate := validateDockerCompose |}) ] |}.

(** The parsed diff, as [parse-diff] declares it. *)
Inductive ChangeType := add | del | normal.
Record Change := { type : ChangeType; content : jsstring }.
Record Chunk := { changes : list Change }.
Record File := { to : option jsstring; chunks : list Chunk }.

(** [s.match(regexp)] for a string [regexp]: the string is compiled with
    [new RegExp(regexp)] and searched for in [s]. *)
Definition match_string (s regexp : jsstring) : completion (option MatchResult) :=
  R <- RegExpCreate regexp ;;
  Normal (match_first s R).

Definition kept (change : Change) : bool :=
  match type change with
  | add | normal => true
  | del => false
  end.

Definition diffContent (file : File) : jsstring :=
  join [LF]
       (map (fun chunk => join [LF] (map content (filter kept (changes chunk))))
            (chunks file)).

(** The condition of the two validator loops. *)
Definition selects (validator : FileValidator) (path : jsstring) : completion bool :=
  byExtension <- some (fun ext => Normal (endsWith path ext)) (extensions validator) ;;
  if byExtension then Normal true
  else some (fun pattern =>
               r <- match_string pattern path ;;
               Normal (match r with Some _ => true | None => false end))
            (patterns validator).

Definition runValidators (validators : list FileValidator)
    (path content : jsstring) (issues : list jsstring)
  : completion (list jsstring) :=
  for_of validators (fun validator issues =>
    applies <- selects validator path ;;
    if applies then
      found <- validate validator content ;;
      Normal (issues ++ found)
    else Normal issues) issues.

Definition isMigrationPath (path : jsstring) : bool :=
  test (literal Re.migrationFileRegex false false false) path
  || includes path (str "migrations/").

Definition analyzeFile (g : Globals) (file : File) (issues : list jsstring)
  : completion (list jsstring) :=
  match to file with
  | None | Some [] => Normal issues
  | Some path =>
      if jseq path (str "/dev/null") then Normal issues
      else
        let content := diffContent file in
        issues <- runValidators (Object_values (PACKAGE_VALIDATORS g))
                                path content issues ;;
        issues <- runValidators (Object_values (CONTAINER_VALIDATORS g))
                                path content issues ;;
        if isMigrationPath path then
          found <- validateDatabaseMigration content ;;
          Normal (issues ++ found)
        else Normal issues
  end.

(** [analyzeCode]: the promise's outcome and the globals after the call. *)
Definition analyzeCode (parsedDiff : list File) (g : Globals)
  : completion (list jsstring) * Globals :=
  (for_of parsedDiff (analyzeFile g) [], g).

(* ================================================================== *)
(** * Definitions used by the statements *)
(* ================================================================== *)

(** The test of line 287: no destination, or the deleted-file sentinel. *)
Definition skipped (file : File) : Prop :=
  to file = None \/ to file = Some [] \/ to file = Some (str "/dev/null").


(** The opening of every message of [validateGitHubActions]. *)
Definition actionPrefix : jsstring := WARN ++ str " GitHub Action `".

Definition isActionWarning (w : jsstring) : bool := startsWith w actionPrefix.

Definition notAction (w : jsstring) : Prop := isActionWarning w = false.

(** The warnings of the four structural rules for an inner block, as the
    migration rules of the design state them: the rule's statement shape is
    there and no guard is anywhere in the block. *)
Definition structuralWarnings (block : jsstring) : list jsstring :=
  flat_map (fun rule : RegExp * jsstring =>
              if test (fst rule) block && negb (hasIfCheck block)
              then [snd rule] else [])
           riskyPatterns.

(** A workflow file: the [uses:] matcher would flag its blob, the analysis
    reports only what the two [.yml] validators find in it. *)
Definition workflowBlob : jsstring :=
  str "+      - uses: actions/checkout@main" ++ [LF] ++ str "+        image: nginx".

Definition workflowFile : File :=
  {| to := Some (str ".github/workflows/ci.yml");
     chunks := [ {| changes := [ {| type := add; content := workflowBlob |} ] |} ] |}.

Definition deletedFile : File :=
  {| to := Some (str "/dev/null");
     chunks := [ {| changes := [ {| type := del;
                                    content := str "-FROM node:latest" |} ] |} ] |}.

(** [y] is [x] moved forward over some [w]. *)
Definition extends (x y : state) : Prop :=
  exists w, after x = w ++ after y /\ before y = rev w ++ before x.


Definition mk (bef aft : jsstring) (cs : captures) : state :=
  {| before := bef; after := aft; caps := cs |}.

(** The match array of a successful scan. *)
Definition mk_result (found : nat * state) : MatchResult :=
  let (start, y) := found in
  {| index := start;
     matched := rev (firstn (endIndex y - start) (before y));
     mcaps := caps y |}.

(** The rounds of [exec_loop] on the input split at [lastIndex]. *)
Fixpoint zloop (fuel : nat) (fl : flags) (r : regex) (bef aft : jsstring)
  : list (nat * state) :=
  match fuel with
  | O => []
  | S fuel' =>
      match scan fl r bef aft with
      | None => []
      | Some (start, y) =>
          (start, y) ::
          (if Nat.eqb (endIndex y) start then
             match after y with
             | [] => []
             | c :: aft' => zloop fuel' fl r (c :: before y) aft'
             end
           else zloop fuel' fl r (before y) (after y))
      end
  end.

(** The groups that are defined whenever the pattern matches. *)
Fixpoint defs (r : regex) : list nat :=
  match r with
  | Seq r1 r2 =>
      filter (fun k => negb (existsb (Nat.eqb k) (groups r2))) (defs r1) ++ defs r2
  | Alt r1 r2 => filter (fun k => existsb (Nat.eqb k) (defs r2)) (defs r1)
  | Rep r min max _ =>
      match min, max with
      | O, _ => []
      | _, Some O => []
      | _, _ => defs r
      end
  | Group n r => n :: defs r
  | Look false r => defs r
  | _ => []
  end.

Definition defined (ks : list nat) (cs : captures) : Prop :=
  forall k, In k ks -> cap_get k cs <> None.

(** The matches of the single pass [[...content.matchAll(regex)]]. *)
Definition allMatches (r : regex) (mflag : bool) (content : jsstring)
  : list MatchResult :=
  exec_loop (length content + 2) (literal r false true mflag) content.

(** What a match extracted: the name in group [k], as captured. *)
Definition captured (k : nat) (mr : MatchResult) : jsstring := interp (group k mr).

(** The policies of the matchers, on a match. *)
Definition nodeFails (mr : MatchResult) : bool :=
  let version := captured 2 mr in
  startsWith version (str "^") || startsWith version (str "~")
  || jseq version (str "*").

Definition pythonFails (mr : MatchResult) : bool :=
  match group 2 mr with
  | None | Some [] => true
  | Some version =>
      includes version (str "~=") || includes version (str ">")
      || includes version (str "<")
  end.

Definition rubyFails (mr : MatchResult) : bool :=
  let version := captured 2 mr in
  includes version (str "~>") || includes version (str ">")
  || includes version (str "<").

Definition gradleFails (mr : MatchResult) : bool :=
  let version := captured 3 mr in
  includes version (str "+") || endsWith version (str ".+")
  || includes version (str "latest").

Definition mavenFails (mr : MatchResult) : bool :=
  let version := captured 1 mr in
  includes version (str "SNAPSHOT") || includes version (str "RELEASE")
  || includes version (str "LATEST").

Definition imageFails (mr : MatchResult) : bool := looseTag (group 2 mr).

Definition actionFails (mr : MatchResult) : bool :=
  let version := captured 2 mr in
  jseq version (str "main") || jseq version (str "master")
  || negb (test (literal Re.semverRegex false false false) version).

(** The warning of a [FROM] line, if it has one. *)
Definition fromLineWarning (fromLine : jsstring) : list jsstring :=
  match match_first fromLine (literal Re.fromRegex false false false) with
  | None => []
  | Some mr =>
      if negb (truthy (group 2 mr)) then [dockerNoTagMessage (captured 1 mr)]
      else if floatingTag (group 2 mr)
      then [dockerTagMessage (captured 1 mr) (captured 2 mr)]
      else []
  end.

(** The matches of [/^FROM\s+[^\n]+/gm] in the cleaned content. *)
Definition fromLines (cleanContent : jsstring) : list jsstring :=
  map matched (exec_loop (length cleanContent + 2)
                         (literal Re.fromLineRegex false true true) cleanContent).

(** The results of a greedy and of a lazy [*] over single characters that
    satisfy [P]: the positions reached, in the order the matcher tries them. *)
Fixpoint greedy_states (P : char -> bool) (bef aft : jsstring) (cs : captures)
  : list state :=
  match aft with
  | c :: aft' =>
      if P c then greedy_states P (c :: bef) aft' cs ++ [mk bef aft cs]
      else [mk bef aft cs]
  | [] => [mk bef aft cs]
  end.


(** The patterns that match one character. *)
Definition single (fl : flags) (r : regex) : option (char -> bool) :=
  match r with
  | Char c => Some (char_match fl c)
  | Dot => Some (fun a => negb (isLineTerminator a))
  | Class invert atoms => Some (class_match fl invert atoms)
  | _ => None
  end.

(** The input after a literal text, compared as the flags say. *)
Fixpoint lit_prefix (fl : flags) (w s : jsstring) : option (jsstring * jsstring) :=
  match w, s with
  | [], _ => Some ([], s)
  | c :: w', a :: s' =>
      if char_match fl c a then
        match lit_prefix fl w' s' with
        | Some (consumed, rest) => Some (a :: consumed, rest)
        | None => None
        end
      else None
  | _ :: _, [] => None
  end.

(** The result the backtracking matcher settles on, when the rest of the
    pattern accepts it: the first of the list. *)
Definition first_is {A : Type} (l : list A) (a : A) : Prop :=
  exists l', l = a :: l'.

(** A manifest entry: a quoted name, a colon, white space, a quoted version. *)
Definition pairBlob (name spaces version : jsstring) : jsstring :=
  DQ :: name ++ DQ :: ch ":" :: spaces ++ DQ :: version ++ [DQ].

Definition quoteFree (s : jsstring) : bool :=
  forallb (fun c => negb (N.eqb DQ c)) s.

(** The flags [g] alone. *)
Definition nodeFlags : flags :=
  {| ignoreCase := false; multiline := false; global := true |}.

(** The policy of the node matcher on a version string. *)
Definition floatingVersion (version : jsstring) : bool :=
  startsWith version (str "^") || startsWith version (str "~")
  || jseq version (str "*").

(** The flags of [fromLineRegex]: [g] and [m]. *)
Definition lineFlags : flags :=
  {| ignoreCase := false; multiline := true; global := true |}.

(** A line without its leading plus sign. *)
Definition stripLine (line : jsstring) : jsstring :=
  match line with
  | c :: rest => if N.eqb c PLUS then rest else line
  | [] => []
  end.

(** The lines of the cleaned content. *)
Definition cleanLines (content : jsstring) : list jsstring :=
  map stripLine (split LF content).

(** A line that begins with [FROM] and a white space character. *)
Definition isFromLine (line : jsstring) : bool :=
  startsWith line (str "FROM") &&
  match skipn 4 line with
  | c :: _ => isSpace c
  | [] => false
  end.

(** A line the per-line reading covers: it holds no line terminator, and if
    it begins with [FROM] something other than white space follows on it. *)
Definition lineOk (line : jsstring) : bool :=
  forallb (fun c => negb (isLineTerminator c)) line &&
  (negb (startsWith line (str "FROM"))
   || existsb (fun c => negb (isSpace c)) (skipn 4 line)).

Definition lineStart (bef : jsstring) : Prop :=
  match bef with
  | [] => True
  | c :: _ => c = LF
  end.

(** What follows a line in the content: nothing, or a line break. *)
Definition lineTail (tail : jsstring) : Prop :=
  tail = [] \/ exists rest, tail = LF :: rest.

(** No flags. *)
Definition plainFlags : flags :=
  {| ignoreCase := false; multiline := false; global := false |}.

(** The characters of an image name and of a tag, for the matcher. *)
Definition imageChars (s : jsstring) : bool :=
  forallb (fun c => negb (N.eqb (ch ":") c) && negb (isSpace c)) s.

Definition tagChars (s : jsstring) : bool :=
  forallb (fun c => negb (isSpace c)) s.

(** What may follow the image reference on the line: nothing, or white
    space and anything. *)
Definition afterReference (rest : jsstring) : Prop :=
  match rest with
  | [] => True
  | c :: _ => isSpace c = true
  end.

(** A bare [FROM] line swallows the line after it. *)
Definition bareFromBlob : jsstring :=
  str "FROM" ++ [LF] ++ str "FROM node:latest".

(** The longest prefix of characters that satisfy [P], and the rest. *)
Fixpoint span (P : char -> bool) (s : jsstring) : jsstring * jsstring :=
  match s with
  | c :: s' =>
      if P c then let (a, r) := span P s' in (c :: a, r) else ([], s)
  | [] => ([], [])
  end.

Definition nonempty (s : jsstring) : bool :=
  match s with
  | [] => false
  | _ :: _ => true
  end.

Definition isLetter (c : char) : bool :=
  in_range 97%N 122%N c || in_range 65%N 90%N c.

(** The tag shapes of the Dockerfile rule, in the words of the design: a
    bare integer, a major.minor pair, purely alphabetic, a floating alias. *)
Definition isInteger (tag : jsstring) : bool :=
  nonempty tag && forallb isDigit tag.

Definition isMajorMinor (tag : jsstring) : bool :=
  let (major, rest) := span isDigit tag in
  nonempty major &&
  match rest with
  | dot :: minor => N.eqb dot (ch ".") && isInteger minor
  | [] => false
  end.

Definition isAlphabetic (tag : jsstring) : bool :=
  nonempty tag && forallb isLetter tag.

Definition isFloatingAlias (tag : jsstring) : bool :=
  jseq tag (str "latest") || jseq tag (str "stable")
  || jseq tag (str "rolling") || jseq tag (str "alpine").

(** A text that stays on one line. *)
Definition inLine (s : jsstring) : bool :=
  forallb (fun c => negb (isLineTerminator c)) s.

(** The marker [parse-diff] leaves in front of an added line. *)
Definition marker (added : bool) : jsstring := if added then [PLUS] else [].

(** The head of [container_examples/Dockerfile.wrong], with an added line,
    a context line and a pinned image. *)
Definition dockerfileSample : jsstring :=
  join [LF]
       [str "+FROM node:latest"; str "FROM ubuntu"; [];
        str "FROM golang:alpine AS builder"; str "FROM python:3 AS test";
        str " FROM debian"; str "RUN apt-get update";
        str "FROM node:20.5.0-alpine3.18"].

(** Whether the matcher found anything. *)
Definition succeeds (l : list state) : bool :=
  match l with
  | [] => false
  | _ :: _ => true
  end.

(** [vMAJOR.MINOR.PATCH], all three of digits. *)
Definition isSemverTag (ref : jsstring) : bool :=
  match ref with
  | v :: numbers =>
      N.eqb v (ch "v") &&
      (let (major, rest) := span isDigit numbers in
       nonempty major &&
       match rest with
       | dot :: minorPatch => N.eqb dot (ch ".") && isMajorMinor minorPatch
       | [] => false
       end)
  | [] => false
  end.

(** The characters of an action name: no at sign, no white space. *)
Definition actionChars (s : jsstring) : bool :=
  forallb (fun c => negb (N.eqb (ch "@") c) && negb (isSpace c)) s.

(** A text in which [c] does not occur. *)
Definition without (c : char) (s : jsstring) : bool :=
  forallb (fun a => negb (N.eqb c a)) s.

(** Where a run of [P] characters ends. *)
Definition stops (P : char -> bool) (rest : jsstring) : Prop :=
  match rest with
  | a :: _ => P a = false
  | [] => True
  end.

(** A workflow text with a [uses:] key: what precedes it, [uses:], white
    space, the action, an at sign, the reference and what follows. *)
Definition usesLine (indent spaces action ref rest : jsstring) : jsstring :=
  indent ++ str "uses:" ++ spaces ++ action ++ ch "@" :: ref ++ rest.

(** A manifest text with an [image:] key: what precedes it, [image:],
    white space, the image reference and what follows it. *)
Definition imageLine (indent spaces reference rest : jsstring) : jsstring :=
  indent ++ str "image:" ++ spaces ++ reference ++ rest.

Definition isQuote (c : char) : bool := N.eqb SQ c || N.eqb DQ c.

(** The characters of an image name and of a tag, for the Compose matcher. *)
Definition composeImageChars (s : jsstring) : bool :=
  forallb (fun c => negb (N.eqb (ch ":") c) && negb (isSpace c)
                    && negb (isQuote c)) s.

Definition composeTagChars (s : jsstring) : bool :=
  forallb (fun c => negb (isSpace c) && negb (isQuote c)) s.

(** Nothing, or one quote character. *)
Definition optionalQuote (q : jsstring) : bool :=
  match q with
  | [] => true
  | [c] => isQuote c
  | _ => false
  end.

(** The tag rule of the Kubernetes and Compose matchers, on a tag. *)
Definition isLooseTag (tag : jsstring) : bool :=
  jseq tag (str "latest") || isInteger tag || isMajorMinor tag.

(** A text without quote characters. *)
Definition noQuote (s : jsstring) : bool :=
  forallb (fun c => negb (isQuote c)) s.

(** A Gemfile line: [gem], white space, the quoted name, a comma inside
    optional white space, the quoted version, and what follows. *)
Definition gemLine (indent spaces : jsstring) (q1 : char) (name : jsstring)
    (q2 : char) (before_comma after_comma : jsstring) (q3 : char)
    (version : jsstring) (q4 : char) (rest : jsstring) : jsstring :=
  indent ++ str "gem" ++ spaces ++ q1 :: name ++ q2 :: before_comma
         ++ ch "," :: after_comma ++ q3 :: version ++ q4 :: rest.

(** The characters of a Gradle version: no single quote, no white space. *)
Definition versionChars (s : jsstring) : bool :=
  forallb (fun c => negb (N.eqb SQ c) && negb (isSpace c)) s.

(** What ends a Gradle version: the end of the text, a single quote or
    white space. *)
Definition afterVersion (rest : jsstring) : Prop :=
  match rest with
  | [] => True
  | c :: _ => N.eqb SQ c || isSpace c = true
  end.

(** A build script with one dependency in the colon notation: the text
    before the first colon, the artifact, the version and what follows. *)
Definition gradleCoordinates (pre artifact version rest : jsstring) : jsstring :=
  pre ++ ch ":" :: artifact ++ ch ":" :: version ++ rest.

(** A project file with one version element. *)
Definition mavenVersion (pre version rest : jsstring) : jsstring :=
  pre ++ str "<version>" ++ version ++ str "</version>" ++ rest.

Definition floatingGradle (version : jsstring) : bool :=
  includes version (str "+") || includes version (str "latest").

Definition mavenKeyword (version : jsstring) : bool :=
  includes version (str "SNAPSHOT") || includes version (str "RELEASE")
  || includes version (str "LATEST").

(** The comparison characters of a requirement: the set of [<>=~]. *)
Definition isCmp (c : char) : bool :=
  N.eqb (ch "=") c || N.eqb (ch ">") c || N.eqb (ch "<") c || N.eqb (ch "~") c.

(** The characters of a requirement name. *)
Definition nameChars (s : jsstring) : bool :=
  forallb (fun c => negb (isCmp c) && negb (isSpace c)) s.

(** One or two comparison characters. *)
Definition isOperator (op : jsstring) : bool :=
  match op with
  | [a] => isCmp a
  | [a; b] => isCmp a && isCmp b
  | _ => false
  end.

(** What may follow the first digit of a version. *)
Definition numberTail (s : jsstring) : bool :=
  forallb (fun c => negb (N.eqb (ch ";") c) && negb (isSpace c)) s.

(** What ends a version: the end of the text, a semicolon or white space. *)
Definition afterRequirement (rest : jsstring) : bool :=
  match rest with
  | [] => true
  | c :: _ => N.eqb (ch ";") c || isSpace c
  end.

(** A text that cannot begin a version, nor prolong a name. *)
Definition noVersionAhead (rest : jsstring) : bool :=
  match rest with
  | [] => true
  | c :: _ => negb (isSpace c) && negb (isCmp c) && negb (N.eqb (ch "^") c)
              && negb (isDigit c)
  end.

(** The policy of the requirements matcher on a version text. *)
Definition unpinned (version : jsstring) : bool :=
  includes version (str "~=") || includes version (str ">")
  || includes version (str "<").

(** The characters with a meaning of their own in a pattern, the dot
    apart. *)
Definition syntaxChars : jsstring :=
  [ch "^"; ch "$"; ch "("; ch ")"; ch "*"; ch "+"; ch "?"; ch "{"; ch "[";
   ch "\"; ch "|"].

Definition syntaxChar (c : char) : bool := existsb (N.eqb c) syntaxChars.

(** A path of characters that stand for themselves in a pattern, and of
    dots. *)
Definition plainPath (path : jsstring) : bool :=
  forallb (fun c => negb (syntaxChar c)) path.

(** What such a path is as a pattern: each dot any character but a line
    terminator, each other character itself. *)
Definition atomOf (c : char) : regex :=
  if N.eqb c (ch ".") then Dot else Char c.

Definition pathRegex (path : jsstring) : regex := seq (map atomOf path).

Fixpoint matchesHere (path s : jsstring) : bool :=
  match path, s with
  | [], _ => true
  | p :: path', a :: s' =>
      (if N.eqb p (ch ".") then negb (isLineTerminator a) else N.eqb p a)
      && matchesHere path' s'
  | _ :: _, [] => false
  end.

(** The path, read as a pattern, matches somewhere in [s]. *)
Fixpoint occurs (path s : jsstring) : bool :=
  matchesHere path s ||
  match s with
  | [] => false
  | _ :: s' => occurs path s'
  end.

(** The selection of a validator, for a plain path. *)
Definition selectsPlain (v : FileValidator) (path : jsstring) : bool :=
  existsb (endsWith path) (extensions v) || existsb (occurs path) (patterns v).

(** The validators in the order in which a file is put to them. *)
Definition allValidators (g : Globals) : list FileValidator :=
  Object_values (PACKAGE_VALIDATORS g) ++ Object_values (CONTAINER_VALIDATORS g).

(** The warnings of a validator that completed. *)
Definition issuesOf (c : completion (list jsstring)) : list jsstring :=
  match c with
  | Normal found => found
  | Throw _ => []
  end.

(** The warnings of one file with a plain path: those of the validators
    selected, in registry order, then those of the migration check. *)
Definition fileIssues (path content : jsstring) : list jsstring :=
  flat_map (fun v => issuesOf (validate v content))
           (filter (fun v => selectsPlain v path) (allValidators module_globals))
  ++ (if isMigrationPath path
      then issuesOf (validateDatabaseMigration content) else []).

Definition fileWarnings (file : File) : list jsstring :=
  match to file with
  | None | Some [] => []
  | Some path =>
      if jseq path (str "/dev/null") then []
      else fileIssues path (diffContent file)
  end.

Definition plainFile (file : File) : Prop :=
  match to file with
  | None => True
  | Some path => plainPath path = true
  end.

(** A file whose path the [RegExp] constructor rejects. *)
Definition rejectedFile (file : File) : Prop :=
  exists path e, to file = Some path /\ Pattern.parse path = Throw e.

(** A file without its removed lines. *)
Definition dropRemoved (file : File) : File :=
  {| to := to file;
     chunks := map (fun chunk => {| changes := filter kept (changes chunk) |})
                   (chunks file) |}.

(** A file whose context lines are marked as added lines. *)
Definition asAdded (file : File) : File :=
  {| to := to file;
     chunks :=
       map (fun chunk =>
              {| changes :=
                   map (fun change =>
                          {| type := match type change with
                                     | normal => add
                                     | t => t
                                     end;
                             content := content change |})
                       (changes chunk) |})
           (chunks file) |}.

(** The texts of the lines kept, chunk by chunk. *)
Definition keptLines (file : File) : list (list jsstring) :=
  map (fun chunk => map content (filter kept (changes chunk))) (chunks file).

(** Some suffix of [s], [s] itself included, satisfies [P]. *)
Fixpoint anySuffix (P : jsstring -> bool) (s : jsstring) : bool :=
  P s ||
  match s with
  | [] => false
  | _ :: s' => anySuffix P s'
  end.

(** A line as [parse-diff] hands it over: marked when it was added. *)
Definition markedLine (line : bool * jsstring) : jsstring :=
  marker (fst line) ++ snd line.

(** A line of a diff: no line feed in it, and no plus sign of its own at
    its start unless it carries the marker. *)
Definition diffLine (line : bool * jsstring) : bool :=
  without LF (snd line) && (fst line || negb (startsWith (snd line) [PLUS])).

(** The flag [i] alone. *)
Definition ciFlags : flags :=
  {| ignoreCase := true; multiline := false; global := false |}.



(** The four warnings of the statement rules, in the order of the rules. *)
Definition statementMessages : list jsstring :=
  [createTableMessage; alterTableMessage; insertIntoMessage; dropTableMessage].





(** A line as [parse-diff] hands over a context line: it begins with a
    blank, or is empty, and holds no line terminator. *)
Definition contextLine (line : jsstring) : bool :=
  inLine line &&
  match line with
  | c :: _ => N.eqb c (ch " ")
  | [] => true
  end.

(* ================================================================== *)
(** * The comment and the outcome of the action *)
(* ================================================================== *)

(** What the action does to the outside: the request that creates the
    comment, and [core.setFailed].  What it logs is left out. *)
Inductive effect :=
| CreateComment (owner repo : jsstring) (issue_number : N) (body : jsstring)
| SetFailed (message : jsstring).

Record PRDetails := { owner : jsstring; repo : jsstring; pull_number : N }.

(** An awaited call of the outside returns, or rejects with an error of
    which the text, as a template literal shows it, is kept. *)
Inductive outcome (A : Type) :=
| Returned (a : A)
| Rejected (text : jsstring).
Arguments Returned {A} a.
Arguments Rejected {A} text.

(** The body of the comment up to the issues. *)
Definition commentHeader : jsstring :=
  join [LF]
    [str "## " ++ [55357%N; 56589%N] ++ str " Version Pinning and Migration Validation";
     [];
     []].

(** The body of the comment after the issues. *)
Definition commentFooter : jsstring :=
  join [LF]
    [[];
     [];
     str "### " ++ [55357%N; 56541%N] ++ str " Recommendations:";
     str "#### Version Pinning:";
     str "- Use specific version tags (e.g., `node:20.5.0`)";
     str "- Avoid generic tags like `latest`, `alpine`, or partial versions";
     str "- Good examples:";
     str "  - `FROM node:20.5.0-alpine3.18`";
     str "  - `FROM python:3.11.5`";
     str "  - `FROM ubuntu:22.04`";
     [];
     str "#### Database Migrations:";
     str "- Always use `IF EXISTS` or `IF NOT EXISTS` clauses";
     str "- Wrap changes in transaction blocks (BEGIN/END)";
     str "- Include guards against duplicate operations";
     str "- Example of good migration:";
     str "```sql";
     str "DO $$ ";
     str "BEGIN ";
     str "    IF NOT EXISTS (SELECT 1 FROM information_schema.columns ";
     str "                   WHERE table_name = 'users' AND column_name = 'email') ";
     str "    THEN ";
     str "        ALTER TABLE users ADD COLUMN email VARCHAR(255);";
     str "    END IF;";
     str "END $$;";
     str "```";
     []].

Definition commentBody (issues : list jsstring) : jsstring :=
  commentHeader ++ join [LF; LF] issues ++ commentFooter.

Definition failedMessage : jsstring :=
  [10060%N] ++ str " Version pinning and migration validation failed. See PR comments for details.".

(** [createComment]: [request] is what the awaited request does. *)
Definition createComment (request : outcome unit) (owner repo : jsstring)
    (pull_number : N) (issues : list jsstring) : outcome unit * list effect :=
  match issues with
  | _ :: _ =>
      let body := commentBody issues in
      match request with
      | Returned _ =>
          (Returned tt,
           [CreateComment owner repo pull_number body; SetFailed failedMessage])
      | Rejected text => (Rejected text, [CreateComment owner repo pull_number body])
      end
  | [] => (Returned tt, [])
  end.

(** The handler of [run]: [core.setFailed] with the text of the error. *)
Definition actionFailed (text : jsstring) : list effect :=
  [SetFailed (str "Action failed: " ++ text)].

(** [run]: [event] is what reading and parsing the event file gives,
    [response] what the request for the diff gives, [parseDiff] the parser of
    the diff, [request] what the request for the comment does, and [describe]
    the text of an error of the analysis. *)
Definition run (describe : error -> jsstring) (event : outcome PRDetails)
    (response : PRDetails -> outcome jsstring)
    (parseDiff : jsstring -> list File) (request : outcome unit)
  : list effect :=
  match event with
  | Rejected text => actionFailed text
  | Returned prDetails =>
      match response prDetails with
      | Rejected text => actionFailed text
      | Returned [] => []
      | Returned diff =>
          match fst (analyzeCode (parseDiff diff) module_globals) with
          | Throw e => actionFailed (describe e)
          | Normal issues =>
              match createComment request (owner prDetails) (repo prDetails)
                                  (pull_number prDetails) issues with
              | (Returned _, effects) => effects
              | (Rejected text, effects) => effects ++ actionFailed text
              end
          end
      end
  end.

(** The comments posted and the failures set, among the effects of a run. *)
Definition comments (effects : list effect) : list effect :=
  filter (fun e => match e with CreateComment _ _ _ _ => true | _ => false end)
         effects.

Definition failures (effects : list effect) : list effect :=
  filter (fun e => match e with SetFailed _ => true | _ => false end) effects.
(* ================================================================== *)
(** * Loops and lists *)
(* ================================================================== *)

Lemma for_of_app {A : Type} (l1 l2 : list A) body issues :
  for_of (l1 ++ l2) body issues =
  (mid <- for_of l1 body issues ;; for_of l2 body mid).
Proof.
  revert issues. induction l1 as [|x l1 IH]; intros issues; simpl.
  - reflexivity.
  - destruct (body x issues); simpl; auto.
Qed.

Lemma for_of_Forall {A : Type} (P : jsstring -> Prop) (l : list A) body :
  (forall a issues issues',
      Forall P issues -> body a issues = Normal issues' -> Forall P issues') ->
  forall issues out,
    Forall P issues -> for_of l body issues = Normal out -> Forall P out.
Proof.
  intros Hbody. induction l as [|x l IH]; intros issues out HP; simpl.
  - intros H. inversion H. subst. exact HP.
  - destruct (body x issues) as [mid|e] eqn:E; simpl; intros H.
    + eapply IH; [|exact H]. eapply Hbody; eauto.
    + discriminate.
Qed.

Lemma Forall_push (P : jsstring -> Prop) issues w :
  Forall P issues -> P w -> Forall P (push issues w).
Proof.
  intros H1 H2. unfold push. apply Forall_app. split; auto.
Qed.


(* ================================================================== *)
(** * Strings *)
(* ================================================================== *)

Lemma char_eqb_refl c : char_eqb c c = true.
Proof. apply N.eqb_refl. Qed.

Lemma startsWith_nil s : startsWith s [] = true.
Proof. destruct s; reflexivity. Qed.

Lemma startsWith_app v b : startsWith (v ++ b) v = true.
Proof.
  induction v as [|c v IH]; simpl; [destruct b; reflexivity|].
  rewrite char_eqb_refl, IH. reflexivity.
Qed.

Lemma includes_app_r a s v : includes s v = true -> includes (a ++ s) v = true.
Proof.
  intros H. induction a as [|c a IH]; simpl; [exact H|].
  rewrite IH. apply orb_true_r.
Qed.

Lemma includes_unfold s p :
  includes s p =
  startsWith s p || match s with [] => false | _ :: s' => includes s' p end.
Proof. destruct s; reflexivity. Qed.

Lemma includes_prefix v b : includes (v ++ b) v = true.
Proof. rewrite includes_unfold, startsWith_app. reflexivity. Qed.

(** A message contains what is spliced into it. *)
Lemma includes_inside a v b : includes (a ++ v ++ b) v = true.
Proof. apply includes_app_r, includes_prefix. Qed.

Ltac spliced :=
  rewrite ?app_assoc;
  repeat first [apply includes_inside | rewrite <- app_assoc].
(* ================================================================== *)
(** * The matcher: positions and fuel *)
(* ================================================================== *)

Lemma flat_map_ext_in {A B : Type} (f g : A -> list B) (l : list A) :
  (forall a, In a l -> f a = g a) -> flat_map f l = flat_map g l.
Proof.
  induction l as [|a l IH]; intros H; simpl.
  - reflexivity.
  - rewrite (H a (or_introl eq_refl)), IH; [reflexivity|].
    intros b Hb. apply H. right. exact Hb.
Qed.

Lemma extends_refl x : extends x x.
Proof. exists []. split; reflexivity. Qed.

Lemma extends_trans x y z : extends x y -> extends y z -> extends x z.
Proof.
  intros [w1 [A1 B1]] [w2 [A2 B2]]. exists (w1 ++ w2). split.
  - rewrite A1, A2, app_assoc. reflexivity.
  - rewrite B2, B1, rev_app_distr, app_assoc. reflexivity.
Qed.

Lemma extends_length x y :
  extends x y ->
  length (after y) <= length (after x) /\
  (endIndex y = endIndex x -> after y = after x) /\
  (endIndex y <> endIndex x -> length (after y) < length (after x)).
Proof.
  intros [w [A B]]. unfold endIndex. rewrite A, B.
  rewrite !length_app, length_rev. repeat split; try lia.
  intros H. destruct w; [reflexivity|simpl in H; lia].
Qed.

Lemma step_extends x ok y : In y (step x ok) -> extends x y.
Proof.
  unfold step. destruct (after x) as [|a rest] eqn:E; [intros []|].
  destruct (ok a); [|intros []]. intros [<-|[]].
  exists [a]. simpl. split; [exact E|reflexivity].
Qed.

Lemma RepeatMatcher_extends body parens greedy :
  (forall x y, In y (body x) -> extends x y) ->
  forall fuel min max x y,
    In y (RepeatMatcher body parens greedy fuel min max x) -> extends x y.
Proof.
  intros Hbody. induction fuel as [|fuel IH]; intros min max x y; simpl.
  - intros [].
  - set (xr := {| before := before x; after := after x;
                  caps := cap_clear parens (caps x) |}).
    assert (Hagain :
      In y (flat_map
              (fun y0 =>
                 if Nat.eqb min 0 && Nat.eqb (endIndex y0) (endIndex x) then []
                 else RepeatMatcher body parens greedy fuel (pred min)
                                    (dec_max max) y0)
              (body xr)) -> extends x y).
    { intros H. apply in_flat_map in H. destruct H as [y0 [H0 H1]].
      destruct (Nat.eqb min 0 && Nat.eqb (endIndex y0) (endIndex x));
        [destruct H1|].
      apply IH in H1. apply Hbody in H0.
      eapply extends_trans; [|exact H1].
      destruct H0 as [w [A B]]. exists w. exact (conj A B). }
    assert (Hself : In y [x] -> extends x y).
    { intros [<-|[]]. apply extends_refl. }
    destruct max as [[|k]|]; auto;
      destruct (negb (Nat.eqb min 0)); auto;
      destruct greedy; intros H;
      try (apply in_app_iff in H; destruct H; auto);
      try (destruct H as [<-|H]; [apply extends_refl|auto]).
Qed.

Ltac in_single :=
  match goal with
  | |- In _ [] -> _ => intros []
  | |- In _ [_] -> _ => intros [<-|[]]
  end.

Lemma m_extends fl r : forall x y, In y (m fl r x) -> extends x y.
Proof.
  induction r; intros x y; cbn [m].
  - intros [<-|[]]. apply extends_refl.
  - apply step_extends.
  - apply step_extends.
  - apply step_extends.
  - intros H. apply in_flat_map in H. destruct H as [z [H1 H2]].
    eapply extends_trans; eauto.
  - intros H. apply in_app_iff in H. destruct H; auto.
  - apply RepeatMatcher_extends. exact IHr.
  - intros H. apply in_map_iff in H. destruct H as [z [<- H]].
    apply IHr in H. destruct H as [w [A B]]. exists w. exact (conj A B).
  - destruct (m fl r x) as [|z l]; destruct negative; in_single;
      try apply extends_refl.
    exists []. split; reflexivity.
  - destruct (before x) as [|c l]; [|destruct (multiline fl && isLineTerminator c)];
      in_single; apply extends_refl.
  - destruct (after x) as [|c l]; [|destruct (multiline fl && isLineTerminator c)];
      in_single; apply extends_refl.
  - destruct (xorb negative _); in_single; apply extends_refl.
Qed.

(** The fuel of [RepeatMatcher] is never used up: any two amounts above
    [min] plus the length of the input left give the same results. *)
Lemma RepeatMatcher_fuel body parens greedy :
  (forall x y, In y (body x) -> extends x y) ->
  forall fuel1 fuel2 min max x,
    min + length (after x) < fuel1 ->
    min + length (after x) < fuel2 ->
    RepeatMatcher body parens greedy fuel1 min max x =
    RepeatMatcher body parens greedy fuel2 min max x.
Proof.
  intros Hbody. induction fuel1 as [|fuel1 IH]; intros fuel2 min max x H1 H2.
  - lia.
  - destruct fuel2 as [|fuel2]; [lia|]. simpl.
    set (xr := {| before := before x; after := after x;
                  caps := cap_clear parens (caps x) |}).
    assert (E : flat_map
              (fun y0 =>
                 if Nat.eqb min 0 && Nat.eqb (endIndex y0) (endIndex x) then []
                 else RepeatMatcher body parens greedy fuel1 (pred min)
                                    (dec_max max) y0)
              (body xr) =
            flat_map
              (fun y0 =>
                 if Nat.eqb min 0 && Nat.eqb (endIndex y0) (endIndex x) then []
                 else RepeatMatcher body parens greedy fuel2 (pred min)
                                    (dec_max max) y0)
              (body xr)).
    { apply flat_map_ext_in. intros y0 Hy0.
      destruct (Nat.eqb min 0) eqn:Em; simpl.
      - destruct (Nat.eqb (endIndex y0) (endIndex x)) eqn:Ee; [reflexivity|].
        apply Nat.eqb_eq in Em. apply Nat.eqb_neq in Ee. subst min.
        apply Hbody in Hy0.
        assert (Hx : extends x y0).
        { destruct Hy0 as [w [A B]]. exists w. exact (conj A B). }
        apply extends_length in Hx. destruct Hx as [_ [_ Hlt]].
        specialize (Hlt Ee). apply IH; simpl in *; lia.
      - apply Nat.eqb_neq in Em. apply Hbody in Hy0.
        assert (Hx : extends x y0).
        { destruct Hy0 as [w [A B]]. exists w. exact (conj A B). }
        apply extends_length in Hx. destruct Hx as [Hle _].
        apply IH; lia. }
    rewrite E. reflexivity.
Qed.


(* ================================================================== *)
(** * The search loop on a split input *)
(* ================================================================== *)

Lemma scan_found fl r : forall aft bef start y,
  scan fl r bef aft = Some (start, y) ->
  exists a1 a2,
    aft = a1 ++ a2 /\ start = length bef + length a1 /\
    (exists l, m fl r (mk (rev a1 ++ bef) a2 []) = y :: l) /\
    extends (mk (rev a1 ++ bef) a2 []) y.
Proof.
  induction aft as [|c aft IH]; intros bef start y; simpl.
  - destruct (m fl r {| before := bef; after := []; caps := [] |}) as [|z l] eqn:E;
      [discriminate|].
    intros H. injection H as <- <-. exists [], []. simpl. repeat split.
    + lia.
    + exists l. exact E.
    + apply (m_extends fl r). unfold mk. rewrite E. left. reflexivity.
  - destruct (m fl r {| before := bef; after := c :: aft; caps := [] |})
      as [|z l] eqn:E.
    + intros H. apply IH in H. destruct H as [a1 [a2 [A [B [C D]]]]].
      exists (c :: a1), a2. simpl. rewrite <- app_assoc. simpl.
      repeat split; auto.
      * rewrite A. reflexivity.
      * simpl in B. lia.
    + intros H. injection H as <- <-. exists [], (c :: aft). simpl. repeat split.
      * lia.
      * exists l. exact E.
      * apply (m_extends fl r). unfold mk. rewrite E. left. reflexivity.
Qed.

Lemma scan_whole fl r aft bef start y :
  scan fl r bef aft = Some (start, y) ->
  rev (before y) ++ after y = rev bef ++ aft /\
  length bef <= start <= endIndex y.
Proof.
  intros H. apply scan_found in H.
  destruct H as [a1 [a2 [A [B [_ [w [E1 E2]]]]]]]. simpl in E1, E2.
  unfold endIndex. rewrite E2, A, E1.
  rewrite !rev_app_distr, !rev_involutive, !length_app, !length_rev.
  rewrite <- !app_assoc. split; [reflexivity|lia].
Qed.

Lemma firstn_rev_app (bef aft : jsstring) :
  firstn (length bef) (rev bef ++ aft) = rev bef.
Proof.
  rewrite <- (length_rev bef). rewrite firstn_app, firstn_all.
  rewrite Nat.sub_diag. simpl. apply app_nil_r.
Qed.

Lemma skipn_rev_app (bef aft : jsstring) :
  skipn (length bef) (rev bef ++ aft) = aft.
Proof.
  rewrite <- (length_rev bef). rewrite skipn_app, skipn_all.
  rewrite Nat.sub_diag. reflexivity.
Qed.

Lemma exec_at R bef aft :
  global (reflags R) = true ->
  RegExpBuiltinExec (set_lastIndex R (length bef)) (rev bef ++ aft) =
  match scan (reflags R) (source R) bef aft with
  | None => (None, set_lastIndex R 0)
  | Some (start, y) => (Some (mk_result (start, y)), set_lastIndex R (endIndex y))
  end.
Proof.
  intros Hg. unfold RegExpBuiltinExec. simpl. rewrite Hg.
  assert (Hlen : (length (rev bef ++ aft) <? length bef) = false).
  { apply Nat.ltb_ge. rewrite length_app, length_rev. lia. }
  rewrite Hlen, firstn_rev_app, rev_involutive, skipn_rev_app.
  destruct (scan (reflags R) (source R) bef aft) as [[start y]|]; reflexivity.
Qed.

Lemma exec_past_end R s i :
  global (reflags R) = true -> length s < i ->
  RegExpBuiltinExec (set_lastIndex R i) s = (None, set_lastIndex R 0).
Proof.
  intros Hg Hi. unfold RegExpBuiltinExec. simpl. rewrite Hg.
  apply Nat.ltb_lt in Hi. rewrite Hi. reflexivity.
Qed.

(** [exec_loop] on the split input. *)
Lemma exec_loop_zloop R :
  global (reflags R) = true ->
  forall fuel bef aft,
    exec_loop fuel (set_lastIndex R (length bef)) (rev bef ++ aft) =
    map mk_result (zloop fuel (reflags R) (source R) bef aft).
Proof.
  intros Hg. induction fuel as [|fuel IH]; intros bef aft; [reflexivity|].
  cbn [exec_loop zloop]. rewrite (exec_at R bef aft Hg).
  destruct (scan (reflags R) (source R) bef aft) as [[start y]|] eqn:E;
    [|reflexivity].
  cbn [map]. f_equal.
  destruct (scan_whole _ _ _ _ E) as [Hs [Hlo Hhi]].
  assert (H1 : endIndex y = start -> matched (mk_result (start, y)) = []).
  { simpl. intros ->. rewrite Nat.sub_diag. reflexivity. }
  assert (H2 : endIndex y <> start -> matched (mk_result (start, y)) <> []).
  { simpl. intros Hne H. apply (f_equal (@length _)) in H.
    rewrite length_rev, length_firstn in H. simpl in H.
    unfold endIndex in *. lia. }
  destruct (Nat.eqb (endIndex y) start) eqn:Ee.
  - apply Nat.eqb_eq in Ee. rewrite (H1 Ee).
    cbn [lastIndex set_lastIndex].
    replace (set_lastIndex (set_lastIndex R (endIndex y)) (S (endIndex y)))
      with (set_lastIndex R (S (endIndex y))) by reflexivity.
    rewrite <- Hs. destruct (after y) as [|c aft'] eqn:Ea.
    + destruct fuel; [reflexivity|]. cbn [exec_loop].
      rewrite exec_past_end; [reflexivity|exact Hg|].
      rewrite length_app, length_rev. unfold endIndex. simpl. lia.
    + specialize (IH (c :: before y) aft'). simpl in IH.
      rewrite <- app_assoc in IH. simpl in IH. exact IH.
  - apply Nat.eqb_neq in Ee. apply H2 in Ee.
    destruct (matched (mk_result (start, y))) eqn:Em; [contradiction|].
    rewrite <- Hs. apply IH.
Qed.

Lemma matchAll_zloop r i mflag s :
  matchAll s (literal r i true mflag) =
  Normal (map mk_result
              (zloop (length s + 2)
                     {| ignoreCase := i; multiline := mflag; global := true |}
                     r [] s)).
Proof.
  unfold matchAll. cbn [literal reflags global]. f_equal.
  apply (exec_loop_zloop (literal r i true mflag) eq_refl (length s + 2) [] s).
Qed.

Lemma match_global_zloop r i mflag s :
  match_global s (literal r i true mflag) =
  match zloop (length s + 2)
              {| ignoreCase := i; multiline := mflag; global := true |} r [] s with
  | [] => None
  | ms => Some (map (fun found => matched (mk_result found)) ms)
  end.
Proof.
  unfold match_global.
  replace (exec_loop (length s + 2) (set_lastIndex (literal r i true mflag) 0) s)
    with (map mk_result
              (zloop (length s + 2)
                     {| ignoreCase := i; multiline := mflag; global := true |}
                     r [] s)).
  - destruct (zloop _ _ _ _ _) as [|f fs]; [reflexivity|].
    cbn [map]. rewrite map_map. reflexivity.
  - symmetry.
    apply (exec_loop_zloop (literal r i true mflag) eq_refl (length s + 2) [] s).
Qed.

(** Without the [g] flag [lastIndex] is neither read nor written. *)
Lemma exec_first R s :
  global (reflags R) = false ->
  RegExpBuiltinExec R s =
  (option_map mk_result (scan (reflags R) (source R) [] s), R).
Proof.
  intros Hg. unfold RegExpBuiltinExec. rewrite Hg. simpl.
  destruct (scan (reflags R) (source R) [] s) as [[start y]|]; reflexivity.
Qed.

Lemma test_scan r i mflag s :
  test (literal r i false mflag) s =
  match scan {| ignoreCase := i; multiline := mflag; global := false |} r [] s with
  | Some _ => true
  | None => false
  end.
Proof.
  unfold test, RegExp_test. rewrite exec_first by reflexivity. simpl.
  destruct (scan _ r [] s) as [[start y]|]; reflexivity.
Qed.

Lemma match_first_scan r i mflag s :
  match_first s (literal r i false mflag) =
  option_map mk_result
    (scan {| ignoreCase := i; multiline := mflag; global := false |} r [] s).
Proof.
  unfold match_first. rewrite exec_first by reflexivity. reflexivity.
Qed.

(* ================================================================== *)
(** * Captures *)
(* ================================================================== *)

Lemma cap_clear_nil cs : cap_clear [] cs = cs.
Proof.
  unfold cap_clear. induction cs as [|kv cs IH]; simpl; [reflexivity|].
  f_equal. exact IH.
Qed.

Lemma cap_get_clear k ns cs :
  existsb (Nat.eqb k) ns = false -> cap_get k (cap_clear ns cs) = cap_get k cs.
Proof.
  intros Hk. unfold cap_clear. induction cs as [|[j v] cs IH]; simpl; [reflexivity|].
  destruct (existsb (Nat.eqb j) ns) eqn:Ej; simpl.
  - destruct (Nat.eqb j k) eqn:Ejk; [|exact IH].
    apply Nat.eqb_eq in Ejk. subst j. rewrite Ej in Hk. discriminate.
  - rewrite IH. reflexivity.
Qed.

Lemma cap_get_set_same k v cs : cap_get k (cap_set k v cs) = Some v.
Proof. unfold cap_set. simpl. rewrite Nat.eqb_refl. reflexivity. Qed.

Lemma cap_get_set_other k n v cs :
  n <> k -> cap_get k (cap_set n v cs) = cap_get k cs.
Proof.
  intros Hn. unfold cap_set. simpl.
  destruct (Nat.eqb n k) eqn:E; [apply Nat.eqb_eq in E; contradiction|].
  apply cap_get_clear. simpl. rewrite Nat.eqb_sym, E. reflexivity.
Qed.

Lemma existsb_eqb_In k ns : existsb (Nat.eqb k) ns = true <-> In k ns.
Proof.
  rewrite existsb_exists. split.
  - intros [x [H E]]. apply Nat.eqb_eq in E. subst. exact H.
  - intros H. exists k. split; [exact H|apply Nat.eqb_refl].
Qed.

Lemma existsb_eqb_notIn k ns : existsb (Nat.eqb k) ns = false <-> ~ In k ns.
Proof.
  rewrite <- existsb_eqb_In. destruct (existsb (Nat.eqb k) ns); split;
    intros H; try discriminate; try reflexivity; exfalso; auto.
Qed.

(** A matcher touches the captures of its own groups only. *)
Lemma RepeatMatcher_frame body parens greedy k :
  ~ In k parens ->
  (forall x y, In y (body x) -> cap_get k (caps y) = cap_get k (caps x)) ->
  forall fuel min max x y,
    In y (RepeatMatcher body parens greedy fuel min max x) ->
    cap_get k (caps y) = cap_get k (caps x).
Proof.
  intros Hk Hbody. induction fuel as [|fuel IH]; intros min max x y; simpl.
  - intros [].
  - set (xr := {| before := before x; after := after x;
                  caps := cap_clear parens (caps x) |}).
    assert (Hagain :
      In y (flat_map
              (fun y0 =>
                 if Nat.eqb min 0 && Nat.eqb (endIndex y0) (endIndex x) then []
                 else RepeatMatcher body parens greedy fuel (pred min)
                                    (dec_max max) y0)
              (body xr)) -> cap_get k (caps y) = cap_get k (caps x)).
    { intros H. apply in_flat_map in H. destruct H as [y0 [H0 H1]].
      destruct (Nat.eqb min 0 && Nat.eqb (endIndex y0) (endIndex x));
        [destruct H1|].
      apply IH in H1. apply Hbody in H0. rewrite H1, H0. simpl.
      apply cap_get_clear. apply existsb_eqb_notIn. exact Hk. }
    destruct max as [[|j]|]; try (intros [<-|[]]; reflexivity);
      destruct (negb (Nat.eqb min 0)); auto;
      destruct greedy; intros H;
      try (apply in_app_iff in H; destruct H as [H|[<-|[]]]; auto);
      try (destruct H as [<-|H]; auto).
Qed.

Lemma m_frame fl r : forall k x y,
  ~ In k (groups r) -> In y (m fl r x) -> cap_get k (caps y) = cap_get k (caps x).
Proof.
  induction r; intros k x y Hk; cbn [m]; cbn [groups] in Hk;
    try (unfold step; destruct (after x) as [|a rest]; [intros []|];
         match goal with |- In _ (if ?b then _ else _) -> _ => destruct b end;
         in_single; reflexivity).
  - in_single. reflexivity.
  - intros H. apply in_flat_map in H. destruct H as [z [H1 H2]].
    rewrite (IHr2 k z y), (IHr1 k x z); auto;
      intros Hin; apply Hk; apply in_app_iff; auto.
  - intros H. apply in_app_iff in H.
    destruct H; [apply IHr1|apply IHr2]; auto;
      intros Hin; apply Hk; apply in_app_iff; auto.
  - apply RepeatMatcher_frame; auto.
  - intros H. apply in_map_iff in H. destruct H as [z [<- H]]. cbn [caps].
    rewrite cap_get_set_other; [apply IHr; auto|]; intros E; apply Hk; simpl; auto.
  - pose proof (IHr k x) as IH. destruct (m fl r x) as [|z l]; destruct negative;
      in_single; try reflexivity.
    simpl. apply IH; [exact Hk|left; reflexivity].
  - destruct (before x) as [|c l]; [|destruct (multiline fl && isLineTerminator c)];
      in_single; reflexivity.
  - destruct (after x) as [|c l]; [|destruct (multiline fl && isLineTerminator c)];
      in_single; reflexivity.
  - destruct (xorb negative _); in_single; reflexivity.
Qed.

Lemma RepeatMatcher_defs body parens greedy D :
  (forall x y, In y (body x) -> defined D (caps y)) ->
  forall fuel min max x y,
    In y (RepeatMatcher body parens greedy fuel min max x) ->
    defined D (caps x) \/ (min <> 0 /\ max <> Some 0) ->
    defined D (caps y).
Proof.
  intros Hbody. induction fuel as [|fuel IH]; intros min max x y; simpl.
  - intros [].
  - set (xr := {| before := before x; after := after x;
                  caps := cap_clear parens (caps x) |}).
    assert (Hagain :
      In y (flat_map
              (fun y0 =>
                 if Nat.eqb min 0 && Nat.eqb (endIndex y0) (endIndex x) then []
                 else RepeatMatcher body parens greedy fuel (pred min)
                                    (dec_max max) y0)
              (body xr)) -> defined D (caps y)).
    { intros H. apply in_flat_map in H. destruct H as [y0 [H0 H1]].
      destruct (Nat.eqb min 0 && Nat.eqb (endIndex y0) (endIndex x));
        [destruct H1|].
      apply IH in H1; [exact H1|]. left. eapply Hbody. exact H0. }
    assert (Hself : min = 0 \/ max = Some 0 -> In y [x] ->
                    defined D (caps x) \/ (min <> 0 /\ max <> Some 0) ->
                    defined D (caps y)).
    { intros Hm [<-|[]] [H|[H1 H2]]; [exact H|]. destruct Hm; contradiction. }
    destruct max as [[|j]|]; [apply Hself; auto| |];
      (destruct (Nat.eqb min 0) eqn:Em;
       [apply Nat.eqb_eq in Em|apply Nat.eqb_neq in Em]; cbn [negb];
       [destruct greedy; intros H Hd;
        [apply in_app_iff in H; destruct H as [H|H]; [auto|apply Hself; auto]
        |destruct H as [<-|H]; [apply (Hself (or_introl Em)); simpl; auto|auto]]
       |intros H _; auto]).
Qed.

(** The groups of [defs] are defined in every result. *)
Lemma m_defs fl r : forall x y, In y (m fl r x) -> defined (defs r) (caps y).
Proof.
  induction r; intros x y; cbn [m defs]; try (intros _ k Hk; destruct Hk; fail).
  - intros H k Hk. apply in_flat_map in H. destruct H as [z [H1 H2]].
    apply in_app_iff in Hk. destruct Hk as [Hk|Hk].
    + apply filter_In in Hk. destruct Hk as [Hk Hn].
      apply negb_true_iff, existsb_eqb_notIn in Hn.
      rewrite (m_frame fl r2 k z y Hn H2). exact (IHr1 x z H1 k Hk).
    + exact (IHr2 z y H2 k Hk).
  - intros H k Hk. apply filter_In in Hk. destruct Hk as [Hk1 Hk2].
    apply existsb_eqb_In in Hk2. apply in_app_iff in H. destruct H as [H|H].
    + exact (IHr1 x y H k Hk1).
    + exact (IHr2 x y H k Hk2).
  - intros H. destruct min as [|min']; [intros k []|].
    destruct max as [[|j]|]; try (intros k Hk; destruct Hk; fail);
      (eapply RepeatMatcher_defs; [exact IHr|exact H|]);
      right; split; discriminate.
  - intros H k Hk. apply in_map_iff in H. destruct H as [z [<- H]]. cbn [caps].
    destruct (Nat.eq_dec n k) as [->|Hn].
    + rewrite cap_get_set_same. discriminate.
    + rewrite cap_get_set_other by exact Hn.
      destruct Hk as [Hk|Hk]; [contradiction|]. exact (IHr x z H k Hk).
  - pose proof (IHr x) as IH.
    destruct (m fl r x) as [|z l]; destruct negative;
      try (intros Hy; destruct Hy; fail);
      try (intros _ k Hk; destruct Hk; fail).
    intros [<-|[]]. cbn [caps]. apply IH. left. reflexivity.
Qed.

Lemma scan_defs fl r bef aft start y :
  scan fl r bef aft = Some (start, y) -> defined (defs r) (caps y).
Proof.
  intros H. apply scan_found in H. destruct H as [a1 [a2 [_ [_ [[l E] _]]]]].
  apply (m_defs fl r (mk (rev a1 ++ bef) a2 [])). rewrite E. left. reflexivity.
Qed.

Lemma zloop_defs fl r : forall fuel bef aft found,
  In found (zloop fuel fl r bef aft) -> defined (defs r) (caps (snd found)).
Proof.
  induction fuel as [|fuel IH]; intros bef aft found; simpl; [intros []|].
  destruct (scan fl r bef aft) as [[start y]|] eqn:E; [|intros []].
  intros [<-|H].
  - simpl. eapply scan_defs. exact E.
  - destruct (Nat.eqb (endIndex y) start).
    + destruct (after y); [destruct H|]. eapply IH. exact H.
    + eapply IH. exact H.
Qed.

(* ================================================================== *)
(** * The matcher on sequences, literal text and single-character loops *)
(* ================================================================== *)

Lemma flat_map_singleton {A : Type} (l : list A) : flat_map (fun y => [y]) l = l.
Proof. induction l as [|a l IH]; simpl; [reflexivity|]. rewrite IH. reflexivity. Qed.

Lemma flat_map_flat_map {A B C : Type} (f : A -> list B) (g : B -> list C) l :
  flat_map g (flat_map f l) = flat_map (fun a => flat_map g (f a)) l.
Proof.
  induction l as [|a l IH]; simpl; [reflexivity|].
  rewrite flat_map_app, IH. reflexivity.
Qed.

Lemma state_eta x : mk (before x) (after x) (caps x) = x.
Proof. destruct x. reflexivity. Qed.

Lemma m_seq_cons fl r rs x :
  m fl (seq (r :: rs)) x = flat_map (m fl (seq rs)) (m fl r x).
Proof.
  destruct rs as [|r' rs]; [|reflexivity].
  simpl. symmetry. apply flat_map_singleton.
Qed.

Lemma m_seq_app fl rs1 rs2 x :
  m fl (seq (rs1 ++ rs2)) x = flat_map (m fl (seq rs2)) (m fl (seq rs1) x).
Proof.
  revert x. induction rs1 as [|r rs1 IH]; intros x.
  - simpl. rewrite app_nil_r. reflexivity.
  - rewrite <- app_comm_cons, !m_seq_cons, flat_map_flat_map.
    apply flat_map_ext. intros y. apply IH.
Qed.

Lemma m_chars fl w rs : forall x,
  m fl (seq (map Char w ++ rs)) x =
  match lit_prefix fl w (after x) with
  | Some (consumed, rest) =>
      m fl (seq rs) (mk (rev consumed ++ before x) rest (caps x))
  | None => []
  end.
Proof.
  induction w as [|c w IH]; intros x.
  - simpl. rewrite state_eta. reflexivity.
  - cbn [map app]. rewrite m_seq_cons. cbn [m lit_prefix]. unfold step.
    destruct (after x) as [|a s]; [reflexivity|].
    destruct (char_match fl c a); [|reflexivity].
    cbn [flat_map]. rewrite app_nil_r, IH. cbn [after before caps].
    destruct (lit_prefix fl w s) as [[consumed rest]|]; [|reflexivity].
    cbn [rev]. rewrite <- app_assoc. reflexivity.
Qed.

Lemma single_step fl r P :
  single fl r = Some P -> groups r = [] /\ forall x, m fl r x = step x P.
Proof.
  destruct r; simpl; try discriminate; intros H; injection H as <-;
    split; reflexivity.
Qed.

Lemma step_mk P bef aft cs :
  step (mk bef aft cs) P =
  match aft with
  | a :: rest => if P a then [mk (a :: bef) rest cs] else []
  | [] => []
  end.
Proof. reflexivity. Qed.

Lemma RepeatMatcher_greedy_star body P :
  (forall x, body x = step x P) ->
  forall aft bef cs fuel,
    length aft < fuel ->
    RepeatMatcher body [] true fuel 0 None (mk bef aft cs) =
    greedy_states P bef aft cs.
Proof.
  intros Hb. induction aft as [|c aft IH]; intros bef cs fuel Hf;
    (destruct fuel as [|fuel]; [inversion Hf|]);
    cbn [RepeatMatcher greedy_states]; cbn [before after caps mk Nat.eqb negb];
    rewrite cap_clear_nil; rewrite Hb; unfold step; cbn [after before caps].
  - reflexivity.
  - destruct (P c); [|reflexivity].
    cbn [flat_map andb endIndex before length mk].
    assert (E : Nat.eqb (S (length bef)) (length bef) = false)
      by (apply Nat.eqb_neq; lia).
    rewrite E, app_nil_r. cbn [pred dec_max].
    fold (mk (c :: bef) aft cs). rewrite IH by (simpl in Hf; lia). reflexivity.
Qed.


Lemma m_star fl r P x :
  single fl r = Some P ->
  m fl (star r) x = greedy_states P (before x) (after x) (caps x).
Proof.
  intros H. apply single_step in H. destruct H as [Hg Hs].
  unfold star. cbn [m]. rewrite Hg. destruct x as [bef aft cs].
  apply (RepeatMatcher_greedy_star (m fl r) P Hs). simpl. lia.
Qed.


Lemma RepeatMatcher_greedy_plus body P :
  (forall x, body x = step x P) ->
  forall aft bef cs fuel,
    length aft < fuel ->
    RepeatMatcher body [] true (S fuel) 1 None (mk bef aft cs) =
    match aft with
    | c :: aft' => if P c then greedy_states P (c :: bef) aft' cs else []
    | [] => []
    end.
Proof.
  intros Hb aft bef cs fuel Hf. cbn [RepeatMatcher].
  cbn [before after caps mk Nat.eqb negb andb pred dec_max].
  rewrite cap_clear_nil, Hb. unfold step. cbn [after].
  destruct aft as [|c aft]; [reflexivity|].
  destruct (P c); [|reflexivity]. cbn [flat_map before caps].
  rewrite app_nil_r. fold (mk (c :: bef) aft cs).
  apply (RepeatMatcher_greedy_star body P Hb). simpl in Hf. lia.
Qed.

Lemma m_plus fl r P x :
  single fl r = Some P ->
  m fl (plus r) x =
  match after x with
  | c :: aft' =>
      if P c then greedy_states P (c :: before x) aft' (caps x) else []
  | [] => []
  end.
Proof.
  intros H. apply single_step in H. destruct H as [Hg Hs].
  unfold plus. cbn [m]. rewrite Hg. destruct x as [bef aft cs].
  cbn [after before caps].
  apply (RepeatMatcher_greedy_plus (m fl r) P Hs aft bef cs
                                   (fuel := 1 + length aft)).
  lia.
Qed.

(** [r?]: one round of [r] that moves, or nothing. *)
Lemma m_opt fl r x :
  m fl (opt r) x =
  filter (fun y => negb (Nat.eqb (endIndex y) (endIndex x)))
         (m fl r (mk (before x) (after x) (cap_clear (groups r) (caps x))))
  ++ [x].
Proof.
  unfold opt. cbn [m RepeatMatcher Nat.add Nat.eqb negb andb dec_max pred].
  f_equal. unfold mk.
  set (xr := {| before := before x; after := after x;
                caps := cap_clear (groups r) (caps x) |}).
  assert (H : forall y, In y (m fl r xr) -> extends x y).
  { intros y Hy. apply m_extends in Hy. destruct Hy as [w [A B]].
    exists w. exact (conj A B). }
  induction (m fl r xr) as [|y l IH]; simpl; [reflexivity|].
  rewrite IH by (intros z Hz; apply H; right; exact Hz).
  destruct (Nat.eqb (endIndex y) (endIndex x)) eqn:E; simpl; [reflexivity|].
  apply Nat.eqb_neq in E.
  destruct (extends_length (H y (or_introl eq_refl))) as [_ [_ Hlt]].
  specialize (Hlt E). destruct (length (after x)); [lia|]. reflexivity.
Qed.

(* ================================================================== *)
(** * The first result *)
(* ================================================================== *)

Lemma first_flat_map {A B : Type} (f : A -> list B) l a y :
  first_is l a -> first_is (f a) y -> first_is (flat_map f l) y.
Proof.
  intros [l1 ->] [l2 E]. simpl. rewrite E. eexists. reflexivity.
Qed.

Lemma first_map {A B : Type} (f : A -> B) l a :
  first_is l a -> first_is (map f l) (f a).
Proof. intros [l1 ->]. simpl. eexists. reflexivity. Qed.

Lemma first_app {A : Type} (l1 l2 : list A) a :
  first_is l1 a -> first_is (l1 ++ l2) a.
Proof. intros [l ->]. simpl. eexists. reflexivity. Qed.

Lemma first_seq_cons fl r rs x y z :
  first_is (m fl r x) y -> first_is (m fl (seq rs) y) z ->
  first_is (m fl (seq (r :: rs)) x) z.
Proof. rewrite m_seq_cons. apply first_flat_map. Qed.

Lemma first_seq_nil fl x : first_is (m fl (seq []) x) x.
Proof. exists []. reflexivity. Qed.

Lemma first_Seq fl r1 r2 x y z :
  first_is (m fl r1 x) y -> first_is (m fl r2 y) z ->
  first_is (m fl (Seq r1 r2) x) z.
Proof. cbn [m]. apply first_flat_map. Qed.

Lemma first_Char fl c a bef rest cs :
  char_match fl c a = true ->
  first_is (m fl (Char c) (mk bef (a :: rest) cs)) (mk (a :: bef) rest cs).
Proof.
  intros H. cbn [m]. unfold step, mk. cbn [after]. rewrite H.
  eexists. reflexivity.
Qed.

Lemma first_greedy P : forall w rest bef cs,
  forallb P w = true -> stops P rest ->
  first_is (greedy_states P bef (w ++ rest) cs) (mk (rev w ++ bef) rest cs).
Proof.
  induction w as [|c w IH]; intros rest bef cs Hw Hr.
  - simpl. destruct rest as [|a rest]; simpl.
    + eexists. reflexivity.
    + simpl in Hr. rewrite Hr. eexists. reflexivity.
  - simpl in Hw. apply andb_true_iff in Hw. destruct Hw as [Hc Hw].
    cbn [app greedy_states]. rewrite Hc. apply first_app.
    cbn [rev]. rewrite <- app_assoc. apply (IH rest (c :: bef) cs Hw Hr).
Qed.

Lemma first_star fl r P w rest bef cs :
  single fl r = Some P -> forallb P w = true -> stops P rest ->
  first_is (m fl (star r) (mk bef (w ++ rest) cs)) (mk (rev w ++ bef) rest cs).
Proof.
  intros Hs Hw Hr. rewrite (m_star fl r (mk bef (w ++ rest) cs) Hs).
  apply first_greedy; assumption.
Qed.

Lemma first_plus fl r P w rest bef cs :
  single fl r = Some P -> w <> [] -> forallb P w = true -> stops P rest ->
  first_is (m fl (plus r) (mk bef (w ++ rest) cs)) (mk (rev w ++ bef) rest cs).
Proof.
  intros Hs Hne Hw Hr. rewrite (m_plus fl r (mk bef (w ++ rest) cs) Hs).
  destruct w as [|c w]; [contradiction|]. cbn [mk after before caps app].
  simpl in Hw. apply andb_true_iff in Hw. destruct Hw as [Hc Hw]. rewrite Hc.
  cbn [rev]. rewrite <- app_assoc. apply first_greedy; assumption.
Qed.

Lemma rev_firstn_consumed (w bef : jsstring) :
  rev (firstn (length (rev w ++ bef) - length bef) (rev w ++ bef)) = w.
Proof.
  rewrite length_app, Nat.add_sub, firstn_app, firstn_all, Nat.sub_diag.
  simpl. rewrite app_nil_r. apply rev_involutive.
Qed.

Lemma first_Group fl n r w bef aft rest cs cs' :
  first_is (m fl r (mk bef aft cs)) (mk (rev w ++ bef) rest cs') ->
  first_is (m fl (Group n r) (mk bef aft cs))
           (mk (rev w ++ bef) rest (cap_set n w cs')).
Proof.
  intros [l E]. cbn [m]. rewrite E. cbn [map]. exists (map
    (fun y => {| before := before y; after := after y;
                 caps := cap_set n
                           (rev (firstn (endIndex y - endIndex (mk bef aft cs))
                                        (before y)))
                           (caps y) |}) l).
  f_equal. unfold mk, endIndex. cbn [before after caps].
  rewrite rev_firstn_consumed. reflexivity.
Qed.

(** The search stops where the matcher first has a result. *)
Lemma scan_first fl r bef aft y :
  first_is (m fl r (mk bef aft [])) y -> scan fl r bef aft = Some (length bef, y).
Proof.
  intros [l E]. destruct aft; simpl; unfold mk in E; rewrite E; reflexivity.
Qed.

Lemma scan_next fl r bef c aft :
  m fl r (mk bef (c :: aft) []) = [] ->
  scan fl r bef (c :: aft) = scan fl r (c :: bef) aft.
Proof. intros E. simpl. unfold mk in E. rewrite E. reflexivity. Qed.

Lemma scan_end fl r bef :
  m fl r (mk bef [] []) = [] -> scan fl r bef [] = None.
Proof. intros E. simpl. unfold mk in E. rewrite E. reflexivity. Qed.

Lemma first_filter {A : Type} (p : A -> bool) l a :
  first_is l a -> p a = true -> first_is (filter p l) a.
Proof. intros [l' ->] H. simpl. rewrite H. eexists. reflexivity. Qed.

Lemma first_opt_taken fl r x y :
  first_is (m fl r (mk (before x) (after x) (cap_clear (groups r) (caps x)))) y ->
  endIndex y <> endIndex x ->
  first_is (m fl (opt r) x) y.
Proof.
  intros H Hne. rewrite m_opt. apply first_app. apply first_filter; [exact H|].
  apply negb_true_iff, Nat.eqb_neq. exact Hne.
Qed.

Lemma first_opt_skipped fl r x :
  m fl r (mk (before x) (after x) (cap_clear (groups r) (caps x))) = [] ->
  first_is (m fl (opt r) x) x.
Proof. intros H. rewrite m_opt, H. simpl. eexists. reflexivity. Qed.

Lemma first_chars fl w rs bef aft cs consumed rest z :
  lit_prefix fl w aft = Some (consumed, rest) ->
  first_is (m fl (seq rs) (mk (rev consumed ++ bef) rest cs)) z ->
  first_is (m fl (seq (map Char w ++ rs)) (mk bef aft cs)) z.
Proof.
  intros E H. rewrite m_chars. cbn [mk after before caps]. rewrite E. exact H.
Qed.

Lemma m_Char_fails fl c bef aft cs :
  match aft with
  | a :: _ => char_match fl c a = false
  | [] => True
  end ->
  m fl (Char c) (mk bef aft cs) = [].
Proof.
  intros H. cbn [m]. unfold step, mk. cbn [after].
  destruct aft as [|a aft]; [reflexivity|]. rewrite H. reflexivity.
Qed.

Lemma m_Seq_fails fl r1 r2 x : m fl r1 x = [] -> m fl (Seq r1 r2) x = [].
Proof. intros H. cbn [m]. rewrite H. reflexivity. Qed.

(* ================================================================== *)
(** * Anchored patterns and runs *)
(* ================================================================== *)

Lemma m_Bol_fails fl rs c bef aft cs :
  multiline fl && isLineTerminator c = false ->
  m fl (seq (Bol :: rs)) (mk (c :: bef) aft cs) = [].
Proof.
  intros H. rewrite m_seq_cons. cbn [m mk before]. rewrite H. reflexivity.
Qed.

Lemma m_Bol_start fl rs bef aft cs :
  multiline fl = true -> lineStart bef ->
  m fl (seq (Bol :: rs)) (mk bef aft cs) = m fl (seq rs) (mk bef aft cs).
Proof.
  intros Hm Hs. rewrite m_seq_cons. cbn [m mk before].
  destruct bef as [|c bef]; simpl in Hs.
  - simpl. apply app_nil_r.
  - subst c. rewrite Hm. simpl. apply app_nil_r.
Qed.

Lemma scan_anchored_fails fl rs :
  multiline fl = false ->
  forall aft c bef, scan fl (seq (Bol :: rs)) (c :: bef) aft = None.
Proof.
  intros Hm. induction aft as [|a aft IH]; intros c bef.
  - apply scan_end. apply m_Bol_fails. rewrite Hm. reflexivity.
  - rewrite scan_next; [apply IH|]. apply m_Bol_fails. rewrite Hm. reflexivity.
Qed.


Lemma span_spec P : forall s a r,
  span P s = (a, r) -> s = a ++ r /\ forallb P a = true /\ stops P r.
Proof.
  induction s as [|c s IH]; intros a r; simpl.
  - intros H. injection H as <- <-. repeat split.
  - destruct (P c) eqn:E.
    + destruct (span P s) as [a' r'] eqn:Es. intros H. injection H as <- <-.
      destruct (IH a' r' eq_refl) as [-> [Ha Hr]].
      simpl. rewrite E, Ha. repeat split. exact Hr.
    + intros H. injection H as <- <-. repeat split. exact E.
Qed.

Lemma span_all P s : forallb P s = true <-> snd (span P s) = [].
Proof.
  induction s as [|c s IH]; simpl; [tauto|].
  destruct (P c); simpl.
  - destruct (span P s) as [a r]. simpl in *. exact IH.
  - split; discriminate.
Qed.

(** When what follows fails in front of a [P] character, only the end of the
    run is left of a greedy loop. *)
Lemma greedy_only_last {B : Type} P (f : state -> list B) :
  (forall bef c aft cs, P c = true -> f (mk bef (c :: aft) cs) = []) ->
  forall w rest bef cs,
    forallb P w = true -> stops P rest ->
    flat_map f (greedy_states P bef (w ++ rest) cs) =
    f (mk (rev w ++ bef) rest cs).
Proof.
  intros Hf. induction w as [|c w IH]; intros rest bef cs Hw Hr.
  - cbn [app rev]. destruct rest as [|a rest]; cbn [greedy_states].
    + simpl. apply app_nil_r.
    + unfold stops in Hr. rewrite Hr. simpl. apply app_nil_r.
  - simpl in Hw. apply andb_true_iff in Hw. destruct Hw as [Hc Hw].
    cbn [app greedy_states]. rewrite Hc, flat_map_app.
    rewrite (IH rest (c :: bef) cs Hw Hr). cbn [flat_map].
    rewrite (Hf bef c (w ++ rest) cs Hc). cbn [rev].
    rewrite <- app_assoc, !app_nil_r. reflexivity.
Qed.

Lemma plus_only_last {B : Type} fl r P (f : state -> list B) :
  single fl r = Some P ->
  (forall bef c aft cs, P c = true -> f (mk bef (c :: aft) cs) = []) ->
  forall w rest bef cs,
    forallb P w = true -> stops P rest ->
    flat_map f (m fl (plus r) (mk bef (w ++ rest) cs)) =
    match w with
    | [] => []
    | _ :: _ => f (mk (rev w ++ bef) rest cs)
    end.
Proof.
  intros Hs Hf w rest bef cs Hw Hr.
  rewrite (m_plus fl r (mk bef (w ++ rest) cs) Hs). cbn [mk after before caps].
  destruct w as [|c w].
  - cbn [app]. destruct rest as [|a rest]; [reflexivity|].
    unfold stops in Hr. rewrite Hr. reflexivity.
  - simpl in Hw. apply andb_true_iff in Hw. destruct Hw as [Hc Hw].
    cbn [app]. rewrite Hc. rewrite (greedy_only_last P f Hf w rest (c :: bef) cs Hw Hr).
    cbn [rev]. rewrite <- app_assoc. reflexivity.
Qed.

Lemma m_Eol_plain fl bef aft cs :
  multiline fl = false ->
  m fl Eol (mk bef aft cs) =
  match aft with
  | [] => [mk bef [] cs]
  | _ :: _ => []
  end.
Proof.
  intros Hm. cbn [m mk after]. destruct aft; [reflexivity|].
  rewrite Hm. reflexivity.
Qed.

(** A pattern anchored at the start of the input is tried at index 0 only. *)
Lemma test_anchored rs s :
  test (literal (seq (Bol :: rs)) false false false) s =
  succeeds (m {| ignoreCase := false; multiline := false; global := false |}
              (seq rs) (mk [] s [])).
Proof.
  unfold succeeds.
  rewrite test_scan.
  set (fl := {| ignoreCase := false; multiline := false; global := false |}).
  assert (E : m fl (seq (Bol :: rs)) (mk [] s []) = m fl (seq rs) (mk [] s [])).
  { rewrite m_seq_cons. cbn [m mk before flat_map]. apply app_nil_r. }
  destruct (m fl (seq rs) (mk [] s [])) as [|y l] eqn:Em.
  - destruct s as [|c s].
    + rewrite scan_end by exact E. reflexivity.
    + rewrite scan_next by exact E.
      rewrite (scan_anchored_fails fl rs eq_refl s c []). reflexivity.
  - rewrite (@scan_first fl (seq (Bol :: rs)) [] s y); [reflexivity|].
    exists l. exact E.
Qed.

Lemma span_ext P Q s : (forall c, P c = Q c) -> span P s = span Q s.
Proof.
  intros E. induction s as [|c s IH]; simpl; [reflexivity|].
  rewrite E, IH. reflexivity.
Qed.

Lemma forallb_ext' {A : Type} (P Q : A -> bool) l :
  (forall c, P c = Q c) -> forallb P l = forallb Q l.
Proof.
  intros E. induction l as [|c l IH]; simpl; [reflexivity|].
  rewrite E, IH. reflexivity.
Qed.

(** A run of [P] characters up to the end of the input: [P+$]. *)
Lemma m_plus_Eol fl r P bef s cs :
  multiline fl = false -> single fl r = Some P ->
  m fl (seq [plus r; Eol]) (mk bef s cs) =
  if nonempty s && forallb P s then [mk (rev s ++ bef) [] cs] else [].
Proof.
  intros Hm Hs. rewrite m_seq_cons. cbn [seq].
  destruct (span P s) as [a rest] eqn:Esp.
  destruct (span_spec P s Esp) as [-> [Ha Hr]].
  rewrite (plus_only_last fl r (m fl Eol) Hs) by
    (auto; intros b c aft cs' _; apply (m_Eol_plain fl b (c :: aft) cs' Hm)).
  pose proof (span_all P (a ++ rest)) as Hall. rewrite Esp in Hall. simpl in Hall.
  destruct rest as [|d rest].
  - rewrite app_nil_r in *. destruct a as [|c a]; [reflexivity|].
    rewrite m_Eol_plain by exact Hm. cbn [nonempty andb]. rewrite Ha. reflexivity.
  - assert (Hf : forallb P (a ++ d :: rest) = false).
    { destruct (forallb P (a ++ d :: rest)); [|reflexivity].
      destruct Hall as [Hall _]. discriminate (Hall eq_refl). }
    rewrite Hf, andb_false_r. destruct a; [reflexivity|].
    apply m_Eol_plain. exact Hm.
Qed.

(* ================================================================== *)
(** * Searching for a pattern that begins with literal text *)
(* ================================================================== *)

Lemma lit_prefix_exact fl w : forall s consumed rest,
  lit_prefix fl w s = Some (consumed, rest) ->
  s = consumed ++ rest /\ length consumed = length w.
Proof.
  induction w as [|c w IH]; intros s consumed rest; simpl.
  - intros H. injection H as <- <-. split; reflexivity.
  - destruct s as [|a s]; [discriminate|].
    destruct (char_match fl c a); [|discriminate].
    destruct (lit_prefix fl w s) as [[cons' rest']|] eqn:E; [|discriminate].
    intros H. injection H as <- <-. destruct (IH _ _ _ E) as [-> Hl].
    split; [reflexivity|simpl; rewrite Hl; reflexivity].
Qed.

Lemma lit_prefix_startsWith fl w :
  ignoreCase fl = false ->
  forall s,
    lit_prefix fl w s =
    if startsWith s w then Some (firstn (length w) s, skipn (length w) s)
    else None.
Proof.
  intros Hi. induction w as [|c w IH]; intros s.
  - destruct s; reflexivity.
  - destruct s as [|a s]; [reflexivity|].
    cbn [lit_prefix startsWith length firstn skipn].
    unfold char_match, char_eqb. rewrite Hi.
    destruct (N.eqb c a); [|reflexivity]. cbn [andb]. rewrite IH.
    destruct (startsWith s w); reflexivity.
Qed.

(** A literal text that holds no line break does not run over the end of a
    line. *)
Lemma lit_prefix_line fl w :
  (forall c, In c w -> char_match fl c LF = false) ->
  forall l tail,
    lineTail tail ->
    lit_prefix fl w (l ++ tail) =
    match lit_prefix fl w l with
    | Some (consumed, rest) => Some (consumed, rest ++ tail)
    | None => None
    end.
Proof.
  induction w as [|c w IH]; intros Hw l tail Ht; [reflexivity|].
  destruct l as [|a l].
  - simpl. destruct Ht as [->|[rest ->]]; [reflexivity|].
    rewrite (Hw c (or_introl eq_refl)). reflexivity.
  - simpl. destruct (char_match fl c a); [|reflexivity].
    rewrite IH by (auto; intros d Hd; apply Hw; right; exact Hd).
    destruct (lit_prefix fl w l) as [[consumed rest]|]; reflexivity.
Qed.

Lemma existsb_split {A : Type} (P : A -> bool) : forall l,
  existsb (fun c => negb (P c)) l = true ->
  exists w d rest, l = w ++ d :: rest /\ forallb P w = true /\ P d = false.
Proof.
  induction l as [|c l IH]; simpl; [discriminate|].
  destruct (P c) eqn:E; simpl.
  - intros H. destruct (IH H) as [w [d [rest [-> [Hw Hd]]]]].
    exists (c :: w), d, rest. simpl. rewrite E, Hw. auto.
  - intros _. exists [], c, l. auto.
Qed.


Lemma m_lit_fails fl w rs bef aft cs :
  lit_prefix fl w aft = None ->
  m fl (seq (map Char w ++ rs)) (mk bef aft cs) = [].
Proof. intros H. rewrite m_chars. cbn [mk after]. rewrite H. reflexivity. Qed.

(** The text before the first character the pattern can begin with is
    skipped. *)
Lemma scan_skip_first fl c0 w rs : forall pre bef aft,
  forallb (fun a => negb (char_match fl c0 a)) pre = true ->
  scan fl (seq (map Char (c0 :: w) ++ rs)) bef (pre ++ aft) =
  scan fl (seq (map Char (c0 :: w) ++ rs)) (rev pre ++ bef) aft.
Proof.
  induction pre as [|a pre IH]; intros bef aft H; [reflexivity|].
  simpl in H. apply andb_true_iff in H. destruct H as [Ha Hp].
  apply negb_true_iff in Ha. cbn [app].
  rewrite scan_next.
  - rewrite (IH (a :: bef) aft Hp). cbn [rev]. rewrite <- app_assoc. reflexivity.
  - apply m_lit_fails. cbn [lit_prefix]. rewrite Ha. reflexivity.
Qed.

(** Where the literal text does not occur the pattern is not found. *)
Lemma scan_no_occurrence fl w rs :
  ignoreCase fl = false -> w <> [] ->
  forall s bef,
    includes s w = false ->
    scan fl (seq (map Char w ++ rs)) bef s = None.
Proof.
  intros Hi Hw. induction s as [|a s IH]; intros bef H.
  - apply scan_end. apply m_lit_fails. destruct w; [contradiction|reflexivity].
  - rewrite includes_unfold in H. apply orb_false_iff in H. destruct H as [H1 H2].
    rewrite scan_next; [apply IH; exact H2|].
    apply m_lit_fails. rewrite (@lit_prefix_startsWith fl w Hi (a :: s)), H1.
    reflexivity.
Qed.

(** A literal text whose first character does not come back in it cannot
    begin before its first occurrence. *)
Lemma startsWith_overrun c0 t : forall p v,
  startsWith (p ++ c0 :: t) v = true -> without c0 v = true ->
  startsWith p v = true.
Proof.
  induction p as [|a p IH]; intros [|x v] H Hw; try reflexivity.
  - cbn [app startsWith] in H. apply andb_true_iff in H. destruct H as [H _].
    unfold char_eqb in H. apply N.eqb_eq in H. subst x.
    unfold without in Hw. cbn [forallb] in Hw. rewrite N.eqb_refl in Hw.
    discriminate Hw.
  - cbn [app startsWith] in *. apply andb_true_iff in H. destruct H as [H1 H2].
    rewrite H1. cbn [andb]. apply IH; [exact H2|].
    unfold without in *. cbn [forallb] in Hw. apply andb_true_iff in Hw.
    apply Hw.
Qed.

Lemma scan_skip_prefix fl c0 w rs :
  ignoreCase fl = false -> without c0 w = true ->
  forall pre bef aft,
    includes pre (c0 :: w) = false ->
    scan fl (seq (map Char (c0 :: w) ++ rs)) bef (pre ++ c0 :: w ++ aft) =
    scan fl (seq (map Char (c0 :: w) ++ rs)) (rev pre ++ bef) (c0 :: w ++ aft).
Proof.
  intros Hi Hw. induction pre as [|a pre IH]; intros bef aft H; [reflexivity|].
  rewrite includes_unfold in H. apply orb_false_iff in H. destruct H as [H1 H2].
  cbn [app]. rewrite scan_next.
  - rewrite (IH (a :: bef) aft H2). cbn [rev]. rewrite <- app_assoc. reflexivity.
  - apply m_lit_fails.
    rewrite (@lit_prefix_startsWith fl (c0 :: w) Hi (a :: pre ++ c0 :: w ++ aft)).
    destruct (startsWith (a :: pre ++ c0 :: w ++ aft) (c0 :: w)) eqn:E;
      [|reflexivity].
    cbn [startsWith] in E, H1. apply andb_true_iff in E. destruct E as [E1 E2].
    rewrite E1 in H1. cbn [andb] in H1.
    rewrite (startsWith_overrun c0 (w ++ aft) pre w E2 Hw) in H1.
    discriminate H1.
Qed.

(** A pattern that fails wherever a property of the remaining input holds
    is found nowhere in an input that has the property. *)
Lemma scan_never fl r (Q : jsstring -> Prop) :
  (forall c s, Q (c :: s) -> Q s) ->
  (forall bef s, Q s -> m fl r (mk bef s []) = []) ->
  forall s bef, Q s -> scan fl r bef s = None.
Proof.
  intros Hq Hm. induction s as [|c s IH]; intros bef H.
  - apply scan_end. apply Hm. exact H.
  - rewrite scan_next; [|apply Hm; exact H]. apply IH. exact (Hq c s H).
Qed.

Lemma zloop_none fl r bef aft fuel :
  scan fl r bef aft = None -> zloop fuel fl r bef aft = [].
Proof. intros E. destruct fuel; [reflexivity|]. simpl. rewrite E. reflexivity. Qed.

Lemma allMatches_zloop r mflag content :
  allMatches r mflag content =
  map mk_result
      (zloop (length content + 2)
             {| ignoreCase := false; multiline := mflag; global := true |}
             r [] content).
Proof.
  exact (exec_loop_zloop (literal r false true mflag) eq_refl
                         (length content + 2) [] content).
Qed.

Lemma allMatches_none r mflag content :
  scan {| ignoreCase := false; multiline := mflag; global := true |}
       r [] content = None ->
  allMatches r mflag content = [].
Proof.
  intros E. rewrite allMatches_zloop.
  rewrite (@zloop_none _ _ _ _ (length content + 2) E). reflexivity.
Qed.

Lemma allMatches_one r mflag content start y :
  scan {| ignoreCase := false; multiline := mflag; global := true |}
       r [] content = Some (start, y) ->
  endIndex y <> start ->
  scan {| ignoreCase := false; multiline := mflag; global := true |}
       r (before y) (after y) = None ->
  allMatches r mflag content = [mk_result (start, y)].
Proof.
  intros E Hne E2. rewrite allMatches_zloop.
  replace (length content + 2) with (S (S (length content))) by lia.
  cbn [zloop]. rewrite E. apply Nat.eqb_neq in Hne. rewrite Hne, E2.
  reflexivity.
Qed.

Lemma jseq_eq a : forall b, jseq a b = true -> a = b.
Proof.
  induction a as [|x a IH]; intros [|y b]; simpl; try discriminate; auto.
  unfold char_eqb. intros H. apply andb_true_iff in H. destruct H as [H1 H2].
  apply N.eqb_eq in H1. subst y. f_equal. auto.
Qed.

Lemma jseq_refl a : jseq a a = true.
Proof.
  induction a as [|x a IH]; simpl; [reflexivity|].
  unfold char_eqb. rewrite N.eqb_refl, IH. reflexivity.
Qed.

(* ================================================================== *)
(** * The patterns, as the constructor reads their text *)
(* ================================================================== *)

(** Each pattern of the program, written out above as a syntax tree, is what
    the parser makes of the text of the literal. *)
Example packageRegex_text :
  Pattern.parse ([DQ] ++ str "([^" ++ [DQ] ++ str "]+)" ++ [DQ] ++ str ":\s*" ++ [DQ] ++ str "([^" ++ [DQ] ++ str "]+)" ++ [DQ]) = Normal Re.packageRegex.
Proof. vm_compute. reflexivity. Qed.

Example requirementRegex_text :
  Pattern.parse (str "^([^=><~\s]+)\s*((?:[<>=~]{1,2}|\^)?\s*[0-9][^;\s]*" ++ str ")?") = Normal Re.requirementRegex.
Proof. vm_compute. reflexivity. Qed.

Example gemRegex_text :
  Pattern.parse (str "gem\s+['" ++ [DQ] ++ str "]([^'" ++ [DQ] ++ str "]+)['" ++ [DQ] ++ str "]\s*,\s*['" ++ [DQ] ++ str "]([^'" ++ [DQ] ++ str "]+)['" ++ [DQ] ++ str "]") = Normal Re.gemRegex.
Proof. vm_compute. reflexivity. Qed.

Example gradleRegex_text :
  Pattern.parse (str "([^:]+):([^:]+):([^'\s]+)") = Normal Re.gradleRegex.
Proof. vm_compute. reflexivity. Qed.

Example mavenRegex_text :
  Pattern.parse (str "<version>([^<]+)<\/version>") = Normal Re.mavenRegex.
Proof. vm_compute. reflexivity. Qed.

Example k8sImageRegex_text :
  Pattern.parse (str "image:\s*([^:\s]+)(?::([^\s]+))?") = Normal Re.k8sImageRegex.
Proof. vm_compute. reflexivity. Qed.

Example composeImageRegex_text :
  Pattern.parse (str "image:\s*['" ++ [DQ] ++ str "]?([^:\s'" ++ [DQ] ++ str "]+)(?::([^\s'" ++ [DQ] ++ str "]+))?['" ++ [DQ] ++ str "]?") = Normal Re.composeImageRegex.
Proof. vm_compute. reflexivity. Qed.

Example leadingPlus_text :
  Pattern.parse (str "^\+") = Normal Re.leadingPlus.
Proof. vm_compute. reflexivity. Qed.

Example fromLineRegex_text :
  Pattern.parse (str "^FROM\s+[^\n]+") = Normal Re.fromLineRegex.
Proof. vm_compute. reflexivity. Qed.

Example fromRegex_text :
  Pattern.parse (str "FROM\s+([^:\s]+)(?::([^\s]+))?") = Normal Re.fromRegex.
Proof. vm_compute. reflexivity. Qed.

Example integerRegex_text :
  Pattern.parse (str "^\d+$") = Normal Re.integerRegex.
Proof. vm_compute. reflexivity. Qed.

Example majorMinorRegex_text :
  Pattern.parse (str "^\d+\.\d+$") = Normal Re.majorMinorRegex.
Proof. vm_compute. reflexivity. Qed.

Example alphaRegex_text :
  Pattern.parse (str "^[a-zA-Z]+$") = Normal Re.alphaRegex.
Proof. vm_compute. reflexivity. Qed.

Example actionRegex_text :
  Pattern.parse (str "uses:\s+([^@]+)@([^\s]+)") = Normal Re.actionRegex.
Proof. vm_compute. reflexivity. Qed.

Example semverRegex_text :
  Pattern.parse (str "^v\d+\.\d+\.\d+$") = Normal Re.semverRegex.
Proof. vm_compute. reflexivity. Qed.

Example wrapperRegex_text :
  Pattern.parse (str "DO\s*\$\$\s*BEGIN[\s\S]*END\s*\$\$") = Normal Re.wrapperRegex.
Proof. vm_compute. reflexivity. Qed.

Example blockRegex_text :
  Pattern.parse (str "BEGIN([\s\S]*?)END") = Normal Re.blockRegex.
Proof. vm_compute. reflexivity. Qed.

Example createTableRegex_text :
  Pattern.parse (str "CREATE\s+TABLE\s+(?!.*?IF\s+NOT\s+EXISTS)(\w+)") = Normal Re.createTableRegex.
Proof. vm_compute. reflexivity. Qed.

Example alterTableRegex_text :
  Pattern.parse (str "ALTER\s+TABLE\s+(?!.*?IF\s+(?:NOT\s+)?EXISTS)(\w+)") = Normal Re.alterTableRegex.
Proof. vm_compute. reflexivity. Qed.

Example insertIntoRegex_text :
  Pattern.parse (str "INSERT\s+INTO\s+(?!.*?(?:WHERE|IF)\s+NOT\s+EXISTS)(\w+)") = Normal Re.insertIntoRegex.
Proof. vm_compute. reflexivity. Qed.

Example dropTableRegex_text :
  Pattern.parse (str "DROP\s+TABLE\s+(?!.*?IF\s+EXISTS)(\w+)") = Normal Re.dropTableRegex.
Proof. vm_compute. reflexivity. Qed.

Example ifCheckRegex_text :
  Pattern.parse (str "IF\s+(?:NOT\s+)?EXISTS") = Normal Re.ifCheckRegex.
Proof. vm_compute. reflexivity. Qed.

Example migrationFileRegex_text :
  Pattern.parse (str "\.(sql|migration)$") = Normal Re.migrationFileRegex.
Proof. vm_compute. reflexivity. Qed.

(* ================================================================== *)
(** * The matchers: one warning per failing match *)
(* ================================================================== *)

Lemma for_of_map_filter {A : Type} (l : list A) body
      (fails : A -> bool) (message : A -> jsstring) :
  (forall a issues,
      In a l ->
      body a issues = Normal (if fails a then push issues (message a) else issues)) ->
  forall issues,
    for_of l body issues = Normal (issues ++ map message (filter fails l)).
Proof.
  induction l as [|a l IH]; intros Hb issues; simpl.
  - rewrite app_nil_r. reflexivity.
  - rewrite (Hb a issues (or_introl eq_refl)). simpl.
    rewrite IH by (intros b acc Hin; apply Hb; right; exact Hin).
    destruct (fails a); simpl; [|reflexivity].
    unfold push. rewrite <- app_assoc. reflexivity.
Qed.

Lemma for_of_flat_map {A : Type} (l : list A) body (out : A -> list jsstring) :
  (forall a issues, In a l -> body a issues = Normal (issues ++ out a)) ->
  forall issues, for_of l body issues = Normal (issues ++ flat_map out l).
Proof.
  induction l as [|a l IH]; intros Hb issues; simpl.
  - rewrite app_nil_r. reflexivity.
  - rewrite (Hb a issues (or_introl eq_refl)). simpl.
    rewrite IH by (intros b acc Hin; apply Hb; right; exact Hin).
    rewrite <- app_assoc. reflexivity.
Qed.

Lemma for_of_map_filter_nil {A : Type} (l : list A) body
      (fails : A -> bool) (message : A -> jsstring) :
  (forall a issues,
      In a l ->
      body a issues = Normal (if fails a then push issues (message a) else issues)) ->
  for_of l body [] = Normal (map message (filter fails l)).
Proof. intros H. apply (for_of_map_filter l body fails message H []). Qed.

Lemma for_of_flat_map_nil {A : Type} (l : list A) body (out : A -> list jsstring) :
  (forall a issues, In a l -> body a issues = Normal (issues ++ out a)) ->
  for_of l body [] = Normal (flat_map out l).
Proof. intros H. apply (for_of_flat_map l body out H []). Qed.

Lemma allMatches_defs r mflag content mr k :
  In mr (allMatches r mflag content) -> In k (defs r) ->
  exists v, group k mr = Some v.
Proof.
  unfold allMatches. intros Hin Hk.
  assert (E : exec_loop (length content + 2) (literal r false true mflag) content
              = map mk_result
                    (zloop (length content + 2)
                           {| ignoreCase := false; multiline := mflag;
                              global := true |} r [] content)).
  { exact (exec_loop_zloop (literal r false true mflag) eq_refl
                           (length content + 2) [] content). }
  rewrite E in Hin. clear E.
  apply in_map_iff in Hin. destruct Hin as [[start y] [<- Hin]].
  apply zloop_defs in Hin. specialize (Hin k Hk). simpl in Hin.
  destruct k as [|k]; simpl.
  - eexists. reflexivity.
  - destruct (cap_get (S k) (caps y)) as [v|]; [exists v; reflexivity|].
    contradiction.
Qed.

Lemma matchAll_allMatches r mflag content :
  matchAll content (literal r false true mflag) =
  Normal (allMatches r mflag content).
Proof. reflexivity. Qed.

Ltac group_defined Hin k :=
  let v := fresh "v" in
  let E := fresh "E" in
  destruct (@allMatches_defs _ _ _ _ k Hin) as [v E];
  [cbv; tauto|unfold captured; rewrite !E; cbn [receiver interp bind strict_eq]].

Ltac by_cond :=
  match goal with
  | |- (if ?b then _ else _) = _ => destruct b; reflexivity
  end.

Lemma validateNodePackage_matches content :
  validateNodePackage content =
  Normal (map (fun mr => nodeMessage (captured 1 mr) (captured 2 mr))
              (filter nodeFails (allMatches Re.packageRegex false content))).
Proof.
  unfold validateNodePackage. rewrite matchAll_allMatches. cbn [bind].
  apply (for_of_map_filter_nil _ _ nodeFails). intros mr issues Hin.
  unfold nodeFails. group_defined Hin 2. by_cond.
Qed.

Lemma validateRubyPackage_matches content :
  validateRubyPackage content =
  Normal (map (fun mr => rubyMessage (captured 1 mr) (captured 2 mr))
              (filter rubyFails (allMatches Re.gemRegex false content))).
Proof.
  unfold validateRubyPackage. rewrite matchAll_allMatches. cbn [bind].
  apply (for_of_map_filter_nil _ _ rubyFails). intros mr issues Hin.
  unfold rubyFails. group_defined Hin 2. by_cond.
Qed.

Lemma validatePythonPackage_matches content :
  validatePythonPackage content =
  Normal (map (fun mr => pythonMessage (captured 1 mr)
                           (or_else (group 2 mr) (str "unspecified")))
              (filter pythonFails (allMatches Re.requirementRegex true content))).
Proof.
  unfold validatePythonPackage. rewrite matchAll_allMatches. cbn [bind].
  apply (for_of_map_filter_nil _ _ pythonFails). intros mr issues Hin.
  unfold pythonFails, captured. destruct (group 2 mr) as [[|c v]|]; try reflexivity.
  cbn [truthy negb orb interp or_else]. by_cond.
Qed.

Lemma validateJavaPackage_matches content :
  validateJavaPackage content =
  Normal (map (fun mr => gradleMessage (captured 1 mr) (captured 2 mr)
                                       (captured 3 mr))
              (filter gradleFails (allMatches Re.gradleRegex false content))
          ++ map (fun mr => mavenMessage (captured 1 mr))
                 (filter mavenFails (allMatches Re.mavenRegex false content))).
Proof.
  unfold validateJavaPackage. rewrite !matchAll_allMatches. cbn [bind].
  rewrite (for_of_map_filter_nil _ _ gradleFails
             (fun mr => gradleMessage (captured 1 mr) (captured 2 mr)
                                      (captured 3 mr))).
  - cbn [bind app]. apply (for_of_map_filter _ _ mavenFails).
    intros mr issues Hin. unfold mavenFails. group_defined Hin 1. by_cond.
  - intros mr issues Hin. unfold gradleFails. group_defined Hin 3. by_cond.
Qed.

Lemma validateKubernetesManifest_matches content :
  validateKubernetesManifest content =
  Normal (map (fun mr => kubernetesMessage (captured 1 mr)
                           (or_else (group 2 mr) (str "latest")))
              (filter imageFails (allMatches Re.k8sImageRegex false content))).
Proof.
  unfold validateKubernetesManifest. rewrite matchAll_allMatches. cbn [bind].
  apply (for_of_map_filter_nil _ _ imageFails). intros mr issues Hin.
  unfold imageFails. by_cond.
Qed.

Lemma validateDockerCompose_matches content :
  validateDockerCompose content =
  Normal (map (fun mr => composeMessage (captured 1 mr)
                           (or_else (group 2 mr) (str "latest")))
              (filter imageFails (allMatches Re.composeImageRegex false content))).
Proof.
  unfold validateDockerCompose. rewrite matchAll_allMatches. cbn [bind].
  apply (for_of_map_filter_nil _ _ imageFails). intros mr issues Hin.
  unfold imageFails. by_cond.
Qed.

Lemma validateGitHubActions_matches diff :
  validateGitHubActions diff =
  Normal (map (fun mr => actionMessage (captured 1 mr) (captured 2 mr))
              (filter actionFails (allMatches Re.actionRegex false diff))).
Proof.
  unfold validateGitHubActions. rewrite matchAll_allMatches. cbn [bind].
  apply (for_of_map_filter_nil _ _ actionFails). intros mr issues Hin.
  unfold actionFails. group_defined Hin 2. by_cond.
Qed.

Lemma validateDockerfile_lines content :
  validateDockerfile content =
  Normal (flat_map fromLineWarning (fromLines (stripPlus content))).
Proof.
  unfold validateDockerfile, fromLines, match_global.
  change (set_lastIndex (literal Re.fromLineRegex false true true) 0)
    with (literal Re.fromLineRegex false true true).
  set (ms := exec_loop _ _ _).
  match goal with
  | |- for_of _ ?b [] = _ =>
      transitivity (for_of (map matched ms) b []); [destruct ms; reflexivity|]
  end.
  apply (for_of_flat_map_nil _ _ fromLineWarning).
  intros fromLine issues _. unfold fromLineWarning.
  destruct (match_first fromLine _) as [mr|]; [|rewrite app_nil_r; reflexivity].
  destruct (negb (truthy (group 2 mr))); [reflexivity|].
  destruct (floatingTag (group 2 mr)); [reflexivity|].
  rewrite app_nil_r. reflexivity.
Qed.
(* ================================================================== *)
(** * The dispatcher: skipped files, determinism *)
(* ================================================================== *)

Lemma analyzeFile_skipped g file issues :
  skipped file -> analyzeFile g file issues = Normal issues.
Proof.
  intros [H|[H|H]]; unfold analyzeFile; rewrite H; reflexivity.
Qed.

(** C8. A file without a destination path, or whose destination is
    [/dev/null], adds nothing: wherever it stands in the diff and whatever
    its chunks hold, the analysis is that of the diff without it, and no
    validator and no migration check sees it. *)
Theorem analyzeCode_skips_deleted :
  forall (before_ after_ : list File) (file : File) (g : Globals),
    skipped file ->
    analyzeCode (before_ ++ file :: after_) g = analyzeCode (before_ ++ after_) g.
Proof.
  intros bf af file g H. unfold analyzeCode. f_equal.
  rewrite !for_of_app. destruct (for_of bf (analyzeFile g) []) as [mid|e]; simpl.
  - rewrite (analyzeFile_skipped g mid H). reflexivity.
  - reflexivity.
Qed.

Lemma bind_assoc {A B C} (c : completion A) (f : A -> completion B)
      (h : B -> completion C) :
  bind (bind c f) h = bind c (fun a => bind (f a) h).
Proof. destruct c; reflexivity. Qed.

Lemma bind_Normal_r {A} (c : completion A) : bind c Normal = c.
Proof. destruct c; reflexivity. Qed.





(* ================================================================== *)
(** * What the dispatcher can emit *)
(* ================================================================== *)

Ltac body_cases H :=
  repeat match type of H with
         | bind ?c _ = Normal _ => destruct c eqn:?; simpl in H; [|discriminate H]
         | (if ?b then _ else _) = Normal _ => destruct b eqn:?
         | match ?o with Some _ => _ | None => _ end = Normal _ => destruct o eqn:?
         | Normal _ = Normal _ => injection H as H; subst
         end.

Ltac no_action_loop :=
  match goal with
  | H : for_of _ _ ?acc = Normal ?out |- Forall notAction ?out =>
      eapply for_of_Forall; [| |exact H]; [|auto];
      let a := fresh "a" in
      let issues := fresh "issues" in
      let issues' := fresh "issues'" in
      let HP := fresh "HP" in
      let Hb := fresh "Hb" in
      intros a issues issues' HP Hb; cbv beta in Hb; body_cases Hb;
      try assumption; apply Forall_push; auto; reflexivity
  end.

Lemma validateNodePackage_notAction content out :
  validateNodePackage content = Normal out -> Forall notAction out.
Proof.
  unfold validateNodePackage. intros H. body_cases H. no_action_loop.
Qed.

Lemma validatePythonPackage_notAction content out :
  validatePythonPackage content = Normal out -> Forall notAction out.
Proof.
  unfold validatePythonPackage. intros H. body_cases H. no_action_loop.
Qed.

Lemma validateRubyPackage_notAction content out :
  validateRubyPackage content = Normal out -> Forall notAction out.
Proof.
  unfold validateRubyPackage. intros H. body_cases H. no_action_loop.
Qed.

Lemma validateJavaPackage_notAction content out :
  validateJavaPackage content = Normal out -> Forall notAction out.
Proof.
  unfold validateJavaPackage, matchAll. cbn [literal reflags global bind].
  intros H.
  match type of H with
  | bind ?c _ = _ => destruct c as [mid|] eqn:E3; [|discriminate]
  end.
  cbn [bind] in H.
  assert (Forall notAction mid) by no_action_loop.
  no_action_loop.
Qed.

Lemma validateKubernetesManifest_notAction content out :
  validateKubernetesManifest content = Normal out -> Forall notAction out.
Proof.
  unfold validateKubernetesManifest. intros H. body_cases H. no_action_loop.
Qed.

Lemma validateDockerCompose_notAction content out :
  validateDockerCompose content = Normal out -> Forall notAction out.
Proof.
  unfold validateDockerCompose. intros H. body_cases H. no_action_loop.
Qed.

Lemma validateDockerfile_notAction content out :
  validateDockerfile content = Normal out -> Forall notAction out.
Proof.
  unfold validateDockerfile. intros H. no_action_loop.
Qed.

Lemma validateDatabaseMigration_eq content :
  validateDatabaseMigration content =
  Normal (if hasProperWrapper (stripPlus content)
          then structuralWarnings (blockContent (stripPlus content))
          else [wrapperMessage]).
Proof.
  unfold validateDatabaseMigration, structuralWarnings.
  destruct (hasProperWrapper (stripPlus content)); [|reflexivity].
  cbn [negb]. set (block := blockContent (stripPlus content)).
  unfold riskyPatterns. cbn [for_of flat_map fst snd].
  destruct (hasIfCheck block); cbn [negb andb];
    repeat match goal with
           | |- context [test ?p block] => destruct (test p block)
           end; reflexivity.
Qed.

Lemma structuralWarnings_notAction block :
  Forall notAction (structuralWarnings block).
Proof.
  unfold structuralWarnings, riskyPatterns. cbn [flat_map fst snd].
  repeat match goal with
         | |- context [if ?b then _ else _] => destruct b
         end; repeat constructor.
Qed.

Lemma validateDatabaseMigration_notAction content out :
  validateDatabaseMigration content = Normal out -> Forall notAction out.
Proof.
  rewrite validateDatabaseMigration_eq. intros H. injection H as <-.
  destruct (hasProperWrapper (stripPlus content)).
  - apply structuralWarnings_notAction.
  - repeat constructor.
Qed.

Lemma runValidators_Forall (P : jsstring -> Prop) vs path content :
  (forall v out, In v vs -> validate v content = Normal out -> Forall P out) ->
  forall issues out,
    Forall P issues -> runValidators vs path content issues = Normal out ->
    Forall P out.
Proof.
  unfold runValidators. induction vs as [|v vs IH]; intros Hv issues out HP; simpl.
  - intros H. injection H as <-. exact HP.
  - destruct (selects v path) as [[|]|e]; simpl; try discriminate.
    + destruct (validate v content) as [found|e] eqn:E; simpl; try discriminate.
      apply IH.
      * intros v' o Hin. apply Hv. right. exact Hin.
      * apply Forall_app. split; [exact HP|].
        eapply Hv; [left; reflexivity|exact E].
    + apply IH; [|exact HP]. intros v' o Hin. apply Hv. right. exact Hin.
Qed.

Lemma analyzeFile_notAction file issues out :
  Forall notAction issues ->
  analyzeFile module_globals file issues = Normal out ->
  Forall notAction out.
Proof.
  intros HP. unfold analyzeFile.
  destruct (to file) as [[|c path]|];
    try (intros H; injection H as <-; exact HP).
  set (p := c :: path). cbv beta iota.
  destruct (jseq p (str "/dev/null"));
    try (intros H; injection H as <-; exact HP).
  destruct (runValidators (Object_values (PACKAGE_VALIDATORS module_globals))
                          p (diffContent file) issues) as [i1|e] eqn:E1;
    cbn [bind]; try discriminate.
  destruct (runValidators (Object_values (CONTAINER_VALIDATORS module_globals))
                          p (diffContent file) i1) as [i2|e] eqn:E2;
    cbn [bind]; try discriminate.
  assert (H1 : Forall notAction i1).
  { eapply runValidators_Forall; [|exact HP|exact E1].
    intros v o Hin Hv. simpl in Hin.
    destruct Hin as [<-|[<-|[<-|[<-|[]]]]]; simpl in Hv.
    - eapply validateNodePackage_notAction; eauto.
    - eapply validatePythonPackage_notAction; eauto.
    - eapply validateRubyPackage_notAction; eauto.
    - eapply validateJavaPackage_notAction; eauto. }
  assert (H2 : Forall notAction i2).
  { eapply runValidators_Forall; [|exact H1|exact E2].
    intros v o Hin Hv. simpl in Hin.
    destruct Hin as [<-|[<-|[<-|[]]]]; simpl in Hv.
    - eapply validateDockerfile_notAction; eauto.
    - eapply validateKubernetesManifest_notAction; eauto.
    - eapply validateDockerCompose_notAction; eauto. }
  destruct (isMigrationPath p).
  - destruct (validateDatabaseMigration (diffContent file)) as [found|e] eqn:E3;
      cbn [bind]; try discriminate.
    intros H. inversion H; subst. apply Forall_app. split; [exact H2|].
    eapply validateDatabaseMigration_notAction; eauto.
  - intros H. inversion H; subst. exact H2.
Qed.

(** C10. Whatever the parsed diff, no issue of the analysis is a warning of
    the [uses:] matcher: the two registries hold seven validators, none of
    them [validateGitHubActions], and the loop body calls nothing else but
    the migration checker. *)
Theorem analyzeCode_never_action_warning :
  forall (parsedDiff : list File) (issues : list jsstring) (w : jsstring),
    fst (analyzeCode parsedDiff module_globals) = Normal issues ->
    In w issues ->
    isActionWarning w = false.
Proof.
  intros d issues w H Hin. unfold analyzeCode in H. simpl in H.
  assert (HF : Forall notAction issues).
  { eapply for_of_Forall; [| |exact H]; [|constructor].
    intros f acc acc' HP Hf. eapply analyzeFile_notAction; eauto. }
  rewrite Forall_forall in HF. apply HF. exact Hin.
Qed.

Example workflow_uses_matcher :
  validateGitHubActions workflowBlob =
  Normal [actionMessage (str "actions/checkout") (str "main")].
Proof. vm_compute. reflexivity. Qed.

Example workflow_analysis :
  fst (analyzeCode [workflowFile] module_globals) =
  Normal [kubernetesMessage (str "nginx") (str "latest");
          composeMessage (str "nginx") (str "latest")].
Proof. vm_compute. reflexivity. Qed.

Lemma analyzeCode_never_action_warning_witness :
  isActionWarning (kubernetesMessage (str "nginx") (str "latest")) = false.
Proof.
  apply (analyzeCode_never_action_warning [workflowFile]
           (issues := [kubernetesMessage (str "nginx") (str "latest");
                       composeMessage (str "nginx") (str "latest")])).
  - vm_compute. reflexivity.
  - simpl. left. reflexivity.
Defined.

Lemma analyzeCode_skips_deleted_witness :
  skipped deletedFile /\
  analyzeCode ([workflowFile] ++ deletedFile :: []) module_globals =
  analyzeCode ([workflowFile] ++ []) module_globals.
Proof.
  assert (H : skipped deletedFile) by (right; right; reflexivity).
  split; [exact H|].
  apply (analyzeCode_skips_deleted [workflowFile] [] module_globals H).
Defined.
(* ================================================================== *)
(** * The node matcher *)
(* ================================================================== *)

Lemma zloop_single fl r bef aft start y fuel :
  scan fl r bef aft = Some (start, y) ->
  endIndex y <> start ->
  scan fl r (before y) (after y) = None ->
  zloop (S (S fuel)) fl r bef aft = [(start, y)].
Proof.
  intros E Hne E2. cbn [zloop]. rewrite E.
  apply Nat.eqb_neq in Hne. rewrite Hne, E2. reflexivity.
Qed.

Lemma matched_whole fl r s y :
  scan fl r [] s = Some (0, y) -> after y = [] ->
  matched (mk_result (0, y)) = s.
Proof.
  intros E Ha. apply scan_whole in E. destruct E as [E _].
  rewrite Ha, app_nil_r in E. simpl in E. simpl.
  rewrite Nat.sub_0_r. unfold endIndex. rewrite firstn_all. exact E.
Qed.

Lemma quoteFree_class s :
  quoteFree s = true ->
  forallb (class_match nodeFlags true [CChar DQ]) s = true.
Proof.
  unfold quoteFree. intros H. rewrite forallb_forall in *. intros c Hc.
  specialize (H c Hc). unfold class_match, set_mem. simpl.
  rewrite orb_false_r. exact H.
Qed.

Lemma spaces_class fl s :
  ignoreCase fl = false ->
  forallb isSpace s = true -> forallb (class_match fl false [CSpace]) s = true.
Proof.
  intros Hi H. rewrite forallb_forall in *. intros c Hc.
  specialize (H c Hc). unfold class_match, set_mem. rewrite Hi. simpl.
  rewrite orb_false_r. exact H.
Qed.

Lemma pair_first name spaces version :
  name <> [] -> version <> [] ->
  quoteFree name = true -> quoteFree version = true ->
  forallb isSpace spaces = true ->
  first_is (m nodeFlags Re.packageRegex (mk [] (pairBlob name spaces version) []))
           (mk (rev (pairBlob name spaces version)) []
               (cap_set 2 version (cap_set 1 name []))).
Proof.
  intros Hn Hv Qn Qv Hs. unfold Re.packageRegex, pairBlob.
  eapply first_seq_cons; [apply first_Char; reflexivity|].
  eapply first_seq_cons.
  { apply (first_Group nodeFlags 1 _ name).
    apply (first_plus nodeFlags _ (P := class_match nodeFlags true [CChar DQ]));
      [reflexivity|exact Hn|apply quoteFree_class; exact Qn|reflexivity]. }
  eapply first_seq_cons; [apply first_Char; reflexivity|].
  eapply first_seq_cons; [apply first_Char; reflexivity|].
  eapply first_seq_cons.
  { apply (first_star nodeFlags _ (P := class_match nodeFlags false [CSpace])
                      spaces);
      [reflexivity|apply spaces_class; [reflexivity|exact Hs]|reflexivity]. }
  eapply first_seq_cons; [apply first_Char; reflexivity|].
  eapply first_seq_cons.
  { apply (first_Group nodeFlags 2 _ version).
    exact (@first_plus nodeFlags (not_of [CChar DQ])
             (class_match nodeFlags true [CChar DQ]) version [DQ]
             (DQ :: rev spaces ++ ch ":" :: DQ :: rev name ++ [DQ])
             (cap_set 1 name []) eq_refl Hv (quoteFree_class version Qv)
             eq_refl). }
  eapply first_seq_cons; [apply first_Char; reflexivity|].
  assert (E : rev (DQ :: name ++ DQ :: ch ":" :: spaces ++ DQ :: version ++ [DQ])
              = DQ :: rev version ++ DQ :: rev spaces ++ ch ":" :: DQ
                   :: rev name ++ [DQ]).
  { cbn [rev]. rewrite rev_app_distr. cbn [rev]. rewrite rev_app_distr.
    cbn [rev]. rewrite rev_app_distr. cbn [rev app].
    rewrite <- !app_assoc. reflexivity. }
  rewrite E. apply first_seq_nil.
Qed.

Lemma pair_matches name spaces version :
  name <> [] -> version <> [] ->
  quoteFree name = true -> quoteFree version = true ->
  forallb isSpace spaces = true ->
  exists mr,
    allMatches Re.packageRegex false (pairBlob name spaces version) = [mr] /\
    matched mr = pairBlob name spaces version /\
    group 1 mr = Some name /\ group 2 mr = Some version.
Proof.
  intros Hn Hv Qn Qv Hs.
  set (blob := pairBlob name spaces version).
  set (y := mk (rev blob) [] (cap_set 2 version (cap_set 1 name []))).
  assert (E : scan nodeFlags Re.packageRegex [] blob = Some (0, y)).
  { apply (scan_first nodeFlags Re.packageRegex [] blob).
    apply pair_first; assumption. }
  exists (mk_result (0, y)). split; [|split; [|split]].
  - unfold allMatches.
    assert (Z : exec_loop (length blob + 2)
                          (literal Re.packageRegex false true false) blob
                = map mk_result
                      (zloop (length blob + 2) nodeFlags Re.packageRegex [] blob)).
    { exact (exec_loop_zloop (literal Re.packageRegex false true false) eq_refl
                             (length blob + 2) [] blob). }
    rewrite Z. replace (length blob + 2) with (S (S (length blob))) by lia.
    rewrite (zloop_single nodeFlags Re.packageRegex [] blob (length blob) E).
    + reflexivity.
    + unfold y, endIndex, mk, blob, pairBlob. cbn [before]. rewrite length_rev.
      simpl. discriminate.
    + reflexivity.
  - apply (matched_whole nodeFlags Re.packageRegex blob E). reflexivity.
  - reflexivity.
  - reflexivity.
Qed.

(** X1. The node matcher emits one warning for each match of its pattern
    whose version starts with a caret or a tilde or is the star, naming the
    captured name and version, and nothing else; a blob that is one quoted
    name, a colon, white space and a quoted version is one match, so it
    yields that one warning when the version floats and none otherwise. *)
Theorem node_matcher_flags_floating_versions :
  forall (content name spaces version : jsstring),
    name <> [] -> version <> [] ->
    quoteFree name = true -> quoteFree version = true ->
    forallb isSpace spaces = true ->
    validateNodePackage content =
      Normal (map (fun mr => nodeMessage (captured 1 mr) (captured 2 mr))
                  (filter (fun mr => floatingVersion (captured 2 mr))
                          (allMatches Re.packageRegex false content))) /\
    validateNodePackage (pairBlob name spaces version) =
      Normal (if floatingVersion version
              then [nodeMessage name version] else []) /\
    includes (nodeMessage name version) name = true /\
    includes (nodeMessage name version) version = true.
Proof.
  intros content name spaces version Hn Hv Qn Qv Hs.
  split; [apply validateNodePackage_matches|]. split.
  - rewrite validateNodePackage_matches.
    destruct (pair_matches spaces Hn Hv Qn Qv Hs) as [mr [E [_ [G1 G2]]]].
    rewrite E. cbn [filter]. unfold nodeFails, captured. rewrite G2.
    cbn [interp]. unfold floatingVersion.
    destruct (startsWith version (str "^") || startsWith version (str "~")
              || jseq version (str "*")); [|reflexivity].
    cbn [map]. unfold captured. rewrite G1, G2. reflexivity.
  - split; unfold nodeMessage; spliced.
Qed.

Lemma node_matcher_flags_floating_versions_witness :
  validateNodePackage (pairBlob (str "pkg") (str " ") (str "^1.0.0")) =
    Normal [nodeMessage (str "pkg") (str "^1.0.0")] /\
  validateNodePackage (pairBlob (str "pkg") (str " ") (str "1.0.0")) = Normal [].
Proof.
  split.
  - exact (proj1 (proj2 (@node_matcher_flags_floating_versions
             [] (str "pkg") (str " ") (str "^1.0.0")
             ltac:(discriminate) ltac:(discriminate) eq_refl eq_refl eq_refl))).
  - exact (proj1 (proj2 (@node_matcher_flags_floating_versions
             [] (str "pkg") (str " ") (str "1.0.0")
             ltac:(discriminate) ltac:(discriminate) eq_refl eq_refl eq_refl))).
Defined.
(* ================================================================== *)
(** * The Dockerfile matcher, line by line *)
(* ================================================================== *)

(** [/^\+/] takes a plus sign off the front of a line. *)
Lemma replace_leadingPlus line :
  replace line (literal Re.leadingPlus false false false) [] = stripLine line.
Proof.
  unfold replace. rewrite exec_first by reflexivity. cbn [fst literal reflags source].
  set (fl := {| ignoreCase := false; multiline := false; global := false |}).
  change Re.leadingPlus with (seq [Bol; Char PLUS]).
  destruct line as [|c rest]; [reflexivity|].
  destruct (N.eqb c PLUS) eqn:E.
  - apply N.eqb_eq in E. subst c. reflexivity.
  - assert (Em : m fl (seq [Bol; Char PLUS]) (mk [] (c :: rest) []) = []).
    { cbn [seq m mk before flat_map app]. unfold step, char_match.
      cbn [after mk ignoreCase fl]. rewrite N.eqb_sym, E. reflexivity. }
    rewrite (scan_next fl _ [] c rest Em).
    rewrite (scan_anchored_fails fl [Char PLUS] eq_refl rest c []).
    simpl. rewrite E. reflexivity.
Qed.

Lemma stripPlus_lines content :
  stripPlus content = join [LF] (cleanLines content).
Proof.
  unfold stripPlus, cleanLines. f_equal. apply map_ext. intros line.
  apply replace_leadingPlus.
Qed.

Lemma fromLineRegex_shape :
  Re.fromLineRegex =
  seq (Bol :: map Char (str "FROM")
           ++ [plus ws; plus (not_of [CChar LF])]).
Proof. reflexivity. Qed.

Lemma FROM_no_break c :
  In c (str "FROM") -> char_match lineFlags c LF = false.
Proof.
  simpl. intros [<-|[<-|[<-|[<-|[]]]]]; reflexivity.
Qed.

Lemma ws_class c : class_match lineFlags false [CSpace] c = isSpace c.
Proof. unfold class_match, set_mem. simpl. apply orb_false_r. Qed.

Lemma notLF_class c :
  class_match lineFlags true [CChar LF] c = negb (N.eqb LF c).
Proof. unfold class_match, set_mem. simpl. rewrite orb_false_r. reflexivity. Qed.

Lemma lineTail_stops_ws tail d rest :
  isSpace d = false ->
  stops (class_match lineFlags false [CSpace]) (d :: rest ++ tail).
Proof. intros H. unfold stops. rewrite ws_class. exact H. Qed.

Lemma lineTail_stops_notLF tail :
  lineTail tail -> stops (class_match lineFlags true [CChar LF]) tail.
Proof.
  intros [->|[rest ->]]; unfold stops; [exact I|].
  rewrite notLF_class. reflexivity.
Qed.

Lemma noBreak_notLF l :
  forallb (fun c => negb (isLineTerminator c)) l = true ->
  forallb (class_match lineFlags true [CChar LF]) l = true.
Proof.
  intros H. rewrite forallb_forall in *. intros c Hc. specialize (H c Hc).
  rewrite notLF_class. unfold isLineTerminator in H.
  rewrite !negb_orb in H. repeat (apply andb_true_iff in H; destruct H as [H ?]).
  rewrite N.eqb_sym. exact H.
Qed.

(** At the start of a line that is not a [FROM] line the pattern fails. *)
Lemma fromLine_no_match bef l tail :
  lineStart bef -> lineTail tail -> lineOk l = true -> isFromLine l = false ->
  m lineFlags Re.fromLineRegex (mk bef (l ++ tail) []) = [].
Proof.
  intros Hs Ht Hok Hno. rewrite fromLineRegex_shape.
  rewrite m_Bol_start by (auto; reflexivity).
  rewrite m_chars. cbn [mk after before caps].
  rewrite (@lit_prefix_line lineFlags (str "FROM") FROM_no_break l tail Ht).
  rewrite (@lit_prefix_startsWith lineFlags (str "FROM") eq_refl l).
  unfold isFromLine in Hno. unfold lineOk in Hok.
  apply andb_true_iff in Hok. destruct Hok as [_ Hok].
  destruct (startsWith l (str "FROM")); [|reflexivity].
  cbn [negb orb andb] in Hok, Hno. cbn [length str].
  rewrite m_seq_cons.
  rewrite (m_plus lineFlags ws (P := class_match lineFlags false [CSpace]))
    by reflexivity.
  cbn [mk after before caps].
  destruct (skipn 4 l) as [|c r]; [discriminate Hok|].
  cbn [app]. rewrite ws_class, Hno. reflexivity.
Qed.

(** At the start of a [FROM] line the pattern takes the line, and no more. *)
Lemma fromLine_match bef l tail :
  lineStart bef -> lineTail tail -> lineOk l = true -> isFromLine l = true ->
  first_is (m lineFlags Re.fromLineRegex (mk bef (l ++ tail) []))
           (mk (rev l ++ bef) tail []).
Proof.
  intros Hs Ht Hok Hyes. rewrite fromLineRegex_shape.
  rewrite m_Bol_start by (auto; reflexivity).
  rewrite m_chars. cbn [mk after before caps].
  rewrite (@lit_prefix_line lineFlags (str "FROM") FROM_no_break l tail Ht).
  rewrite (@lit_prefix_startsWith lineFlags (str "FROM") eq_refl l).
  unfold isFromLine in Hyes. unfold lineOk in Hok.
  apply andb_true_iff in Hok. destruct Hok as [Hnb Hok].
  destruct (startsWith l (str "FROM")); [|discriminate Hyes].
  cbn [negb orb andb] in Hok, Hyes. cbn [length str].
  assert (El : l = firstn 4 l ++ skipn 4 l) by (symmetry; apply firstn_skipn).
  remember (firstn 4 l) as a eqn:Ea. remember (skipn 4 l) as r eqn:Er0.
  clear Ea Er0.
  apply existsb_split in Hok. destruct Hok as [w [d [rest [Er [Hw Hd]]]]].
  subst r. subst l.
  assert (Hwne : w <> []).
  { intros ->. simpl in Hyes. rewrite Hd in Hyes. discriminate. }
  assert (Hnl : forallb (class_match lineFlags true [CChar LF]) (d :: rest) = true).
  { apply noBreak_notLF. rewrite !forallb_app in Hnb.
    apply andb_true_iff in Hnb. destruct Hnb as [_ Hnb].
    apply andb_true_iff in Hnb. destruct Hnb as [_ Hnb]. exact Hnb. }
  assert (Hws : forallb (class_match lineFlags false [CSpace]) w = true).
  { rewrite forallb_forall in *. intros c Hc. rewrite ws_class. auto. }
  rewrite <- app_assoc. cbn [app].
  eapply first_seq_cons.
  { exact (@first_plus lineFlags ws (class_match lineFlags false [CSpace])
             w (d :: rest ++ tail) (rev a ++ bef) []
             eq_refl Hwne Hws (lineTail_stops_ws tail d rest Hd)). }
  eapply first_seq_cons.
  { exact (@first_plus lineFlags (not_of [CChar LF])
             (class_match lineFlags true [CChar LF])
             (d :: rest) tail (rev w ++ rev a ++ bef) []
             eq_refl ltac:(discriminate) Hnl (lineTail_stops_notLF Ht)). }
  replace (rev (a ++ w ++ d :: rest) ++ bef)
    with (rev (d :: rest) ++ rev w ++ rev a ++ bef).
  - apply first_seq_nil.
  - rewrite !rev_app_distr. rewrite <- !app_assoc. reflexivity.
Qed.

Lemma fromLine_inside c bef aft :
  isLineTerminator c = false ->
  m lineFlags Re.fromLineRegex (mk (c :: bef) aft []) = [].
Proof.
  intros H. rewrite fromLineRegex_shape. apply m_Bol_fails.
  rewrite H. reflexivity.
Qed.

(** From inside a line the search moves on to the next line. *)
Lemma scan_inside : forall w c bef tail,
  isLineTerminator c = false ->
  forallb (fun a => negb (isLineTerminator a)) w = true ->
  scan lineFlags Re.fromLineRegex (c :: bef) (w ++ tail) =
  match tail with
  | [] => None
  | t :: tail' => scan lineFlags Re.fromLineRegex (t :: rev w ++ c :: bef) tail'
  end.
Proof.
  induction w as [|d w IH]; intros c bef tail Hc Hw.
  - cbn [app rev]. destruct tail as [|t tail'].
    + apply scan_end. apply fromLine_inside. exact Hc.
    + apply scan_next. apply fromLine_inside. exact Hc.
  - simpl in Hw. apply andb_true_iff in Hw. destruct Hw as [Hd Hw].
    apply negb_true_iff in Hd. cbn [app].
    rewrite scan_next by (apply fromLine_inside; exact Hc).
    rewrite (IH d (c :: bef) tail Hd Hw). cbn [rev].
    rewrite <- app_assoc. reflexivity.
Qed.

(** From the start of a line that is not a [FROM] line as well. *)
Lemma scan_skip_line bef l tail :
  lineStart bef -> lineTail tail -> lineOk l = true -> isFromLine l = false ->
  scan lineFlags Re.fromLineRegex bef (l ++ tail) =
  match tail with
  | [] => None
  | t :: tail' => scan lineFlags Re.fromLineRegex (t :: rev l ++ bef) tail'
  end.
Proof.
  intros Hs Ht Hok Hno.
  pose proof (@fromLine_no_match bef l tail Hs Ht Hok Hno) as E.
  destruct l as [|c l].
  - cbn [app rev] in *. destruct tail as [|t tail'].
    + apply scan_end. exact E.
    + apply scan_next. exact E.
  - cbn [app] in *. rewrite (@scan_next _ _ _ _ _ E).
    unfold lineOk in Hok. apply andb_true_iff in Hok. destruct Hok as [Hnb _].
    simpl in Hnb. apply andb_true_iff in Hnb. destruct Hnb as [Hc Hl].
    apply negb_true_iff in Hc.
    rewrite (@scan_inside l c bef tail Hc Hl). cbn [rev].
    destruct tail; [reflexivity|]. rewrite <- app_assoc. reflexivity.
Qed.

Lemma zloop_scan_eq fl r fuel bef aft bef' aft' :
  scan fl r bef aft = scan fl r bef' aft' ->
  zloop fuel fl r bef aft = zloop fuel fl r bef' aft'.
Proof. intros E. destruct fuel; [reflexivity|]. simpl. rewrite E. reflexivity. Qed.

Lemma join_cons2 (l l2 : jsstring) ls :
  join [LF] (l :: l2 :: ls) = l ++ LF :: join [LF] (l2 :: ls).
Proof. reflexivity. Qed.

Lemma rev_head_inside (l bef : jsstring) :
  l <> [] ->
  forallb (fun a => negb (isLineTerminator a)) l = true ->
  exists c rest, rev l ++ bef = c :: rest /\ isLineTerminator c = false.
Proof.
  intros Hne Hl. destruct (rev l) as [|c r] eqn:E.
  - apply (f_equal (@rev _)) in E. rewrite rev_involutive in E. contradiction.
  - exists c, (r ++ bef). split; [reflexivity|].
    rewrite forallb_forall in Hl. apply negb_true_iff. apply Hl.
    apply in_rev. rewrite E. left. reflexivity.
Qed.

Lemma isFromLine_nonempty l : isFromLine l = true -> l <> [].
Proof. intros H ->. discriminate. Qed.

Lemma matched_line (l bef tail : jsstring) :
  matched (mk_result (length bef, mk (rev l ++ bef) tail [])) = l.
Proof.
  unfold mk_result, mk, endIndex. cbn [matched before].
  apply rev_firstn_consumed.
Qed.

(** The rounds of the global search over lines: the [FROM] lines, whole and
    in order. *)
Lemma zloop_lines : forall lines bef fuel,
  lines <> [] ->
  lineStart bef ->
  forallb lineOk lines = true ->
  length (join [LF] lines) + 1 < fuel ->
  map (fun found => matched (mk_result found))
      (zloop fuel lineFlags Re.fromLineRegex bef (join [LF] lines)) =
  filter isFromLine lines.
Proof.
  induction lines as [|l lines IH]; intros bef fuel Hne Hs Hok Hf;
    [contradiction|].
  simpl in Hok. apply andb_true_iff in Hok. destruct Hok as [Hl Hok].
  assert (Hnb : forallb (fun a => negb (isLineTerminator a)) l = true).
  { unfold lineOk in Hl. apply andb_true_iff in Hl. tauto. }
  destruct lines as [|l2 ls].
  - (* the last line *)
    cbn [join filter]. rewrite <- (app_nil_r l) at 1.
    assert (Ht : lineTail []) by (left; reflexivity).
    destruct (isFromLine l) eqn:Ef.
    + destruct fuel as [|[|fuel]]; try lia.
      pose proof (@fromLine_match bef l _ Hs Ht Hl Ef) as Hm.
      destruct (@rev_head_inside l bef (@isFromLine_nonempty l Ef) Hnb)
        as [c [rest [Er Hc]]].
      rewrite (@zloop_single lineFlags Re.fromLineRegex bef (l ++ [])
                 (length bef) _ fuel (@scan_first _ _ _ _ _ Hm)).
      * cbn [map]. rewrite matched_line. reflexivity.
      * unfold endIndex, mk. cbn [before]. rewrite length_app, length_rev.
        pose proof (@isFromLine_nonempty l Ef). destruct l; [contradiction|].
        simpl. lia.
      * cbn [mk before after]. rewrite Er. apply scan_end.
        apply fromLine_inside. exact Hc.
    + destruct fuel as [|fuel]; [lia|]. cbn [zloop].
      rewrite (@scan_skip_line bef l [] Hs Ht Hl Ef). reflexivity.
  - (* a line followed by others *)
    rewrite join_cons2.
    assert (Ht : lineTail (LF :: join [LF] (l2 :: ls)))
      by (right; eexists; reflexivity).
    assert (Hf' : length (join [LF] (l2 :: ls)) + 1 < pred fuel).
    { rewrite join_cons2, length_app in Hf. cbn [length] in Hf. lia. }
    assert (Hs' : lineStart (LF :: rev l ++ bef)) by reflexivity.
    cbn [filter]. destruct (isFromLine l) eqn:Ef.
    + destruct fuel as [|fuel]; [lia|]. cbn [zloop].
      pose proof (@fromLine_match bef l _ Hs Ht Hl Ef) as Hm.
      rewrite (@scan_first _ _ _ _ _ Hm).
      destruct (@rev_head_inside l bef (@isFromLine_nonempty l Ef) Hnb)
        as [c [rest [Er Hc]]].
      assert (Hne' : Nat.eqb (endIndex (mk (rev l ++ bef)
                                           (LF :: join [LF] (l2 :: ls)) []))
                             (length bef) = false).
      { apply Nat.eqb_neq. unfold endIndex, mk. cbn [before].
        rewrite length_app, length_rev.
        pose proof (@isFromLine_nonempty l Ef). destruct l; [contradiction|].
        simpl. lia. }
      rewrite Hne'. cbn [map mk before after]. fold (mk (rev l ++ bef)
        (LF :: join [LF] (l2 :: ls)) []). rewrite matched_line. f_equal.
      rewrite (@zloop_scan_eq lineFlags Re.fromLineRegex fuel
                 (rev l ++ bef) (LF :: join [LF] (l2 :: ls))
                 (LF :: rev l ++ bef) (join [LF] (l2 :: ls))).
      * apply IH; [discriminate|exact Hs'|exact Hok|exact Hf'].
      * rewrite Er. apply scan_next. apply fromLine_inside. exact Hc.
    + rewrite (@zloop_scan_eq lineFlags Re.fromLineRegex fuel
                 bef (l ++ LF :: join [LF] (l2 :: ls))
                 (LF :: rev l ++ bef) (join [LF] (l2 :: ls))).
      * apply IH; [discriminate|exact Hs'|exact Hok|].
        destruct fuel; simpl in *; lia.
      * apply (@scan_skip_line bef l _ Hs Ht Hl Ef).
Qed.

Lemma split_nonempty sep s : split sep s <> [].
Proof.
  destruct s as [|c s]; simpl; [discriminate|].
  destruct (char_eqb c sep); [discriminate|].
  destruct (split sep s); discriminate.
Qed.

Lemma cleanLines_nonempty content : cleanLines content <> [].
Proof.
  unfold cleanLines. pose proof (split_nonempty LF content) as H.
  destruct (split LF content); [contradiction|discriminate].
Qed.

Lemma fromLines_per_line content :
  forallb lineOk (cleanLines content) = true ->
  fromLines (stripPlus content) = filter isFromLine (cleanLines content).
Proof.
  intros Hok. rewrite stripPlus_lines. unfold fromLines.
  set (s := join [LF] (cleanLines content)).
  assert (Z : exec_loop (length s + 2)
                        (literal Re.fromLineRegex false true true) s
              = map mk_result
                    (zloop (length s + 2) lineFlags Re.fromLineRegex [] s)).
  { exact (exec_loop_zloop (literal Re.fromLineRegex false true true) eq_refl
                           (length s + 2) [] s). }
  rewrite Z, map_map.
  apply (@zloop_lines (cleanLines content) [] (length s + 2)
           (cleanLines_nonempty content) I Hok).
  fold s. lia.
Qed.

(* ---------------------------------------------------------------- *)
(** ** The warning of one [FROM] line *)

Lemma fromRegex_shape :
  Re.fromRegex =
  seq (map Char (str "FROM")
       ++ [plus ws;
           Group 1 (plus (not_of [CChar (ch ":"); CSpace]));
           opt (Seq (Char (ch ":")) (Group 2 (plus (not_of [CSpace]))))]).
Proof. reflexivity. Qed.

Lemma image_class c :
  class_match plainFlags true [CChar (ch ":"); CSpace] c =
  negb (N.eqb (ch ":") c) && negb (isSpace c).
Proof.
  unfold class_match, set_mem. cbn [ignoreCase plainFlags existsb atom_mem].
  destruct (N.eqb (ch ":") c), (isSpace c); reflexivity.
Qed.

Lemma tag_class c : class_match plainFlags true [CSpace] c = negb (isSpace c).
Proof.
  unfold class_match, set_mem. cbn [ignoreCase plainFlags existsb atom_mem].
  destruct (isSpace c); reflexivity.
Qed.

Lemma plain_ws_class c : class_match plainFlags false [CSpace] c = isSpace c.
Proof.
  unfold class_match, set_mem. cbn [ignoreCase plainFlags existsb atom_mem].
  destruct (isSpace c); reflexivity.
Qed.

Lemma forallb_eq {A : Type} (P Q : A -> bool) l :
  (forall c, P c = Q c) -> forallb Q l = true -> forallb P l = true.
Proof.
  intros E H. rewrite forallb_forall in *. intros c Hc. rewrite E. auto.
Qed.

Lemma afterReference_stops_image rest :
  afterReference rest ->
  stops (class_match plainFlags true [CChar (ch ":"); CSpace]) rest.
Proof.
  destruct rest as [|c rest]; unfold afterReference, stops; [auto|]. intros H.
  rewrite image_class, H. apply andb_false_r.
Qed.

Lemma afterReference_stops_tag rest :
  afterReference rest -> stops (class_match plainFlags true [CSpace]) rest.
Proof.
  destruct rest as [|c rest]; unfold afterReference, stops; [auto|]. intros H.
  rewrite tag_class, H. reflexivity.
Qed.

Lemma image_first c image :
  imageChars (c :: image) = true -> isSpace c = false.
Proof.
  unfold imageChars. simpl. intros H. apply andb_true_iff in H.
  destruct H as [H _]. apply andb_true_iff in H. destruct H as [_ H].
  apply negb_true_iff. exact H.
Qed.

(** [FROM], white space, an image name and no tag: the match has group 1
    and no group 2. *)
Lemma fromRegex_untagged spaces image rest :
  spaces <> [] -> forallb isSpace spaces = true ->
  image <> [] -> imageChars image = true ->
  afterReference rest ->
  exists mr,
    match_first (str "FROM" ++ spaces ++ image ++ rest)
                (literal Re.fromRegex false false false) = Some mr /\
    group 1 mr = Some image /\ group 2 mr = None.
Proof.
  intros Hsn Hs Hin Hi Hr.
  rewrite match_first_scan.
  set (y := mk (rev image ++ rev spaces ++ rev (str "FROM")) rest
               (cap_set 1 image [])).
  assert (F : first_is (m plainFlags Re.fromRegex
                          (mk [] (str "FROM" ++ spaces ++ image ++ rest) [])) y).
  { rewrite fromRegex_shape.
    apply (@first_chars plainFlags (str "FROM") _ [] _ []
             (str "FROM") (spaces ++ image ++ rest)); [reflexivity|].
    destruct image as [|c image]; [contradiction|].
    eapply first_seq_cons.
    { exact (@first_plus plainFlags ws (class_match plainFlags false [CSpace])
               spaces ((c :: image) ++ rest) (rev (str "FROM") ++ []) []
               eq_refl Hsn (forallb_eq _ _ spaces plain_ws_class Hs)
               ltac:(unfold stops; cbn [app]; rewrite plain_ws_class;
                     exact (image_first c image Hi))). }
    eapply first_seq_cons.
    { apply (@first_Group plainFlags 1 _ (c :: image)).
      exact (@first_plus plainFlags (not_of [CChar (ch ":"); CSpace])
               (class_match plainFlags true [CChar (ch ":"); CSpace])
               (c :: image) rest (rev spaces ++ rev (str "FROM") ++ []) []
               eq_refl Hin (forallb_eq _ _ (c :: image) image_class Hi)
               (afterReference_stops_image rest Hr)). }
    eapply first_seq_cons; [|apply first_seq_nil].
    unfold y. rewrite app_nil_r.
    apply (@first_opt_skipped plainFlags _
             (mk (rev (c :: image) ++ rev spaces ++ rev (str "FROM")) rest
                 (cap_set 1 (c :: image) []))).
    cbn [before after caps mk]. apply m_Seq_fails. apply m_Char_fails.
    destruct rest as [|d rest]; [exact I|].
    unfold afterReference in Hr. unfold char_match. cbn [ignoreCase plainFlags].
    destruct (N.eqb (ch ":") d) eqn:Ed; [|reflexivity].
    apply N.eqb_eq in Ed. subst d. discriminate Hr. }
  pose proof (@scan_first plainFlags Re.fromRegex [] _ y F) as E.
  unfold plainFlags in E. rewrite E.
  eexists. split; [reflexivity|]. split; reflexivity.
Qed.

(** The same with a colon and a tag: the match has both groups. *)
Lemma fromRegex_tagged spaces image tag rest :
  spaces <> [] -> forallb isSpace spaces = true ->
  image <> [] -> imageChars image = true ->
  tag <> [] -> tagChars tag = true ->
  afterReference rest ->
  exists mr,
    match_first (str "FROM" ++ spaces ++ image ++ ch ":" :: tag ++ rest)
                (literal Re.fromRegex false false false) = Some mr /\
    group 1 mr = Some image /\ group 2 mr = Some tag.
Proof.
  intros Hsn Hs Hin Hi Htn Ht Hr.
  rewrite match_first_scan.
  set (bef1 := rev image ++ rev spaces ++ rev (str "FROM")).
  set (y := mk (rev tag ++ ch ":" :: bef1) rest
               (cap_set 2 tag (cap_set 1 image []))).
  assert (F : first_is
                (m plainFlags Re.fromRegex
                   (mk [] (str "FROM" ++ spaces ++ image ++ ch ":" :: tag ++ rest)
                       [])) y).
  { rewrite fromRegex_shape.
    apply (@first_chars plainFlags (str "FROM") _ [] _ []
             (str "FROM") (spaces ++ image ++ ch ":" :: tag ++ rest));
      [reflexivity|].
    destruct image as [|c image]; [contradiction|].
    eapply first_seq_cons.
    { exact (@first_plus plainFlags ws (class_match plainFlags false [CSpace])
               spaces ((c :: image) ++ ch ":" :: tag ++ rest)
               (rev (str "FROM") ++ []) []
               eq_refl Hsn (forallb_eq _ _ spaces plain_ws_class Hs)
               ltac:(unfold stops; cbn [app]; rewrite plain_ws_class;
                     exact (image_first c image Hi))). }
    eapply first_seq_cons.
    { apply (@first_Group plainFlags 1 _ (c :: image)).
      exact (@first_plus plainFlags (not_of [CChar (ch ":"); CSpace])
               (class_match plainFlags true [CChar (ch ":"); CSpace])
               (c :: image) (ch ":" :: tag ++ rest)
               (rev spaces ++ rev (str "FROM") ++ []) []
               eq_refl Hin (forallb_eq _ _ (c :: image) image_class Hi)
               eq_refl). }
    eapply first_seq_cons; [|apply first_seq_nil].
    rewrite app_nil_r. fold bef1.
    apply (@first_opt_taken plainFlags _
             (mk bef1 (ch ":" :: tag ++ rest) (cap_set 1 (c :: image) [])) y).
    - cbn [before after caps mk].
      apply (@first_Seq plainFlags _ _ _
               (mk (ch ":" :: bef1) (tag ++ rest) (cap_set 1 (c :: image) []))).
      + apply first_Char. reflexivity.
      + unfold y. change (rev tag ++ ch ":" :: bef1)
          with (rev tag ++ (ch ":" :: bef1)).
        apply (@first_Group plainFlags 2 _ tag).
        exact (@first_plus plainFlags (not_of [CSpace])
                 (class_match plainFlags true [CSpace])
                 tag rest (ch ":" :: bef1) (cap_set 1 (c :: image) [])
                 eq_refl Htn (forallb_eq _ _ tag tag_class Ht)
                 (afterReference_stops_tag rest Hr)).
    - unfold y, endIndex, mk. cbn [before]. rewrite length_app. simpl. lia. }
  pose proof (@scan_first plainFlags Re.fromRegex [] _ y F) as E.
  unfold plainFlags in E. rewrite E.
  eexists. split; [reflexivity|]. split; [reflexivity|].
  unfold y, mk_result, mk, group. cbn [mcaps caps]. apply cap_get_set_same.
Qed.

Lemma fromLineWarning_untagged spaces image rest :
  spaces <> [] -> forallb isSpace spaces = true ->
  image <> [] -> imageChars image = true ->
  afterReference rest ->
  fromLineWarning (str "FROM" ++ spaces ++ image ++ rest) =
  [dockerNoTagMessage image].
Proof.
  intros Hsn Hs Hin Hi Hr.
  destruct (@fromRegex_untagged spaces image rest Hsn Hs Hin Hi Hr)
    as [mr [E [G1 G2]]].
  unfold fromLineWarning. rewrite E. unfold captured. rewrite G1, G2.
  reflexivity.
Qed.

Lemma fromLineWarning_tagged spaces image tag rest :
  spaces <> [] -> forallb isSpace spaces = true ->
  image <> [] -> imageChars image = true ->
  tag <> [] -> tagChars tag = true ->
  afterReference rest ->
  fromLineWarning (str "FROM" ++ spaces ++ image ++ ch ":" :: tag ++ rest) =
  if floatingTag (Some tag) then [dockerTagMessage image tag] else [].
Proof.
  intros Hsn Hs Hin Hi Htn Ht Hr.
  destruct (@fromRegex_tagged spaces image tag rest Hsn Hs Hin Hi Htn Ht Hr)
    as [mr [E [G1 G2]]].
  unfold fromLineWarning. rewrite E. unfold captured. rewrite G1, G2.
  destruct tag as [|c tag]; [contradiction|]. reflexivity.
Qed.

(* ---------------------------------------------------------------- *)
(** ** The tag shapes *)

Lemma digit_class c : class_match plainFlags false [CDigit] c = isDigit c.
Proof.
  unfold class_match, set_mem. cbn [ignoreCase plainFlags existsb atom_mem].
  destruct (isDigit c); reflexivity.
Qed.

Lemma letter_class c :
  class_match plainFlags false [CRange (ch "a") (ch "z"); CRange (ch "A") (ch "Z")] c
  = isLetter c.
Proof.
  unfold class_match, set_mem, isLetter.
  cbn [ignoreCase plainFlags existsb atom_mem].
  change (ch "a") with 97%N. change (ch "z") with 122%N.
  change (ch "A") with 65%N. change (ch "Z") with 90%N.
  destruct (in_range 97%N 122%N c), (in_range 65%N 90%N c); reflexivity.
Qed.

Lemma nonempty_list {A : Type} (l : list A) :
  match l with [] => false | _ :: _ => true end = negb (Nat.eqb (length l) 0).
Proof. destruct l; reflexivity. Qed.

Lemma test_integer s :
  test (literal Re.integerRegex false false false) s = isInteger s.
Proof.
  change Re.integerRegex with (seq [Bol; digits; Eol]).
  rewrite test_anchored. fold plainFlags. unfold digits.
  rewrite (@m_plus_Eol plainFlags (Class false [CDigit])
             (class_match plainFlags false [CDigit]) [] s [] eq_refl eq_refl).
  unfold isInteger. rewrite (forallb_ext' _ _ s digit_class).
  destruct (nonempty s && forallb isDigit s); reflexivity.
Qed.

Lemma test_alphabetic s :
  test (literal Re.alphaRegex false false false) s = isAlphabetic s.
Proof.
  change Re.alphaRegex
    with (seq [Bol;
               plus (Class false [CRange (ch "a") (ch "z");
                                  CRange (ch "A") (ch "Z")]);
               Eol]).
  rewrite test_anchored. fold plainFlags.
  rewrite (@m_plus_Eol plainFlags
             (Class false [CRange (ch "a") (ch "z"); CRange (ch "A") (ch "Z")])
             (class_match plainFlags false
                          [CRange (ch "a") (ch "z"); CRange (ch "A") (ch "Z")])
             [] s [] eq_refl eq_refl).
  unfold isAlphabetic. rewrite (forallb_ext' _ _ s letter_class).
  destruct (nonempty s && forallb isLetter s); reflexivity.
Qed.

Lemma digit_not_dot c : isDigit c = true -> N.eqb (ch ".") c = false.
Proof.
  unfold isDigit, in_range. intros H. apply andb_true_iff in H.
  destruct H as [H _]. apply N.leb_le in H. apply N.eqb_neq.
  change (ch ".") with 46%N. intros <-. apply H. reflexivity.
Qed.

Lemma majorMinor_body bef s cs :
  succeeds (m plainFlags
              (seq [plus (Class false [CDigit]); Char (ch ".");
                    plus (Class false [CDigit]); Eol])
              (mk bef s cs)) = isMajorMinor s.
Proof.
  rewrite m_seq_cons. unfold isMajorMinor.
  rewrite <- (span_ext (class_match plainFlags false [CDigit]) isDigit s digit_class).
  destruct (span (class_match plainFlags false [CDigit]) s) as [a rest] eqn:Esp.
  destruct (span_spec _ s Esp) as [-> [Ha Hr]].
  rewrite (plus_only_last plainFlags (Class false [CDigit])
             (m plainFlags (seq [Char (ch "."); plus (Class false [CDigit]); Eol]))
             eq_refl).
  - destruct a as [|c a]; [reflexivity|]. cbn [nonempty andb].
    rewrite m_seq_cons. destruct rest as [|d minor].
    + rewrite m_Char_fails by exact I. reflexivity.
    + cbn [m]. unfold step, mk, char_match.
      cbn [after before caps ignoreCase plainFlags].
      rewrite (N.eqb_sym d (ch ".")).
      destruct (N.eqb (ch ".") d); [|reflexivity].
      cbn [flat_map andb]. rewrite app_nil_r.
      fold (mk (d :: rev (c :: a) ++ bef) minor cs).
      rewrite (@m_plus_Eol plainFlags (Class false [CDigit])
                 (class_match plainFlags false [CDigit])
                 _ minor cs eq_refl eq_refl).
      unfold isInteger. rewrite (forallb_ext' _ _ minor digit_class).
      destruct (nonempty minor && forallb isDigit minor); reflexivity.
  - intros bef' c aft cs' Hc. rewrite m_seq_cons.
    rewrite m_Char_fails; [reflexivity|].
    unfold char_match. cbn [ignoreCase plainFlags].
    apply digit_not_dot. rewrite <- digit_class. exact Hc.
  - exact Ha.
  - exact Hr.
Qed.

Lemma test_majorMinor s :
  test (literal Re.majorMinorRegex false false false) s = isMajorMinor s.
Proof.
  change Re.majorMinorRegex
    with (seq [Bol; digits; Char (ch "."); digits; Eol]).
  rewrite test_anchored. fold plainFlags. unfold digits.
  exact (majorMinor_body [] s []).
Qed.

(** The condition of the [else if], on a tag that is there. *)
Lemma floatingTag_shapes tag :
  floatingTag (Some tag) =
  isFloatingAlias tag || isInteger tag || isMajorMinor tag || isAlphabetic tag.
Proof.
  unfold floatingTag, isFloatingAlias, strict_eq, interp.
  rewrite test_integer, test_majorMinor, test_alphabetic.
  rewrite <- !orb_assoc. reflexivity.
Qed.

(* ---------------------------------------------------------------- *)
(** ** Blobs of one line *)

Lemma LT_is_space c : isLineTerminator c = true -> isSpace c = true.
Proof.
  unfold isLineTerminator, isSpace. intros H.
  repeat (apply orb_true_iff in H; destruct H as [H|H]);
    apply N.eqb_eq in H; subst c; reflexivity.
Qed.

Lemma notSpace_inLine s :
  forallb (fun c => negb (isSpace c)) s = true -> inLine s = true.
Proof.
  unfold inLine. intros H. rewrite forallb_forall in *. intros c Hc.
  specialize (H c Hc). apply negb_true_iff in H. apply negb_true_iff.
  destruct (isLineTerminator c) eqn:E; [|reflexivity].
  apply LT_is_space in E. congruence.
Qed.

Lemma imageChars_notSpace s :
  imageChars s = true -> forallb (fun c => negb (isSpace c)) s = true.
Proof.
  unfold imageChars. intros H. rewrite forallb_forall in *. intros c Hc.
  specialize (H c Hc). apply andb_true_iff in H. tauto.
Qed.

Lemma inLine_app a b : inLine (a ++ b) = inLine a && inLine b.
Proof. apply forallb_app. Qed.

Lemma split_inLine s : inLine s = true -> split LF s = [s].
Proof.
  unfold inLine. induction s as [|c s IH]; intros H; [reflexivity|].
  simpl in H. apply andb_true_iff in H. destruct H as [Hc Hs].
  cbn [split]. unfold char_eqb.
  destruct (N.eqb c LF) eqn:E.
  - apply N.eqb_eq in E. subst c. discriminate Hc.
  - rewrite (IH Hs). reflexivity.
Qed.

Lemma cleanLines_one added line :
  inLine line = true -> startsWith line [PLUS] = false ->
  cleanLines (marker added ++ line) = [line].
Proof.
  intros Hl Hp. unfold cleanLines. rewrite split_inLine.
  - cbn [map]. f_equal. destruct added; cbn [marker app stripLine].
    + reflexivity.
    + destruct line as [|c line]; [reflexivity|]. cbn [stripLine].
      cbn [startsWith] in Hp. unfold char_eqb in Hp.
      rewrite startsWith_nil, andb_true_r, N.eqb_sym in Hp.
      rewrite Hp. reflexivity.
  - rewrite inLine_app, Hl. destruct added; reflexivity.
Qed.

Lemma validateDockerfile_one_line added spaces c more :
  spaces <> [] -> forallb isSpace spaces = true -> isSpace c = false ->
  inLine (spaces ++ c :: more) = true ->
  validateDockerfile (marker added ++ str "FROM" ++ spaces ++ c :: more) =
  Normal (fromLineWarning (str "FROM" ++ spaces ++ c :: more)).
Proof.
  intros Hsn Hs Hc Hl.
  set (line := str "FROM" ++ spaces ++ c :: more).
  assert (Hline : inLine line = true) by (unfold line; rewrite inLine_app, Hl; reflexivity).
  assert (Hclean : cleanLines (marker added ++ line) = [line])
    by (apply cleanLines_one; [exact Hline|reflexivity]).
  assert (Hfrom : isFromLine line = true).
  { unfold isFromLine, line. cbn [str app startsWith skipn].
    unfold char_eqb. rewrite !N.eqb_refl, startsWith_nil. cbn [andb].
    destruct spaces as [|s0 spaces]; [contradiction|].
    simpl in Hs. apply andb_true_iff in Hs. tauto. }
  assert (Hok : lineOk line = true).
  { unfold lineOk. fold (inLine line). rewrite Hline. cbn [andb].
    apply orb_true_iff. right. unfold line. cbn [str app skipn].
    rewrite existsb_app. apply orb_true_iff. right. simpl. rewrite Hc.
    reflexivity. }
  rewrite validateDockerfile_lines, fromLines_per_line; rewrite Hclean.
  - cbn [filter]. rewrite Hfrom. cbn [flat_map]. rewrite app_nil_r. reflexivity.
  - cbn [forallb]. rewrite Hok. reflexivity.
Qed.

(* ---------------------------------------------------------------- *)
(** ** The theorems *)

(** X2. On a blob in which no cleaned line holds a line terminator and every
    line that begins with [FROM] has something other than white space after
    it, [validateDockerfile] looks at exactly the lines that begin with
    [FROM] and a white space character, in their order, and emits for each
    the warning of that line alone, at most one. *)
Theorem dockerfile_matcher_per_line :
  forall content : jsstring,
    forallb lineOk (cleanLines content) = true ->
    validateDockerfile content =
    Normal (flat_map fromLineWarning (filter isFromLine (cleanLines content))) /\
    (forall line, length (fromLineWarning line) <= 1).
Proof.
  intros content Hok. split.
  - rewrite validateDockerfile_lines, (fromLines_per_line content Hok).
    reflexivity.
  - intros line. unfold fromLineWarning.
    destruct (match_first line _) as [mr|]; [|simpl; lia].
    destruct (negb (truthy (group 2 mr))); [simpl; lia|].
    destruct (floatingTag (group 2 mr)); simpl; lia.
Qed.

Lemma dockerfile_matcher_per_line_witness :
  validateDockerfile dockerfileSample =
  Normal [dockerTagMessage (str "node") (str "latest");
          dockerNoTagMessage (str "ubuntu");
          dockerTagMessage (str "golang") (str "alpine");
          dockerTagMessage (str "python") (str "3")].
Proof.
  assert (H : forallb lineOk (cleanLines dockerfileSample) = true)
    by (vm_compute; reflexivity).
  destruct (dockerfile_matcher_per_line dockerfileSample H) as [E _].
  rewrite E. vm_compute. reflexivity.
Defined.

(** X3. A blob that is one line [FROM image], added or not, with nothing or
    white space after the image, yields exactly the warning that names the
    image and says it has no version tag. *)
Theorem dockerfile_line_without_tag :
  forall (added : bool) (spaces image rest : jsstring),
    spaces <> [] -> forallb isSpace spaces = true -> inLine spaces = true ->
    image <> [] -> imageChars image = true ->
    afterReference rest -> inLine rest = true ->
    validateDockerfile (marker added ++ str "FROM" ++ spaces ++ image ++ rest) =
      Normal [dockerNoTagMessage image] /\
    includes (dockerNoTagMessage image) image = true.
Proof.
  intros added spaces image rest Hsn Hs Hsl Hin Hi Hr Hrl.
  split; [|unfold dockerNoTagMessage; spliced].
  etransitivity;
    [|apply f_equal;
      exact (@fromLineWarning_untagged spaces image rest Hsn Hs Hin Hi Hr)].
  destruct image as [|c image]; [contradiction|]. cbn [app].
  apply validateDockerfile_one_line; auto.
  - exact (@image_first c image Hi).
  - change (c :: image ++ rest) with ((c :: image) ++ rest).
    rewrite !inLine_app, Hsl, Hrl.
    rewrite (@notSpace_inLine _ (@imageChars_notSpace _ Hi)). reflexivity.
Qed.

Lemma dockerfile_line_without_tag_witness :
  validateDockerfile (str "+FROM ubuntu AS base") =
  Normal [dockerNoTagMessage (str "ubuntu")].
Proof.
  exact (proj1 (@dockerfile_line_without_tag true (str " ")
                  (str "ubuntu") (str " AS base")
                  ltac:(discriminate) eq_refl eq_refl
                  ltac:(discriminate) eq_refl eq_refl eq_refl)).
Defined.

(** X4. A blob that is one line [FROM image:tag] yields the non-specific-tag
    warning, naming image and tag, exactly when the tag is one of [latest],
    [stable], [rolling], [alpine], or all digits, or digits, a dot and
    digits, or all letters; any other tag, such as [1.2.3-alpine3.18],
    yields nothing. *)
Theorem dockerfile_line_with_tag :
  forall (added : bool) (spaces image tag rest : jsstring),
    spaces <> [] -> forallb isSpace spaces = true -> inLine spaces = true ->
    image <> [] -> imageChars image = true ->
    tag <> [] -> tagChars tag = true ->
    afterReference rest -> inLine rest = true ->
    validateDockerfile
      (marker added ++ str "FROM" ++ spaces ++ image ++ ch ":" :: tag ++ rest) =
      Normal (if isFloatingAlias tag || isInteger tag || isMajorMinor tag
                 || isAlphabetic tag
              then [dockerTagMessage image tag] else []) /\
    includes (dockerTagMessage image tag) image = true /\
    includes (dockerTagMessage image tag) tag = true.
Proof.
  intros added spaces image tag rest Hsn Hs Hsl Hin Hi Htn Ht Hr Hrl.
  split; [|split; unfold dockerTagMessage; spliced].
  rewrite <- floatingTag_shapes.
  etransitivity;
    [|apply f_equal;
      exact (@fromLineWarning_tagged spaces image tag rest
                                     Hsn Hs Hin Hi Htn Ht Hr)].
  destruct image as [|c image]; [contradiction|]. cbn [app].
  apply validateDockerfile_one_line; auto.
  - exact (@image_first c image Hi).
  - change (c :: image ++ ch ":" :: tag ++ rest)
      with ((c :: image) ++ [ch ":"] ++ tag ++ rest).
    rewrite !inLine_app, Hsl, Hrl.
    rewrite (@notSpace_inLine _ (@imageChars_notSpace _ Hi)).
    rewrite (@notSpace_inLine tag Ht). reflexivity.
Qed.

Lemma dockerfile_line_with_tag_witness :
  validateDockerfile (str "FROM image:1.2.3-alpine3.18") = Normal [] /\
  validateDockerfile (str "FROM python:3.11 AS test") =
  Normal [dockerTagMessage (str "python") (str "3.11")].
Proof.
  split.
  - exact (proj1 (@dockerfile_line_with_tag false (str " ")
                    (str "image") (str "1.2.3-alpine3.18") []
                    ltac:(discriminate) eq_refl eq_refl
                    ltac:(discriminate) eq_refl
                    ltac:(discriminate) eq_refl I eq_refl)).
  - exact (proj1 (@dockerfile_line_with_tag false (str " ")
                    (str "python") (str "3.11") (str " AS test")
                    ltac:(discriminate) eq_refl eq_refl
                    ltac:(discriminate) eq_refl
                    ltac:(discriminate) eq_refl eq_refl eq_refl)).
Defined.

Lemma bare_from_first word rest :
  word <> [] -> imageChars word = true -> inLine rest = true ->
  first_is (m lineFlags Re.fromLineRegex
              (mk [] (str "FROM" ++ LF :: word ++ rest) []))
           (mk (rev (str "FROM" ++ LF :: word ++ rest)) [] []).
Proof.
  intros Hw Hi Hr. rewrite fromLineRegex_shape.
  rewrite m_Bol_start by (reflexivity || exact I).
  apply (@first_chars lineFlags (str "FROM") _ [] _ []
           (str "FROM") (LF :: word ++ rest)); [reflexivity|].
  destruct word as [|c word]; [contradiction|].
  eapply first_seq_cons.
  { exact (@first_plus lineFlags ws (class_match lineFlags false [CSpace])
             [LF] ((c :: word) ++ rest) (rev (str "FROM") ++ []) []
             eq_refl ltac:(discriminate) eq_refl
             ltac:(unfold stops; cbn [app]; rewrite ws_class;
                   exact (@image_first c word Hi))). }
  assert (Hnl : forallb (class_match lineFlags true [CChar LF])
                        ((c :: word) ++ rest) = true).
  { apply noBreak_notLF. fold (inLine ((c :: word) ++ rest)).
    rewrite inLine_app, Hr, (@notSpace_inLine _ (@imageChars_notSpace _ Hi)).
    reflexivity. }
  pose proof (@first_plus lineFlags (not_of [CChar LF])
                (class_match lineFlags true [CChar LF])
                ((c :: word) ++ rest) [] (rev [LF] ++ rev (str "FROM") ++ []) []
                eq_refl ltac:(discriminate) Hnl I) as H2.
  rewrite (app_nil_r ((c :: word) ++ rest)) in H2.
  eapply first_seq_cons; [exact H2|].
  rewrite app_nil_r.
  replace (rev (str "FROM" ++ LF :: (c :: word) ++ rest))
    with (rev ((c :: word) ++ rest) ++ rev [LF] ++ rev (str "FROM") ++ []).
  - apply first_seq_nil.
  - rewrite app_nil_r.
    change (str "FROM" ++ LF :: (c :: word) ++ rest)
      with (str "FROM" ++ [LF] ++ (c :: word) ++ rest).
    rewrite !rev_app_distr, <- !app_assoc. reflexivity.
Qed.

(** X5. A line that is [FROM] alone takes the next line with it: the white
    space the pattern asks for after the keyword is the line break, and the
    first word of the line that follows is reported as an image without a
    tag, whatever that line is. *)
Theorem dockerfile_bare_from_reads_next_line :
  forall word rest : jsstring,
    word <> [] -> imageChars word = true -> startsWith word [PLUS] = false ->
    afterReference rest -> inLine rest = true ->
    validateDockerfile (str "FROM" ++ LF :: word ++ rest) =
    Normal [dockerNoTagMessage word].
Proof.
  intros word rest Hw Hi Hp Hr Hrl.
  set (content := str "FROM" ++ LF :: word ++ rest).
  assert (Hwl : inLine (word ++ rest) = true).
  { rewrite inLine_app, Hrl, (@notSpace_inLine _ (@imageChars_notSpace _ Hi)).
    reflexivity. }
  assert (Hclean : stripPlus content = content).
  { rewrite stripPlus_lines. unfold cleanLines, content.
    change (str "FROM" ++ LF :: word ++ rest)
      with (70 :: 82 :: 79 :: 77 :: LF :: word ++ rest)%N.
    cbn [split]. unfold char_eqb.
    change (N.eqb 70 LF) with false. change (N.eqb 82 LF) with false.
    change (N.eqb 79 LF) with false. change (N.eqb 77 LF) with false.
    rewrite N.eqb_refl. rewrite (split_inLine _ Hwl). cbn [map stripLine].
    change (N.eqb 70 PLUS) with false. cbn [join app].
    destruct word as [|c word]; [contradiction|]. cbn [app stripLine].
    cbn [startsWith] in Hp. unfold char_eqb in Hp.
    rewrite startsWith_nil, andb_true_r, N.eqb_sym in Hp. rewrite Hp.
    reflexivity. }
  rewrite validateDockerfile_lines, Hclean. unfold fromLines.
  assert (Z : exec_loop (length content + 2)
                        (literal Re.fromLineRegex false true true) content
              = map mk_result
                    (zloop (length content + 2) lineFlags Re.fromLineRegex
                           [] content)).
  { exact (exec_loop_zloop (literal Re.fromLineRegex false true true) eq_refl
                           (length content + 2) [] content). }
  rewrite Z. replace (length content + 2) with (S (S (length content))) by lia.
  pose proof (@scan_first lineFlags Re.fromLineRegex [] content _
                (@bare_from_first word rest Hw Hi Hrl)) as E.
  rewrite (@zloop_single lineFlags Re.fromLineRegex [] content 0 _
             (length content) E).
  - cbn [map flat_map]. rewrite app_nil_r.
    rewrite (@matched_whole lineFlags Re.fromLineRegex content _ E eq_refl).
    f_equal.
    exact (@fromLineWarning_untagged [LF] word rest
             ltac:(discriminate) eq_refl Hw Hi Hr).
  - unfold endIndex, mk. cbn [before]. rewrite length_rev. unfold content.
    simpl. discriminate.
  - cbn [mk before after]. unfold content.
    change (str "FROM" ++ LF :: word ++ rest)
      with (str "FROM" ++ [LF] ++ (word ++ rest)).
    rewrite !rev_app_distr, <- !app_assoc.
    destruct (@rev_head_inside (word ++ rest) (rev [LF] ++ rev (str "FROM")))
      as [c [r [Er Hc]]]; [destruct word; [contradiction|discriminate]|exact Hwl|].
    rewrite rev_app_distr, <- app_assoc in Er.
    rewrite Er. apply scan_end. apply fromLine_inside. exact Hc.
Qed.

Lemma dockerfile_bare_from_reads_next_line_witness :
  validateDockerfile (str "FROM" ++ LF :: str "RUN apt-get update") =
  Normal [dockerNoTagMessage (str "RUN")].
Proof.
  exact (@dockerfile_bare_from_reads_next_line (str "RUN") (str " apt-get update")
           ltac:(discriminate) eq_refl eq_refl eq_refl eq_refl).
Defined.
(* ================================================================== *)
(** * The [uses:] matcher *)
(* ================================================================== *)

Lemma succeeds_app_nil l : succeeds (l ++ []) = succeeds l.
Proof. rewrite app_nil_r. reflexivity. Qed.

Lemma test_semver s :
  test (literal Re.semverRegex false false false) s = isSemverTag s.
Proof.
  change Re.semverRegex
    with (seq [Bol; Char (ch "v"); digits; Char (ch "."); digits;
               Char (ch "."); digits; Eol]).
  rewrite test_anchored. fold plainFlags. unfold digits.
  rewrite m_seq_cons. cbn [m]. unfold step, mk, char_match.
  cbn [after before caps ignoreCase plainFlags].
  destruct s as [|v numbers]; [reflexivity|].
  cbn [isSemverTag]. rewrite (N.eqb_sym v (ch "v")).
  destruct (N.eqb (ch "v") v); [|reflexivity].
  cbn [flat_map andb]. rewrite succeeds_app_nil.
  fold (mk [v] numbers []). rewrite m_seq_cons.
  rewrite <- (span_ext (class_match plainFlags false [CDigit]) isDigit numbers
                       digit_class).
  destruct (span (class_match plainFlags false [CDigit]) numbers)
    as [a rest] eqn:Esp.
  destruct (span_spec _ numbers Esp) as [-> [Ha Hr]].
  rewrite (plus_only_last plainFlags (Class false [CDigit])
             (m plainFlags
                (seq [Char (ch "."); plus (Class false [CDigit]); Char (ch ".");
                      plus (Class false [CDigit]); Eol]))
             eq_refl).
  - destruct a as [|c a]; [reflexivity|]. cbn [nonempty andb].
    rewrite m_seq_cons. destruct rest as [|d minorPatch].
    + rewrite m_Char_fails by exact I. reflexivity.
    + cbn [m]. unfold step, mk, char_match.
      cbn [after before caps ignoreCase plainFlags].
      rewrite (N.eqb_sym d (ch ".")).
      destruct (N.eqb (ch ".") d); [|reflexivity].
      cbn [flat_map andb]. rewrite succeeds_app_nil.
      exact (majorMinor_body (d :: rev (c :: a) ++ [v]) minorPatch []).
  - intros bef' c aft cs' Hc. rewrite m_seq_cons.
    rewrite m_Char_fails; [reflexivity|].
    unfold char_match. cbn [ignoreCase plainFlags].
    apply digit_not_dot. rewrite <- digit_class. exact Hc.
  - exact Ha.
  - exact Hr.
Qed.

(** The two branch names are no version tags, so the first two tests of the
    condition add nothing to the third. *)
Lemma actionFails_semver mr :
  actionFails mr = negb (isSemverTag (captured 2 mr)).
Proof.
  unfold actionFails. rewrite test_semver.
  destruct (jseq (captured 2 mr) (str "main")) eqn:E1.
  - apply jseq_eq in E1. rewrite E1. reflexivity.
  - destruct (jseq (captured 2 mr) (str "master")) eqn:E2; [|reflexivity].
    apply jseq_eq in E2. rewrite E2. reflexivity.
Qed.

Lemma actionRegex_shape :
  Re.actionRegex =
  seq (map Char (ch "u" :: str "ses:")
       ++ [plus ws; Group 1 (plus (not_of [CChar (ch "@")])); Char (ch "@");
           Group 2 (plus (not_of [CSpace]))]).
Proof. reflexivity. Qed.

Lemma node_ws_class c : class_match nodeFlags false [CSpace] c = isSpace c.
Proof.
  unfold class_match, set_mem. cbn [ignoreCase nodeFlags existsb atom_mem].
  destruct (isSpace c); reflexivity.
Qed.

Lemma node_notSpace_class c :
  class_match nodeFlags true [CSpace] c = negb (isSpace c).
Proof.
  unfold class_match, set_mem. cbn [ignoreCase nodeFlags existsb atom_mem].
  destruct (isSpace c); reflexivity.
Qed.

Lemma node_not_char_class x c :
  class_match nodeFlags true [CChar x] c = negb (N.eqb x c).
Proof.
  unfold class_match, set_mem. cbn [ignoreCase nodeFlags existsb atom_mem].
  destruct (N.eqb x c); reflexivity.
Qed.

Lemma actionChars_first c action :
  actionChars (c :: action) = true -> isSpace c = false.
Proof.
  unfold actionChars. simpl. intros H. apply andb_true_iff in H.
  destruct H as [H _]. apply andb_true_iff in H. destruct H as [_ H].
  apply negb_true_iff. exact H.
Qed.

Lemma actionChars_noAt action :
  actionChars action = true ->
  forallb (class_match nodeFlags true [CChar (ch "@")]) action = true.
Proof.
  unfold actionChars. intros H. rewrite forallb_forall in *. intros c Hc.
  specialize (H c Hc). apply andb_true_iff in H. destruct H as [H _].
  rewrite node_not_char_class. exact H.
Qed.

Lemma node_stops_tag rest :
  afterReference rest -> stops (class_match nodeFlags true [CSpace]) rest.
Proof.
  destruct rest as [|c rest]; unfold afterReference, stops; [auto|]. intros H.
  rewrite node_notSpace_class, H. reflexivity.
Qed.

(** One match: the literal text the pattern begins with occurs neither
    before it nor after it. *)
Lemma line_one_match r c0 w rs pre aft y rest :
  r = seq (map Char (c0 :: w) ++ rs) ->
  without c0 w = true ->
  includes pre (c0 :: w) = false ->
  first_is (m nodeFlags r (mk (rev pre ++ []) (c0 :: w ++ aft) [])) y ->
  after y = rest ->
  endIndex y <> length (rev pre ++ []) ->
  includes rest (c0 :: w) = false ->
  allMatches r false (pre ++ c0 :: w ++ aft) =
  [mk_result (length (rev pre ++ []), y)].
Proof.
  intros -> Hw Hi F Ha Hne Hn.
  apply (@allMatches_one _ false (pre ++ c0 :: w ++ aft) _ y).
  - fold nodeFlags.
    rewrite (@scan_skip_prefix nodeFlags c0 w rs eq_refl Hw pre [] aft Hi).
    exact (@scan_first nodeFlags _ (rev pre ++ []) (c0 :: w ++ aft) y F).
  - exact Hne.
  - rewrite Ha. fold nodeFlags.
    exact (@scan_no_occurrence nodeFlags (c0 :: w) rs eq_refl
             ltac:(discriminate) rest (before y) Hn).
Qed.

Lemma uses_first bef spaces action ref rest :
  spaces <> [] -> forallb isSpace spaces = true ->
  action <> [] -> actionChars action = true ->
  ref <> [] -> tagChars ref = true ->
  afterReference rest ->
  first_is (m nodeFlags Re.actionRegex
              (mk bef (str "uses:" ++ spaces ++ action ++ ch "@" :: ref ++ rest)
                  []))
           (mk (rev ref ++ ch "@" :: rev action ++ rev spaces
                    ++ rev (str "uses:") ++ bef)
               rest (cap_set 2 ref (cap_set 1 action []))).
Proof.
  intros Hsn Hs Han Ha Hrn Hr Hrest. rewrite actionRegex_shape.
  apply (@first_chars nodeFlags (ch "u" :: str "ses:") _ bef _ []
           (str "uses:") (spaces ++ action ++ ch "@" :: ref ++ rest));
    [reflexivity|].
  destruct action as [|c action]; [contradiction|].
  eapply first_seq_cons.
  { exact (@first_plus nodeFlags ws (class_match nodeFlags false [CSpace])
             spaces ((c :: action) ++ ch "@" :: ref ++ rest)
             (rev (str "uses:") ++ bef) []
             eq_refl Hsn (forallb_eq _ _ spaces node_ws_class Hs)
             ltac:(unfold stops; cbn [app]; rewrite node_ws_class;
                   exact (@actionChars_first c action Ha))). }
  eapply first_seq_cons.
  { apply (@first_Group nodeFlags 1 _ (c :: action)).
    exact (@first_plus nodeFlags (not_of [CChar (ch "@")])
             (class_match nodeFlags true [CChar (ch "@")])
             (c :: action) (ch "@" :: ref ++ rest)
             (rev spaces ++ rev (str "uses:") ++ bef) []
             eq_refl Han (actionChars_noAt (c :: action) Ha) eq_refl). }
  eapply first_seq_cons; [apply first_Char; reflexivity|].
  eapply first_seq_cons; [|apply first_seq_nil].
  apply (@first_Group nodeFlags 2 _ ref
           (ch "@" :: rev (c :: action) ++ rev spaces
               ++ rev (str "uses:") ++ bef)).
  exact (@first_plus nodeFlags (not_of [CSpace])
           (class_match nodeFlags true [CSpace])
           ref rest (ch "@" :: rev (c :: action) ++ rev spaces
                        ++ rev (str "uses:") ++ bef)
           (cap_set 1 (c :: action) [])
           eq_refl Hrn (forallb_eq _ _ ref node_notSpace_class Hr)
           (node_stops_tag rest Hrest)).
Qed.

Lemma uses_matches indent spaces action ref rest :
  includes indent (str "uses:") = false ->
  spaces <> [] -> forallb isSpace spaces = true ->
  action <> [] -> actionChars action = true ->
  ref <> [] -> tagChars ref = true ->
  afterReference rest -> includes rest (str "uses:") = false ->
  exists mr,
    allMatches Re.actionRegex false (usesLine indent spaces action ref rest)
      = [mr] /\
    group 1 mr = Some action /\ group 2 mr = Some ref.
Proof.
  intros Hi Hsn Hs Han Ha Hrn Hr Hrest Hn. eexists. split; [|split].
  - unfold usesLine.
    apply (@line_one_match _ (ch "u") (str "ses:") _ indent _ _ rest
             actionRegex_shape eq_refl Hi
             (@uses_first (rev indent ++ []) spaces action ref rest
                Hsn Hs Han Ha Hrn Hr Hrest) eq_refl); [|exact Hn].
    unfold endIndex, mk. cbn [before length].
    repeat (progress (rewrite ?length_app; cbn [length])). lia.
  - unfold mk_result, mk, group. cbn [mcaps caps].
    rewrite cap_get_set_other by discriminate. apply cap_get_set_same.
  - unfold mk_result, mk, group. cbn [mcaps caps]. apply cap_get_set_same.
Qed.

(** X6. The workflow matcher emits one warning for each occurrence of
    [uses:], white space, an action and a reference after an at sign, whose
    reference is not the letter v and three dot-separated numbers, and
    nothing else: the comparisons with the branch names main and master
    change nothing.  A text with one such occurrence yields that one warning,
    naming the action and the reference, exactly when the reference is not of
    that form. *)
Theorem actions_matcher_flags_all_but_semver :
  forall (content indent spaces action ref rest : jsstring),
    includes indent (str "uses:") = false ->
    spaces <> [] -> forallb isSpace spaces = true ->
    action <> [] -> actionChars action = true ->
    ref <> [] -> tagChars ref = true ->
    afterReference rest -> includes rest (str "uses:") = false ->
    validateGitHubActions content =
      Normal (map (fun mr => actionMessage (captured 1 mr) (captured 2 mr))
                  (filter (fun mr => negb (isSemverTag (captured 2 mr)))
                          (allMatches Re.actionRegex false content))) /\
    validateGitHubActions (usesLine indent spaces action ref rest) =
      Normal (if isSemverTag ref then [] else [actionMessage action ref]) /\
    includes (actionMessage action ref) action = true /\
    includes (actionMessage action ref) ref = true.
Proof.
  intros content indent spaces action ref rest Hi Hsn Hs Han Ha Hrn Hr Hrest Hn.
  split; [|split].
  - rewrite validateGitHubActions_matches.
    rewrite (filter_ext _ _ actionFails_semver). reflexivity.
  - rewrite validateGitHubActions_matches.
    destruct (@uses_matches indent spaces action ref rest
                Hi Hsn Hs Han Ha Hrn Hr Hrest Hn) as [mr [E [G1 G2]]].
    rewrite E. cbn [filter]. rewrite actionFails_semver.
    unfold captured. rewrite G2. cbn [interp].
    destruct (isSemverTag ref); [reflexivity|].
    cbn [negb map]. rewrite G1, G2. reflexivity.
  - split; unfold actionMessage; spliced.
Qed.

Lemma actions_matcher_flags_all_but_semver_witness :
  validateGitHubActions
    (join [LF] [str "    steps:"; str "      - uses: actions/checkout@v4";
                str "      - run: make"]) =
    Normal [actionMessage (str "actions/checkout") (str "v4")] /\
  validateGitHubActions
    (join [LF] [str "    steps:"; str "      - uses: actions/checkout@v4.1.7";
                str "      - run: make"]) = Normal [].
Proof.
  split.
  - exact (proj1 (proj2 (@actions_matcher_flags_all_but_semver
             [] (str "    steps:" ++ LF :: str "      - ") (str " ")
             (str "actions/checkout") (str "v4")
             (LF :: str "      - run: make")
             eq_refl ltac:(discriminate) eq_refl ltac:(discriminate) eq_refl
             ltac:(discriminate) eq_refl eq_refl eq_refl))).
  - exact (proj1 (proj2 (@actions_matcher_flags_all_but_semver
             [] (str "    steps:" ++ LF :: str "      - ") (str " ")
             (str "actions/checkout") (str "v4.1.7")
             (LF :: str "      - run: make")
             eq_refl ltac:(discriminate) eq_refl ltac:(discriminate) eq_refl
             ltac:(discriminate) eq_refl eq_refl eq_refl))).
Defined.

(* ================================================================== *)
(** * The image lines of manifests *)
(* ================================================================== *)

Lemma looseTag_shapes c tag : looseTag (Some (c :: tag)) = isLooseTag (c :: tag).
Proof.
  unfold looseTag, isLooseTag, strict_eq, interp, truthy.
  rewrite test_integer, test_majorMinor. cbn [negb orb]. reflexivity.
Qed.

Lemma k8sImageRegex_shape :
  Re.k8sImageRegex =
  seq (map Char (ch "i" :: str "mage:")
       ++ [star ws;
           Group 1 (plus (not_of [CChar (ch ":"); CSpace]));
           opt (Seq (Char (ch ":")) (Group 2 (plus (not_of [CSpace]))))]).
Proof. reflexivity. Qed.

Lemma node_image_class c :
  class_match nodeFlags true [CChar (ch ":"); CSpace] c =
  negb (N.eqb (ch ":") c) && negb (isSpace c).
Proof.
  unfold class_match, set_mem. cbn [ignoreCase nodeFlags existsb atom_mem].
  destruct (N.eqb (ch ":") c), (isSpace c); reflexivity.
Qed.

Lemma node_stops_image rest :
  afterReference rest ->
  stops (class_match nodeFlags true [CChar (ch ":"); CSpace]) rest.
Proof.
  destruct rest as [|c rest]; unfold afterReference, stops; [auto|]. intros H.
  rewrite node_image_class, H. apply andb_false_r.
Qed.

Lemma afterReference_no_colon fl rest bef cs :
  afterReference rest -> m fl (Char (ch ":")) (mk bef rest cs) = [].
Proof.
  intros Hr. apply m_Char_fails. destruct rest as [|d rest]; [exact I|].
  unfold afterReference in Hr. unfold char_match.
  assert (E : N.eqb (ch ":") d = false).
  { destruct (N.eqb (ch ":") d) eqn:Ed; [|reflexivity].
    apply N.eqb_eq in Ed. subst d. discriminate Hr. }
  assert (E2 : N.eqb (canonicalize (ch ":")) (canonicalize d) = false).
  { destruct (N.eqb (canonicalize (ch ":")) (canonicalize d)) eqn:Ed;
      [|reflexivity].
    apply N.eqb_eq in Ed. unfold canonicalize in Ed.
    destruct (in_range 97%N 122%N d) eqn:Er.
    - unfold in_range in Er. apply andb_true_iff in Er. destruct Er as [E1 E3].
      apply N.leb_le in E1. apply N.leb_le in E3.
      change (58%N = (d - 32)%N) in Ed. lia.
    - change (58%N = d) in Ed. subst d. discriminate Hr. }
  destruct (ignoreCase fl); assumption.
Qed.

Lemma k8s_untagged_first bef spaces image rest :
  forallb isSpace spaces = true ->
  image <> [] -> imageChars image = true ->
  afterReference rest ->
  first_is (m nodeFlags Re.k8sImageRegex
              (mk bef (str "image:" ++ spaces ++ image ++ rest) []))
           (mk (rev image ++ rev spaces ++ rev (str "image:") ++ bef) rest
               (cap_set 1 image [])).
Proof.
  intros Hs Hin Hi Hr. rewrite k8sImageRegex_shape.
  apply (@first_chars nodeFlags (ch "i" :: str "mage:") _ bef _ []
           (str "image:") (spaces ++ image ++ rest)); [reflexivity|].
  destruct image as [|c image]; [contradiction|].
  eapply first_seq_cons.
  { exact (@first_star nodeFlags ws (class_match nodeFlags false [CSpace])
             spaces ((c :: image) ++ rest) (rev (str "image:") ++ bef) []
             eq_refl (forallb_eq _ _ spaces node_ws_class Hs)
             ltac:(unfold stops; cbn [app]; rewrite node_ws_class;
                   exact (image_first c image Hi))). }
  eapply first_seq_cons.
  { apply (@first_Group nodeFlags 1 _ (c :: image)).
    exact (@first_plus nodeFlags (not_of [CChar (ch ":"); CSpace])
             (class_match nodeFlags true [CChar (ch ":"); CSpace])
             (c :: image) rest (rev spaces ++ rev (str "image:") ++ bef) []
             eq_refl Hin (forallb_eq _ _ (c :: image) node_image_class Hi)
             (node_stops_image rest Hr)). }
  eapply first_seq_cons; [|apply first_seq_nil].
  apply (@first_opt_skipped nodeFlags _
           (mk (rev (c :: image) ++ rev spaces ++ rev (str "image:") ++ bef) rest
               (cap_set 1 (c :: image) []))).
  cbn [before after caps mk]. apply m_Seq_fails.
  exact (@afterReference_no_colon nodeFlags rest _ _ Hr).
Qed.

Lemma k8s_tagged_first bef spaces image tag rest :
  forallb isSpace spaces = true ->
  image <> [] -> imageChars image = true ->
  tag <> [] -> tagChars tag = true ->
  afterReference rest ->
  first_is (m nodeFlags Re.k8sImageRegex
              (mk bef (str "image:" ++ spaces ++ image ++ ch ":" :: tag ++ rest)
                  []))
           (mk (rev tag ++ ch ":" :: rev image ++ rev spaces
                    ++ rev (str "image:") ++ bef) rest
               (cap_set 2 tag (cap_set 1 image []))).
Proof.
  intros Hs Hin Hi Htn Ht Hr. rewrite k8sImageRegex_shape.
  set (bef1 := rev image ++ rev spaces ++ rev (str "image:") ++ bef).
  apply (@first_chars nodeFlags (ch "i" :: str "mage:") _ bef _ []
           (str "image:") (spaces ++ image ++ ch ":" :: tag ++ rest));
    [reflexivity|].
  destruct image as [|c image]; [contradiction|].
  eapply first_seq_cons.
  { exact (@first_star nodeFlags ws (class_match nodeFlags false [CSpace])
             spaces ((c :: image) ++ ch ":" :: tag ++ rest)
             (rev (str "image:") ++ bef) []
             eq_refl (forallb_eq _ _ spaces node_ws_class Hs)
             ltac:(unfold stops; cbn [app]; rewrite node_ws_class;
                   exact (image_first c image Hi))). }
  eapply first_seq_cons.
  { apply (@first_Group nodeFlags 1 _ (c :: image)).
    exact (@first_plus nodeFlags (not_of [CChar (ch ":"); CSpace])
             (class_match nodeFlags true [CChar (ch ":"); CSpace])
             (c :: image) (ch ":" :: tag ++ rest)
             (rev spaces ++ rev (str "image:") ++ bef) []
             eq_refl Hin (forallb_eq _ _ (c :: image) node_image_class Hi)
             eq_refl). }
  eapply first_seq_cons; [|apply first_seq_nil].
  fold bef1.
  apply (@first_opt_taken nodeFlags _
           (mk bef1 (ch ":" :: tag ++ rest) (cap_set 1 (c :: image) []))
           (mk (rev tag ++ ch ":" :: bef1) rest
               (cap_set 2 tag (cap_set 1 (c :: image) [])))).
  - cbn [before after caps mk].
    apply (@first_Seq nodeFlags _ _ _
             (mk (ch ":" :: bef1) (tag ++ rest) (cap_set 1 (c :: image) []))).
    + apply first_Char. reflexivity.
    + change (rev tag ++ ch ":" :: bef1) with (rev tag ++ (ch ":" :: bef1)).
      apply (@first_Group nodeFlags 2 _ tag).
      exact (@first_plus nodeFlags (not_of [CSpace])
               (class_match nodeFlags true [CSpace])
               tag rest (ch ":" :: bef1) (cap_set 1 (c :: image) [])
               eq_refl Htn (forallb_eq _ _ tag node_notSpace_class Ht)
               (node_stops_tag rest Hr)).
  - unfold endIndex, mk. cbn [before]. rewrite length_app. simpl. lia.
Qed.

Lemma image_line_one_match r rs pre aft y rest :
  r = seq (map Char (ch "i" :: str "mage:") ++ rs) ->
  includes pre (str "image:") = false ->
  first_is (m nodeFlags r (mk (rev pre ++ []) (str "image:" ++ aft) [])) y ->
  after y = rest ->
  endIndex y <> length (rev pre ++ []) ->
  includes rest (str "image:") = false ->
  allMatches r false (pre ++ str "image:" ++ aft) =
  [mk_result (length (rev pre ++ []), y)].
Proof.
  intros E. exact (@line_one_match r (ch "i") (str "mage:") rs pre aft y rest
                     E eq_refl).
Qed.

Lemma k8s_untagged_matches indent spaces image rest :
  includes indent (str "image:") = false ->
  forallb isSpace spaces = true ->
  image <> [] -> imageChars image = true ->
  afterReference rest -> includes rest (str "image:") = false ->
  exists mr,
    allMatches Re.k8sImageRegex false (imageLine indent spaces image rest) = [mr] /\
    group 1 mr = Some image /\ group 2 mr = None.
Proof.
  intros Hi Hs Hin Him Hr Hn. eexists. split; [|split].
  - unfold imageLine.
    apply (@image_line_one_match _ _ indent _ _ rest k8sImageRegex_shape Hi
             (@k8s_untagged_first (rev indent ++ []) spaces image rest
                Hs Hin Him Hr) eq_refl); [|exact Hn].
    unfold endIndex, mk. cbn [before].
    rewrite ?length_app. cbn [length]. rewrite ?length_app, ?length_rev.
    change (length (str "image:")) with 6. lia.
  - reflexivity.
  - reflexivity.
Qed.

Lemma k8s_tagged_matches indent spaces image tag rest :
  includes indent (str "image:") = false ->
  forallb isSpace spaces = true ->
  image <> [] -> imageChars image = true ->
  tag <> [] -> tagChars tag = true ->
  afterReference rest -> includes rest (str "image:") = false ->
  exists mr,
    allMatches Re.k8sImageRegex false
               (imageLine indent spaces (image ++ ch ":" :: tag) rest) = [mr] /\
    group 1 mr = Some image /\ group 2 mr = Some tag.
Proof.
  intros Hi Hs Hin Him Htn Ht Hr Hn. eexists. split; [|split].
  - unfold imageLine. rewrite <- (app_assoc image). cbn [app].
    apply (@image_line_one_match _ _ indent _ _ rest k8sImageRegex_shape Hi
             (@k8s_tagged_first (rev indent ++ []) spaces image tag rest
                Hs Hin Him Htn Ht Hr) eq_refl); [|exact Hn].
    unfold endIndex, mk. cbn [before].
    rewrite ?length_app. cbn [length]. rewrite ?length_app, ?length_rev.
    change (length (str "image:")) with 6. lia.
  - unfold mk_result, mk, group. cbn [mcaps caps].
    rewrite cap_get_set_other by discriminate. apply cap_get_set_same.
  - unfold mk_result, mk, group. cbn [mcaps caps]. apply cap_get_set_same.
Qed.

(** X7. A manifest line with one image reference: without a tag the
    Kubernetes matcher warns and names the tag latest; with a tag it warns
    exactly when the tag is the word latest, a bare integer or a major.minor
    pair.  Other text may follow the reference after white space. *)
Theorem kubernetes_image_line :
  forall (indent spaces image tag rest : jsstring),
    includes indent (str "image:") = false ->
    forallb isSpace spaces = true ->
    image <> [] -> imageChars image = true ->
    tag <> [] -> tagChars tag = true ->
    afterReference rest -> includes rest (str "image:") = false ->
    validateKubernetesManifest (imageLine indent spaces image rest) =
      Normal [kubernetesMessage image (str "latest")] /\
    validateKubernetesManifest
      (imageLine indent spaces (image ++ ch ":" :: tag) rest) =
      Normal (if isLooseTag tag then [kubernetesMessage image tag] else []).
Proof.
  intros indent spaces image tag rest Hi Hs Hin Him Htn Ht Hr Hn. split.
  - destruct (@k8s_untagged_matches indent spaces image rest Hi Hs Hin Him Hr Hn)
      as [mr [E [G1 G2]]].
    rewrite validateKubernetesManifest_matches, E. cbn [filter].
    unfold imageFails. rewrite G2. change (looseTag None) with true.
    cbn [map]. unfold captured. rewrite G1, G2. reflexivity.
  - destruct (@k8s_tagged_matches indent spaces image tag rest
                Hi Hs Hin Him Htn Ht Hr Hn) as [mr [E [G1 G2]]].
    rewrite validateKubernetesManifest_matches, E. cbn [filter].
    unfold imageFails. rewrite G2.
    destruct tag as [|c tag]; [contradiction|]. rewrite looseTag_shapes.
    destruct (isLooseTag (c :: tag)); [|reflexivity].
    cbn [map]. unfold captured. rewrite G1, G2. reflexivity.
Qed.

Lemma kubernetes_image_line_witness :
  validateKubernetesManifest (str "        - image: nginx # web") =
    Normal [kubernetesMessage (str "nginx") (str "latest")] /\
  validateKubernetesManifest (str "        - image: nginx:1.25 # web") =
    Normal [kubernetesMessage (str "nginx") (str "1.25")].
Proof.
  exact (@kubernetes_image_line (str "        - ") (str " ") (str "nginx")
           (str "1.25") (str " # web")
           eq_refl eq_refl ltac:(discriminate) eq_refl ltac:(discriminate)
           eq_refl eq_refl eq_refl).
Defined.

Lemma isInteger_digits s : isInteger s = true -> forallb isDigit s = true.
Proof. unfold isInteger. intros H. apply andb_true_iff in H. tauto. Qed.

Lemma isMajorMinor_chars s :
  isMajorMinor s = true ->
  forallb (fun c => isDigit c || N.eqb c (ch ".")) s = true.
Proof.
  unfold isMajorMinor. destruct (span isDigit s) as [major r] eqn:E.
  apply span_spec in E. destruct E as [-> [Hm _]]. intros H.
  apply andb_true_iff in H. destruct H as [_ H].
  destruct r as [|dot minor]; [discriminate|].
  apply andb_true_iff in H. destruct H as [Hd Hi].
  apply isInteger_digits in Hi. rewrite forallb_app. cbn [forallb].
  rewrite Hd, orb_true_r. rewrite forallb_forall in *.
  apply andb_true_iff. split.
  - apply forallb_forall. intros c Hc. rewrite (Hm c Hc). reflexivity.
  - apply forallb_forall. intros c Hc. rewrite (Hi c Hc). reflexivity.
Qed.

Lemma isQuote_cases q : isQuote q = true -> q = SQ \/ q = DQ.
Proof.
  unfold isQuote. intros H. apply orb_true_iff in H.
  destruct H as [H|H]; apply N.eqb_eq in H; auto.
Qed.

Lemma isLooseTag_quoted tag q : isQuote q = true -> isLooseTag (tag ++ [q]) = false.
Proof.
  intros Hq. unfold isLooseTag.
  assert (D : isDigit q || N.eqb q (ch ".") = false)
    by (destruct (isQuote_cases q Hq); subst q; reflexivity).
  destruct (jseq (tag ++ [q]) (str "latest")) eqn:E1.
  { apply jseq_eq in E1. change (str "latest") with (str "lates" ++ [ch "t"]) in E1.
    apply app_inj_tail in E1. destruct E1 as [_ ->]. discriminate Hq. }
  destruct (isInteger (tag ++ [q])) eqn:E2.
  { apply isInteger_digits in E2. rewrite forallb_app in E2.
    apply andb_true_iff in E2. destruct E2 as [_ E2]. cbn [forallb] in E2.
    apply orb_false_iff in D. destruct D as [D _]. rewrite D in E2.
    discriminate E2. }
  destruct (isMajorMinor (tag ++ [q])) eqn:E3; [|reflexivity].
  apply isMajorMinor_chars in E3. rewrite forallb_app in E3.
  apply andb_true_iff in E3. destruct E3 as [_ E3]. cbn [forallb] in E3.
  rewrite D in E3. discriminate E3.
Qed.

Lemma isQuote_chars q :
  isQuote q = true -> negb (N.eqb (ch ":") q) && negb (isSpace q) = true.
Proof. intros H. destruct (isQuote_cases q H); subst q; reflexivity. Qed.

(** X8. The Kubernetes matcher does not know quotes: around a quoted
    reference with a colon the closing quote becomes part of the tag, which
    is then never the word latest, an integer or a major.minor pair, so the
    line yields no warning whatever the tag. *)
Theorem kubernetes_quoted_reference_never_flagged :
  forall (indent spaces image tag rest : jsstring) (q : char),
    includes indent (str "image:") = false ->
    forallb isSpace spaces = true ->
    isQuote q = true ->
    imageChars image = true -> tagChars tag = true ->
    afterReference rest -> includes rest (str "image:") = false ->
    validateKubernetesManifest
      (imageLine indent spaces (q :: image ++ ch ":" :: tag ++ [q]) rest) =
      Normal [].
Proof.
  intros indent spaces image tag rest q Hi Hs Hq Him Ht Hr Hn.
  assert (Hq' := isQuote_chars q Hq).
  assert (Him' : imageChars (q :: image) = true).
  { unfold imageChars in *. cbn [forallb]. rewrite Hq', Him. reflexivity. }
  assert (Ht' : tagChars (tag ++ [q]) = true).
  { unfold tagChars in *. rewrite forallb_app, Ht. cbn [forallb].
    apply andb_true_iff in Hq'. destruct Hq' as [_ ->]. reflexivity. }
  destruct (@k8s_tagged_matches indent spaces (q :: image) (tag ++ [q]) rest
              Hi Hs ltac:(discriminate)
              Him' ltac:(destruct tag; discriminate) Ht' Hr Hn)
    as [mr [E [G1 G2]]].
  change (q :: image ++ ch ":" :: tag ++ [q])
    with ((q :: image) ++ ch ":" :: tag ++ [q]).
  rewrite validateKubernetesManifest_matches, E. cbn [filter].
  unfold imageFails. rewrite G2.
  destruct (tag ++ [q]) as [|c t] eqn:Et; [destruct tag; discriminate|].
  rewrite looseTag_shapes, <- Et, (isLooseTag_quoted tag q Hq). reflexivity.
Qed.

Lemma kubernetes_quoted_reference_never_flagged_witness :
  validateKubernetesManifest (str "image: 'nginx:latest'") = Normal [].
Proof.
  exact (@kubernetes_quoted_reference_never_flagged [] (str " ") (str "nginx")
           (str "latest") [] SQ eq_refl eq_refl eq_refl eq_refl eq_refl I eq_refl).
Defined.

(* ---------------------------------------------------------------- *)
(** ** The Compose matcher *)

Lemma composeImageRegex_shape :
  Re.composeImageRegex =
  seq (map Char (ch "i" :: str "mage:")
       ++ [star ws; opt (Class false [CChar SQ; CChar DQ]);
           Group 1 (plus (not_of [CChar (ch ":"); CSpace; CChar SQ; CChar DQ]));
           opt (Seq (Char (ch ":"))
                    (Group 2 (plus (not_of [CSpace; CChar SQ; CChar DQ]))));
           opt (Class false [CChar SQ; CChar DQ])]).
Proof. reflexivity. Qed.

Lemma quote_class c :
  class_match nodeFlags false [CChar SQ; CChar DQ] c = isQuote c.
Proof.
  unfold class_match, set_mem, isQuote.
  cbn [ignoreCase nodeFlags existsb atom_mem xorb].
  destruct (N.eqb SQ c), (N.eqb DQ c); reflexivity.
Qed.

Lemma compose_image_class c :
  class_match nodeFlags true [CChar (ch ":"); CSpace; CChar SQ; CChar DQ] c =
  negb (N.eqb (ch ":") c) && negb (isSpace c) && negb (isQuote c).
Proof.
  unfold class_match, set_mem, isQuote.
  cbn [ignoreCase nodeFlags existsb atom_mem].
  destruct (N.eqb (ch ":") c), (isSpace c), (N.eqb SQ c), (N.eqb DQ c);
    reflexivity.
Qed.

Lemma compose_tag_class c :
  class_match nodeFlags true [CSpace; CChar SQ; CChar DQ] c =
  negb (isSpace c) && negb (isQuote c).
Proof.
  unfold class_match, set_mem, isQuote.
  cbn [ignoreCase nodeFlags existsb atom_mem].
  destruct (isSpace c), (N.eqb SQ c), (N.eqb DQ c); reflexivity.
Qed.

(** An optional single character: taken when it is there. *)
Lemma first_opt_single fl r P q rest bef cs :
  single fl r = Some P ->
  match q with
  | [] => stops P rest
  | [c] => P c = true
  | _ => False
  end ->
  first_is (m fl (opt r) (mk bef (q ++ rest) cs)) (mk (rev q ++ bef) rest cs).
Proof.
  intros Hs Hq. apply single_step in Hs. destruct Hs as [Hg Hs].
  destruct q as [|c [|d q]]; [| |contradiction].
  - apply first_opt_skipped. rewrite Hg, Hs. unfold step. cbn [mk after app].
    destruct rest as [|a rest]; [reflexivity|]. simpl in Hq. rewrite Hq.
    reflexivity.
  - apply (@first_opt_taken fl r (mk bef ([c] ++ rest) cs)
             (mk (rev [c] ++ bef) rest cs)).
    + rewrite Hg, Hs. unfold step. cbn [mk after before caps app rev].
      rewrite cap_clear_nil, Hq. eexists. reflexivity.
    + unfold endIndex, mk. cbn [before rev app length]. lia.
Qed.

Lemma optionalQuote_first q rest :
  optionalQuote q = true ->
  stops (class_match nodeFlags false [CChar SQ; CChar DQ]) rest ->
  match q with
  | [] => stops (class_match nodeFlags false [CChar SQ; CChar DQ]) rest
  | [c] => class_match nodeFlags false [CChar SQ; CChar DQ] c = true
  | _ => False
  end.
Proof.
  intros Hq Hr. destruct q as [|c [|d q]]; [exact Hr| |discriminate Hq].
  rewrite quote_class. exact Hq.
Qed.

Lemma composeImage_first c image :
  composeImageChars (c :: image) = true -> isSpace c = false /\ isQuote c = false.
Proof.
  unfold composeImageChars. cbn [forallb]. intros H.
  apply andb_true_iff in H. destruct H as [H _].
  apply andb_true_iff in H. destruct H as [H H2].
  apply andb_true_iff in H. destruct H as [_ H1].
  apply negb_true_iff in H1. apply negb_true_iff in H2. auto.
Qed.

Lemma composeTag_first c tag :
  composeTagChars (c :: tag) = true -> isSpace c = false /\ isQuote c = false.
Proof.
  unfold composeTagChars. cbn [forallb]. intros H.
  apply andb_true_iff in H. destruct H as [H _].
  apply andb_true_iff in H. destruct H as [H1 H2].
  apply negb_true_iff in H1. apply negb_true_iff in H2. auto.
Qed.

Lemma quoted_not_space q c image :
  optionalQuote q = true -> composeImageChars (c :: image) = true ->
  stops (class_match nodeFlags false [CSpace]) (q ++ (c :: image)).
Proof.
  intros Hq Hi. destruct q as [|d [|e q]]; [| |discriminate Hq].
  - unfold stops. cbn [app]. rewrite node_ws_class.
    apply (composeImage_first c image Hi).
  - unfold stops. cbn [app]. rewrite node_ws_class. cbn [optionalQuote] in Hq.
    destruct (isQuote_cases d Hq); subst d; reflexivity.
Qed.

Lemma afterReference_stops P rest :
  (forall c, isSpace c = true -> P c = false) ->
  afterReference rest -> stops P rest.
Proof.
  intros H Hr. destruct rest as [|c rest]; [exact I|]. exact (H c Hr).
Qed.

Lemma space_not_quote c : isSpace c = true -> isQuote c = false.
Proof.
  intros H. destruct (isQuote c) eqn:E; [|reflexivity].
  destruct (isQuote_cases c E); subst c; discriminate H.
Qed.

(** What may end the run of a name or a tag: the closing quote, or what
    follows the reference. *)
Lemma closing_stops P q rest :
  (forall c, isSpace c = true -> P c = false) ->
  (forall c, isQuote c = true -> P c = false) ->
  optionalQuote q = true -> afterReference rest -> stops P (q ++ rest).
Proof.
  intros Hs Hq Ho Hr. destruct q as [|d [|e q]]; [| |discriminate Ho].
  - exact (afterReference_stops P rest Hs Hr).
  - exact (Hq d Ho).
Qed.

Lemma compose_image_stops q rest :
  optionalQuote q = true -> afterReference rest ->
  stops (class_match nodeFlags true [CChar (ch ":"); CSpace; CChar SQ; CChar DQ])
        (q ++ rest).
Proof.
  apply closing_stops; intros c H; rewrite compose_image_class, H;
    rewrite ?andb_false_r; reflexivity.
Qed.

Lemma compose_tag_stops q rest :
  optionalQuote q = true -> afterReference rest ->
  stops (class_match nodeFlags true [CSpace; CChar SQ; CChar DQ]) (q ++ rest).
Proof.
  apply closing_stops; intros c H; rewrite compose_tag_class, H;
    rewrite ?andb_false_r; reflexivity.
Qed.

Lemma closing_no_colon q rest bef cs :
  optionalQuote q = true -> afterReference rest ->
  m nodeFlags (Char (ch ":")) (mk bef (q ++ rest) cs) = [].
Proof.
  intros Ho Hr. destruct q as [|d [|e q]]; [| |discriminate Ho].
  - exact (@afterReference_no_colon nodeFlags rest bef cs Hr).
  - apply m_Char_fails. cbn [app optionalQuote] in *.
    destruct (isQuote_cases d Ho); subst d; reflexivity.
Qed.

Lemma closing_quote_first q rest bef cs :
  optionalQuote q = true -> afterReference rest ->
  first_is (m nodeFlags (opt (Class false [CChar SQ; CChar DQ]))
              (mk bef (q ++ rest) cs))
           (mk (rev q ++ bef) rest cs).
Proof.
  intros Ho Hr.
  apply (@first_opt_single nodeFlags (Class false [CChar SQ; CChar DQ])
             (class_match nodeFlags false [CChar SQ; CChar DQ]) q rest bef cs eq_refl).
  apply optionalQuote_first; [exact Ho|].
  apply afterReference_stops; [|exact Hr].
  intros c H. rewrite quote_class. exact (space_not_quote c H).
Qed.

Lemma compose_untagged_first bef spaces q1 image q2 rest :
  forallb isSpace spaces = true ->
  optionalQuote q1 = true ->
  image <> [] -> composeImageChars image = true ->
  optionalQuote q2 = true ->
  afterReference rest ->
  first_is (m nodeFlags Re.composeImageRegex
              (mk bef (str "image:" ++ spaces ++ q1 ++ image ++ q2 ++ rest) []))
           (mk (rev q2 ++ rev image ++ rev q1 ++ rev spaces
                    ++ rev (str "image:") ++ bef) rest
               (cap_set 1 image [])).
Proof.
  intros Hs Hq1 Hin Hi Hq2 Hr. rewrite composeImageRegex_shape.
  apply (@first_chars nodeFlags (ch "i" :: str "mage:") _ bef _ []
           (str "image:") (spaces ++ q1 ++ image ++ q2 ++ rest)); [reflexivity|].
  destruct image as [|c image]; [contradiction|].
  destruct (composeImage_first c image Hi) as [Hc1 Hc2].
  eapply first_seq_cons.
  { apply (@first_star nodeFlags ws (class_match nodeFlags false [CSpace])
             spaces (q1 ++ (c :: image) ++ q2 ++ rest)
             (rev (str "image:") ++ bef) []
             eq_refl (forallb_eq _ _ spaces node_ws_class Hs)).
    pose proof (quoted_not_space q1 c image Hq1 Hi) as H.
    destruct q1 as [|d q1]; exact H. }
  eapply first_seq_cons.
  { apply (@first_opt_single nodeFlags (Class false [CChar SQ; CChar DQ])
             (class_match nodeFlags false [CChar SQ; CChar DQ]) q1 ((c :: image) ++ q2 ++ rest)
             (rev spaces ++ rev (str "image:") ++ bef) [] eq_refl).
    apply optionalQuote_first; [exact Hq1|].
    unfold stops. cbn [app]. rewrite quote_class. exact Hc2. }
  eapply first_seq_cons.
  { apply (@first_Group nodeFlags 1 _ (c :: image)).
    exact (@first_plus nodeFlags
             (not_of [CChar (ch ":"); CSpace; CChar SQ; CChar DQ])
             (class_match nodeFlags true
                          [CChar (ch ":"); CSpace; CChar SQ; CChar DQ])
             (c :: image) (q2 ++ rest)
             (rev q1 ++ rev spaces ++ rev (str "image:") ++ bef) []
             eq_refl Hin (forallb_eq _ _ (c :: image) compose_image_class Hi)
             (compose_image_stops q2 rest Hq2 Hr)). }
  eapply first_seq_cons.
  { apply (@first_opt_skipped nodeFlags _
             (mk (rev (c :: image) ++ rev q1 ++ rev spaces
                      ++ rev (str "image:") ++ bef) (q2 ++ rest)
                 (cap_set 1 (c :: image) []))).
    cbn [before after caps mk]. apply m_Seq_fails.
    exact (@closing_no_colon q2 rest _ _ Hq2 Hr). }
  eapply first_seq_cons; [|apply first_seq_nil].
  exact (@closing_quote_first q2 rest _ _ Hq2 Hr).
Qed.

Lemma compose_tagged_first bef spaces q1 image tag q2 rest :
  forallb isSpace spaces = true ->
  optionalQuote q1 = true ->
  image <> [] -> composeImageChars image = true ->
  tag <> [] -> composeTagChars tag = true ->
  optionalQuote q2 = true ->
  afterReference rest ->
  first_is (m nodeFlags Re.composeImageRegex
              (mk bef (str "image:" ++ spaces ++ q1 ++ image ++ ch ":" :: tag
                           ++ q2 ++ rest) []))
           (mk (rev q2 ++ rev tag ++ ch ":" :: rev image ++ rev q1 ++ rev spaces
                    ++ rev (str "image:") ++ bef) rest
               (cap_set 2 tag (cap_set 1 image []))).
Proof.
  intros Hs Hq1 Hin Hi Htn Ht Hq2 Hr. rewrite composeImageRegex_shape.
  set (bef1 := rev image ++ rev q1 ++ rev spaces ++ rev (str "image:") ++ bef).
  apply (@first_chars nodeFlags (ch "i" :: str "mage:") _ bef _ []
           (str "image:") (spaces ++ q1 ++ image ++ ch ":" :: tag ++ q2 ++ rest));
    [reflexivity|].
  destruct image as [|c image]; [contradiction|].
  destruct (composeImage_first c image Hi) as [Hc1 Hc2].
  eapply first_seq_cons.
  { apply (@first_star nodeFlags ws (class_match nodeFlags false [CSpace])
             spaces (q1 ++ (c :: image) ++ ch ":" :: tag ++ q2 ++ rest)
             (rev (str "image:") ++ bef) []
             eq_refl (forallb_eq _ _ spaces node_ws_class Hs)).
    pose proof (quoted_not_space q1 c image Hq1 Hi) as H.
    destruct q1 as [|d q1]; exact H. }
  eapply first_seq_cons.
  { apply (@first_opt_single nodeFlags (Class false [CChar SQ; CChar DQ])
             (class_match nodeFlags false [CChar SQ; CChar DQ]) q1
             ((c :: image) ++ ch ":" :: tag ++ q2 ++ rest)
             (rev spaces ++ rev (str "image:") ++ bef) [] eq_refl).
    apply optionalQuote_first; [exact Hq1|].
    unfold stops. cbn [app]. rewrite quote_class. exact Hc2. }
  eapply first_seq_cons.
  { apply (@first_Group nodeFlags 1 _ (c :: image)).
    exact (@first_plus nodeFlags
             (not_of [CChar (ch ":"); CSpace; CChar SQ; CChar DQ])
             (class_match nodeFlags true
                          [CChar (ch ":"); CSpace; CChar SQ; CChar DQ])
             (c :: image) (ch ":" :: tag ++ q2 ++ rest)
             (rev q1 ++ rev spaces ++ rev (str "image:") ++ bef) []
             eq_refl Hin (forallb_eq _ _ (c :: image) compose_image_class Hi)
             eq_refl). }
  fold bef1.
  eapply first_seq_cons.
  { apply (@first_opt_taken nodeFlags _
             (mk bef1 (ch ":" :: tag ++ q2 ++ rest) (cap_set 1 (c :: image) []))
             (mk (rev tag ++ ch ":" :: bef1) (q2 ++ rest)
                 (cap_set 2 tag (cap_set 1 (c :: image) [])))).
    - cbn [before after caps mk].
      apply (@first_Seq nodeFlags _ _ _
               (mk (ch ":" :: bef1) (tag ++ q2 ++ rest)
                   (cap_set 1 (c :: image) []))).
      + apply first_Char. reflexivity.
      + change (rev tag ++ ch ":" :: bef1) with (rev tag ++ (ch ":" :: bef1)).
        apply (@first_Group nodeFlags 2 _ tag).
        exact (@first_plus nodeFlags (not_of [CSpace; CChar SQ; CChar DQ])
                 (class_match nodeFlags true [CSpace; CChar SQ; CChar DQ])
                 tag (q2 ++ rest) (ch ":" :: bef1) (cap_set 1 (c :: image) [])
                 eq_refl Htn (forallb_eq _ _ tag compose_tag_class Ht)
                 (compose_tag_stops q2 rest Hq2 Hr)).
    - unfold endIndex, mk. cbn [before]. rewrite length_app. simpl. lia. }
  eapply first_seq_cons; [|apply first_seq_nil].
  exact (@closing_quote_first q2 rest _ _ Hq2 Hr).
Qed.

Lemma compose_untagged_matches indent spaces q1 image q2 rest :
  includes indent (str "image:") = false ->
  forallb isSpace spaces = true ->
  optionalQuote q1 = true ->
  image <> [] -> composeImageChars image = true ->
  optionalQuote q2 = true ->
  afterReference rest -> includes rest (str "image:") = false ->
  exists mr,
    allMatches Re.composeImageRegex false
               (imageLine indent spaces (q1 ++ image ++ q2) rest) = [mr] /\
    group 1 mr = Some image /\ group 2 mr = None.
Proof.
  intros Hi Hs Hq1 Hin Him Hq2 Hr Hn. eexists. split; [|split].
  - unfold imageLine. rewrite <- !(app_assoc q1), <- !(app_assoc image).
    apply (@image_line_one_match _ _ indent _ _ rest composeImageRegex_shape Hi
             (@compose_untagged_first (rev indent ++ []) spaces q1 image q2 rest
                Hs Hq1 Hin Him Hq2 Hr) eq_refl); [|exact Hn].
    unfold endIndex, mk. cbn [before].
    rewrite ?length_app. cbn [length]. rewrite ?length_app, ?length_rev.
    change (length (str "image:")) with 6. lia.
  - reflexivity.
  - reflexivity.
Qed.

Lemma compose_tagged_matches indent spaces q1 image tag q2 rest :
  includes indent (str "image:") = false ->
  forallb isSpace spaces = true ->
  optionalQuote q1 = true ->
  image <> [] -> composeImageChars image = true ->
  tag <> [] -> composeTagChars tag = true ->
  optionalQuote q2 = true ->
  afterReference rest -> includes rest (str "image:") = false ->
  exists mr,
    allMatches Re.composeImageRegex false
               (imageLine indent spaces (q1 ++ image ++ ch ":" :: tag ++ q2) rest)
      = [mr] /\
    group 1 mr = Some image /\ group 2 mr = Some tag.
Proof.
  intros Hi Hs Hq1 Hin Him Htn Ht Hq2 Hr Hn. eexists. split; [|split].
  - unfold imageLine. rewrite <- !(app_assoc q1), <- !(app_assoc image).
    cbn [app]. rewrite <- !(app_assoc tag).
    apply (@image_line_one_match _ _ indent _ _ rest composeImageRegex_shape Hi
             (@compose_tagged_first (rev indent ++ []) spaces q1 image tag q2 rest
                Hs Hq1 Hin Him Htn Ht Hq2 Hr) eq_refl); [|exact Hn].
    unfold endIndex, mk. cbn [before].
    rewrite ?length_app. cbn [length]. rewrite ?length_app, ?length_rev.
    change (length (str "image:")) with 6. lia.
  - unfold mk_result, mk, group. cbn [mcaps caps].
    rewrite cap_get_set_other by discriminate. apply cap_get_set_same.
  - unfold mk_result, mk, group. cbn [mcaps caps]. apply cap_get_set_same.
Qed.

(** X9. A Compose line with one image reference, bare or inside quotes:
    the quotes belong neither to the name nor to the tag.  Without a tag the
    matcher warns and names the tag latest; with a tag it warns exactly when
    the tag is the word latest, a bare integer or a major.minor pair. *)
Theorem compose_image_line :
  forall (indent spaces q1 image tag q2 rest : jsstring),
    includes indent (str "image:") = false ->
    forallb isSpace spaces = true ->
    optionalQuote q1 = true ->
    image <> [] -> composeImageChars image = true ->
    tag <> [] -> composeTagChars tag = true ->
    optionalQuote q2 = true ->
    afterReference rest -> includes rest (str "image:") = false ->
    validateDockerCompose (imageLine indent spaces (q1 ++ image ++ q2) rest) =
      Normal [composeMessage image (str "latest")] /\
    validateDockerCompose
      (imageLine indent spaces (q1 ++ image ++ ch ":" :: tag ++ q2) rest) =
      Normal (if isLooseTag tag then [composeMessage image tag] else []).
Proof.
  intros indent spaces q1 image tag q2 rest Hi Hs Hq1 Hin Him Htn Ht Hq2 Hr Hn.
  split.
  - destruct (@compose_untagged_matches indent spaces q1 image q2 rest
                Hi Hs Hq1 Hin Him Hq2 Hr Hn) as [mr [E [G1 G2]]].
    rewrite validateDockerCompose_matches, E. cbn [filter].
    unfold imageFails. rewrite G2. change (looseTag None) with true.
    cbn [map]. unfold captured. rewrite G1, G2. reflexivity.
  - destruct (@compose_tagged_matches indent spaces q1 image tag q2 rest
                Hi Hs Hq1 Hin Him Htn Ht Hq2 Hr Hn) as [mr [E [G1 G2]]].
    rewrite validateDockerCompose_matches, E. cbn [filter].
    unfold imageFails. rewrite G2.
    destruct tag as [|c tag]; [contradiction|]. rewrite looseTag_shapes.
    destruct (isLooseTag (c :: tag)); [|reflexivity].
    cbn [map]. unfold captured. rewrite G1, G2. reflexivity.
Qed.

Lemma compose_image_line_witness :
  validateDockerCompose (str "    image: 'redis'") =
    Normal [composeMessage (str "redis") (str "latest")] /\
  validateDockerCompose (str "    image: 'redis:7'") =
    Normal [composeMessage (str "redis") (str "7")].
Proof.
  exact (@compose_image_line (str "    ") (str " ") [SQ] (str "redis") (str "7")
           [SQ] [] eq_refl eq_refl eq_refl ltac:(discriminate) eq_refl
           ltac:(discriminate) eq_refl eq_refl I eq_refl).
Defined.

(* ================================================================== *)
(** * The lines of package manifests *)
(* ================================================================== *)

Lemma includes_tail s c w : includes s (c :: w) = true -> includes s w = true.
Proof.
  induction s as [|a s IH]; intros H.
  - discriminate H.
  - rewrite includes_unfold in H. apply orb_true_iff in H.
    rewrite (includes_unfold (a :: s) w). apply orb_true_iff. right.
    destruct H as [H|H]; [|exact (IH H)].
    cbn [startsWith] in H. apply andb_true_iff in H. destruct H as [_ H].
    rewrite includes_unfold, H. reflexivity.
Qed.

(** A single-character pattern takes the character it accepts. *)
Lemma first_single fl r P a bef rest cs :
  single fl r = Some P -> P a = true ->
  first_is (m fl r (mk bef (a :: rest) cs)) (mk (a :: bef) rest cs).
Proof.
  intros Hs Ha. apply single_step in Hs. destruct Hs as [_ Hs].
  rewrite Hs. unfold step, mk. cbn [after before caps]. rewrite Ha.
  eexists. reflexivity.
Qed.

Lemma noQuote_class c :
  class_match nodeFlags true [CChar SQ; CChar DQ] c = negb (isQuote c).
Proof.
  unfold class_match, set_mem, isQuote.
  cbn [ignoreCase nodeFlags existsb atom_mem].
  destruct (N.eqb SQ c), (N.eqb DQ c); reflexivity.
Qed.

Lemma quote_stops_ws q rest :
  isQuote q = true -> stops (class_match nodeFlags false [CSpace]) (q :: rest).
Proof.
  intros H. unfold stops. rewrite node_ws_class.
  destruct (isQuote_cases q H); subst q; reflexivity.
Qed.

Lemma quote_stops_body q rest :
  isQuote q = true ->
  stops (class_match nodeFlags true [CChar SQ; CChar DQ]) (q :: rest).
Proof. intros H. unfold stops. rewrite noQuote_class, H. reflexivity. Qed.

Lemma gemRegex_shape :
  Re.gemRegex =
  seq (map Char (ch "g" :: str "em")
       ++ [plus ws; Class false [CChar SQ; CChar DQ];
           Group 1 (plus (not_of [CChar SQ; CChar DQ]));
           Class false [CChar SQ; CChar DQ]; star ws; Char (ch ",");
           star ws; Class false [CChar SQ; CChar DQ];
           Group 2 (plus (not_of [CChar SQ; CChar DQ]));
           Class false [CChar SQ; CChar DQ]]).
Proof. reflexivity. Qed.

Lemma gem_first bef spaces q1 name q2 sp2 sp3 q3 version q4 rest :
  spaces <> [] -> forallb isSpace spaces = true ->
  isQuote q1 = true -> name <> [] -> noQuote name = true ->
  isQuote q2 = true ->
  forallb isSpace sp2 = true -> forallb isSpace sp3 = true ->
  isQuote q3 = true -> version <> [] -> noQuote version = true ->
  isQuote q4 = true ->
  first_is (m nodeFlags Re.gemRegex
              (mk bef (str "gem" ++ spaces ++ q1 :: name ++ q2 :: sp2
                           ++ ch "," :: sp3 ++ q3 :: version ++ q4 :: rest) []))
           (mk (q4 :: rev version ++ q3 :: rev sp3 ++ ch "," :: rev sp2
                   ++ q2 :: rev name ++ q1 :: rev spaces
                   ++ rev (str "gem") ++ bef) rest
               (cap_set 2 version (cap_set 1 name []))).
Proof.
  intros Hsn Hs Hq1 Hnn Hn Hq2 Hs2 Hs3 Hq3 Hvn Hv Hq4.
  rewrite gemRegex_shape.
  apply (@first_chars nodeFlags (ch "g" :: str "em") _ bef _ []
           (str "gem") (spaces ++ q1 :: name ++ q2 :: sp2
                               ++ ch "," :: sp3 ++ q3 :: version ++ q4 :: rest));
    [reflexivity|].
  eapply first_seq_cons.
  { exact (@first_plus nodeFlags ws (class_match nodeFlags false [CSpace])
             spaces _ (rev (str "gem") ++ bef) []
             eq_refl Hsn (forallb_eq _ _ spaces node_ws_class Hs)
             (quote_stops_ws q1 _ Hq1)). }
  eapply first_seq_cons.
  { exact (@first_single nodeFlags (Class false [CChar SQ; CChar DQ])
             (class_match nodeFlags false [CChar SQ; CChar DQ]) q1 _ _ []
             eq_refl (eq_trans (quote_class q1) Hq1)). }
  eapply first_seq_cons.
  { apply (@first_Group nodeFlags 1 _ name
             (q1 :: rev spaces ++ rev (str "gem") ++ bef)).
    exact (@first_plus nodeFlags (not_of [CChar SQ; CChar DQ])
             (class_match nodeFlags true [CChar SQ; CChar DQ])
             name _ (q1 :: rev spaces ++ rev (str "gem") ++ bef) []
             eq_refl Hnn (forallb_eq _ _ name noQuote_class Hn)
             (quote_stops_body q2 _ Hq2)). }
  eapply first_seq_cons.
  { exact (@first_single nodeFlags (Class false [CChar SQ; CChar DQ])
             (class_match nodeFlags false [CChar SQ; CChar DQ]) q2 _ _ _
             eq_refl (eq_trans (quote_class q2) Hq2)). }
  eapply first_seq_cons.
  { exact (@first_star nodeFlags ws (class_match nodeFlags false [CSpace])
             sp2 (ch "," :: sp3 ++ q3 :: version ++ q4 :: rest) _ _
             eq_refl (forallb_eq _ _ sp2 node_ws_class Hs2) eq_refl). }
  eapply first_seq_cons; [apply first_Char; reflexivity|].
  eapply first_seq_cons.
  { exact (@first_star nodeFlags ws (class_match nodeFlags false [CSpace])
             sp3 _ _ _
             eq_refl (forallb_eq _ _ sp3 node_ws_class Hs3)
             (quote_stops_ws q3 _ Hq3)). }
  eapply first_seq_cons.
  { exact (@first_single nodeFlags (Class false [CChar SQ; CChar DQ])
             (class_match nodeFlags false [CChar SQ; CChar DQ]) q3 _ _ _
             eq_refl (eq_trans (quote_class q3) Hq3)). }
  eapply first_seq_cons.
  { apply (@first_Group nodeFlags 2 _ version).
    exact (@first_plus nodeFlags (not_of [CChar SQ; CChar DQ])
             (class_match nodeFlags true [CChar SQ; CChar DQ])
             version _ _ _
             eq_refl Hvn (forallb_eq _ _ version noQuote_class Hv)
             (quote_stops_body q4 _ Hq4)). }
  eapply first_seq_cons; [|apply first_seq_nil].
  exact (@first_single nodeFlags (Class false [CChar SQ; CChar DQ])
           (class_match nodeFlags false [CChar SQ; CChar DQ]) q4 _ _ _
           eq_refl (eq_trans (quote_class q4) Hq4)).
Qed.

Lemma gem_matches indent spaces q1 name q2 sp2 sp3 q3 version q4 rest :
  includes indent (str "gem") = false ->
  spaces <> [] -> forallb isSpace spaces = true ->
  isQuote q1 = true -> name <> [] -> noQuote name = true ->
  isQuote q2 = true ->
  forallb isSpace sp2 = true -> forallb isSpace sp3 = true ->
  isQuote q3 = true -> version <> [] -> noQuote version = true ->
  isQuote q4 = true ->
  includes rest (str "gem") = false ->
  exists mr,
    allMatches Re.gemRegex false
               (gemLine indent spaces q1 name q2 sp2 sp3 q3 version q4 rest)
      = [mr] /\
    group 1 mr = Some name /\ group 2 mr = Some version.
Proof.
  intros Hi Hsn Hs Hq1 Hnn Hn Hq2 Hs2 Hs3 Hq3 Hvn Hv Hq4 Hr.
  eexists. split; [|split].
  - unfold gemLine.
    apply (@line_one_match _ (ch "g") (str "em") _ indent _ _ rest
             gemRegex_shape eq_refl Hi
             (@gem_first (rev indent ++ []) spaces q1 name q2 sp2 sp3 q3
                version q4 rest Hsn Hs Hq1 Hnn Hn Hq2 Hs2 Hs3 Hq3 Hvn Hv Hq4)
             eq_refl); [|exact Hr].
    unfold endIndex, mk. cbn [before length].
    repeat (progress (rewrite ?length_app; cbn [length])). lia.
  - unfold mk_result, mk, group. cbn [mcaps caps].
    rewrite cap_get_set_other by discriminate. apply cap_get_set_same.
  - unfold mk_result, mk, group. cbn [mcaps caps]. apply cap_get_set_same.
Qed.

Lemma rubyFails_comparison mr :
  rubyFails mr =
  includes (captured 2 mr) (str ">") || includes (captured 2 mr) (str "<").
Proof.
  unfold rubyFails. cbn zeta.
  destruct (includes (captured 2 mr) (str "~>")) eqn:E; [|reflexivity].
  assert (E' : includes (captured 2 mr) (str ">") = true)
    by exact (@includes_tail (captured 2 mr) (ch "~") (str ">") E).
  rewrite E'. reflexivity.
Qed.

(** X10. The gem matcher warns for exactly the matches of its pattern whose
    version holds a greater-than or a less-than sign; the test for the
    pessimistic operator adds nothing.  A line with [gem], a quoted name, a
    comma and a quoted version is one match, whichever quote characters are
    used and whether or not they pair up, so it yields that one warning,
    naming the gem and the version, exactly when the version holds one of the
    two signs. *)
Theorem ruby_gem_line :
  forall (content indent spaces : jsstring) (q1 : char) (name : jsstring)
         (q2 : char) (before_comma after_comma : jsstring) (q3 : char)
         (version : jsstring) (q4 : char) (rest : jsstring),
    includes indent (str "gem") = false ->
    spaces <> [] -> forallb isSpace spaces = true ->
    isQuote q1 = true -> name <> [] -> noQuote name = true ->
    isQuote q2 = true ->
    forallb isSpace before_comma = true -> forallb isSpace after_comma = true ->
    isQuote q3 = true -> version <> [] -> noQuote version = true ->
    isQuote q4 = true ->
    includes rest (str "gem") = false ->
    validateRubyPackage content =
      Normal (map (fun mr => rubyMessage (captured 1 mr) (captured 2 mr))
                  (filter (fun mr => includes (captured 2 mr) (str ">")
                                     || includes (captured 2 mr) (str "<"))
                          (allMatches Re.gemRegex false content))) /\
    validateRubyPackage
      (gemLine indent spaces q1 name q2 before_comma after_comma q3 version q4
               rest) =
      Normal (if includes version (str ">") || includes version (str "<")
              then [rubyMessage name version] else []) /\
    includes (rubyMessage name version) name = true /\
    includes (rubyMessage name version) version = true.
Proof.
  intros content indent spaces q1 name q2 sp2 sp3 q3 version q4 rest
         Hi Hsn Hs Hq1 Hnn Hn Hq2 Hs2 Hs3 Hq3 Hvn Hv Hq4 Hr.
  split; [|split].
  - rewrite validateRubyPackage_matches.
    rewrite (filter_ext _ _ rubyFails_comparison). reflexivity.
  - destruct (@gem_matches indent spaces q1 name q2 sp2 sp3 q3 version q4 rest
                Hi Hsn Hs Hq1 Hnn Hn Hq2 Hs2 Hs3 Hq3 Hvn Hv Hq4 Hr)
      as [mr [E [G1 G2]]].
    rewrite validateRubyPackage_matches, E. cbn [filter].
    rewrite rubyFails_comparison. unfold captured. rewrite G2. cbn [interp].
    destruct (includes version (str ">") || includes version (str "<"));
      [|reflexivity].
    cbn [map]. rewrite G1, G2. reflexivity.
  - split; unfold rubyMessage; spliced.
Qed.

Lemma ruby_gem_line_witness :
  validateRubyPackage (str "gem 'rails', '~> 7.0'") =
    Normal [rubyMessage (str "rails") (str "~> 7.0")].
Proof.
  exact (proj1 (proj2 (@ruby_gem_line [] [] (str " ") SQ (str "rails") SQ []
           (str " ") SQ (str "~> 7.0") SQ []
           eq_refl ltac:(discriminate) eq_refl eq_refl ltac:(discriminate)
           eq_refl eq_refl eq_refl eq_refl eq_refl ltac:(discriminate) eq_refl
           eq_refl eq_refl))).
Defined.

(* ---------------------------------------------------------------- *)
(** ** Java: Gradle coordinates and Maven version elements *)

Lemma flat_map_nil {A B : Type} (f : A -> list B) l :
  (forall y, In y l -> f y = []) -> flat_map f l = [].
Proof.
  induction l as [|a l IH]; intros H; [reflexivity|]. cbn [flat_map].
  rewrite (H a (or_introl eq_refl)), IH; [reflexivity|].
  intros y Hy. apply H. right. exact Hy.
Qed.

Lemma without_app c a b : without c (a ++ b) = without c a && without c b.
Proof. apply forallb_app. Qed.

Lemma without_tail c a s : without c (a :: s) = true -> without c s = true.
Proof.
  unfold without. cbn [forallb]. intros H. apply andb_true_iff in H. apply H.
Qed.

Lemma gradleRegex_shape :
  Re.gradleRegex =
  seq [Group 1 (plus (not_of [CChar (ch ":")])); Char (ch ":");
       Group 2 (plus (not_of [CChar (ch ":")])); Char (ch ":");
       Group 3 (plus (not_of [CChar SQ; CSpace]))].
Proof. reflexivity. Qed.

(** Without a colon ahead the Gradle pattern cannot match. *)
Lemma gradle_needs_colon bef aft :
  without (ch ":") aft = true ->
  m nodeFlags Re.gradleRegex (mk bef aft []) = [].
Proof.
  intros H. rewrite gradleRegex_shape, m_seq_cons. apply flat_map_nil.
  intros y Hy. apply m_extends in Hy. destruct Hy as [w [Ha _]].
  cbn [after mk] in Ha. rewrite m_seq_cons.
  destruct y as [b a cs]. cbn [after] in Ha. fold (mk b a cs).
  rewrite (@m_Char_fails nodeFlags (ch ":") b a cs); [reflexivity|].
  subst aft. rewrite without_app in H. apply andb_true_iff in H.
  destruct H as [_ H]. destruct a as [|d a]; [exact I|].
  unfold without in H. cbn [forallb] in H. apply andb_true_iff in H.
  destruct H as [H _]. apply negb_true_iff in H. exact H.
Qed.

Lemma gradle_nowhere s bef :
  without (ch ":") s = true -> scan nodeFlags Re.gradleRegex bef s = None.
Proof.
  apply (@scan_never nodeFlags Re.gradleRegex
           (fun s => without (ch ":") s = true)).
  - intros c t. apply without_tail.
  - intros b t. apply gradle_needs_colon.
Qed.

Lemma mavenRegex_shape :
  Re.mavenRegex =
  seq (map Char (ch "<" :: str "version>")
       ++ [Group 1 (plus (not_of [CChar (ch "<")]))]
       ++ map Char (str "</version>")).
Proof. reflexivity. Qed.

Lemma not_char_class_forall x s :
  without x s = true ->
  forallb (class_match nodeFlags true [CChar x]) s = true.
Proof.
  intros H. exact (forallb_eq _ _ s (node_not_char_class x) H).
Qed.

Lemma maven_first bef version rest :
  version <> [] -> without (ch "<") version = true ->
  first_is (m nodeFlags Re.mavenRegex
              (mk bef (str "<version>" ++ version ++ str "</version>" ++ rest) []))
           (mk (rev (str "</version>") ++ rev version
                    ++ rev (str "<version>") ++ bef) rest
               (cap_set 1 version [])).
Proof.
  intros Hvn Hv. rewrite mavenRegex_shape.
  apply (@first_chars nodeFlags (ch "<" :: str "version>") _ bef _ []
           (str "<version>") (version ++ str "</version>" ++ rest));
    [reflexivity|].
  cbn [app]. eapply first_seq_cons.
  { apply (@first_Group nodeFlags 1 _ version).
    exact (@first_plus nodeFlags (not_of [CChar (ch "<")])
             (class_match nodeFlags true [CChar (ch "<")])
             version (str "</version>" ++ rest)
             (rev (str "<version>") ++ bef) []
             eq_refl Hvn (not_char_class_forall (ch "<") version Hv) eq_refl). }
  rewrite <- (app_nil_r (map Char (str "</version>"))).
  apply (@first_chars nodeFlags (str "</version>") [] _ _ _
           (str "</version>") rest); [reflexivity|].
  apply first_seq_nil.
Qed.

Lemma maven_matches pre version rest :
  includes pre (str "<version>") = false ->
  version <> [] -> without (ch "<") version = true ->
  includes rest (str "<version>") = false ->
  exists mr,
    allMatches Re.mavenRegex false (mavenVersion pre version rest) = [mr] /\
    group 1 mr = Some version.
Proof.
  intros Hi Hvn Hv Hr. eexists. split.
  - unfold mavenVersion.
    apply (@line_one_match _ (ch "<") (str "version>") _ pre _ _ rest
             mavenRegex_shape eq_refl Hi
             (@maven_first (rev pre ++ []) version rest Hvn Hv) eq_refl);
      [|exact Hr].
    unfold endIndex, mk. cbn [before length].
    rewrite ?length_app, ?length_rev.
    change (length (str "</version>")) with 10. lia.
  - reflexivity.
Qed.

(** X11. A project file with one version element and no colon: the Gradle
    pattern finds nothing, and the element yields one warning exactly when
    its text holds SNAPSHOT, RELEASE or LATEST in capitals.  The warning
    names the version only: nothing of the text around the element, so
    neither the group nor the artifact, goes into it. *)
Theorem maven_version_element :
  forall (pre version rest : jsstring),
    includes pre (str "<version>") = false ->
    version <> [] -> without (ch "<") version = true ->
    includes rest (str "<version>") = false ->
    without (ch ":") (mavenVersion pre version rest) = true ->
    validateJavaPackage (mavenVersion pre version rest) =
      Normal (if mavenKeyword version then [mavenMessage version] else []) /\
    includes (mavenMessage version) version = true.
Proof.
  intros pre version rest Hi Hvn Hv Hr Hc. split.
  - rewrite validateJavaPackage_matches.
    rewrite (@allMatches_none Re.gradleRegex false _
               (gradle_nowhere (mavenVersion pre version rest) [] Hc)).
    destruct (@maven_matches pre version rest Hi Hvn Hv Hr) as [mr [E G1]].
    rewrite E. cbn [filter map app]. unfold mavenFails, captured. rewrite G1.
    cbn [interp]. fold (mavenKeyword version).
    destruct (mavenKeyword version); [|reflexivity].
    cbn [map]. rewrite G1. reflexivity.
  - unfold mavenMessage. spliced.
Qed.

Lemma maven_version_element_witness :
  validateJavaPackage
    (str "<artifactId>core</artifactId><version>1.0-SNAPSHOT</version>") =
    Normal [mavenMessage (str "1.0-SNAPSHOT")].
Proof.
  exact (proj1 (@maven_version_element (str "<artifactId>core</artifactId>")
                  (str "1.0-SNAPSHOT") []
                  eq_refl ltac:(discriminate) eq_refl eq_refl eq_refl)).
Defined.

Lemma includes_In c s : In c s -> includes s [c] = true.
Proof.
  induction s as [|a s IH]; intros H; [contradiction|].
  rewrite includes_unfold. destruct H as [->|H].
  - cbn [startsWith]. rewrite char_eqb_refl, startsWith_nil. reflexivity.
  - rewrite (IH H). apply orb_true_r.
Qed.

Lemma endsWith_dot_plus v :
  endsWith v (str ".+") = true -> includes v (str "+") = true.
Proof.
  unfold endsWith. change (rev (str ".+")) with [ch "+"; ch "."].
  intros H. apply (includes_In (ch "+")). apply in_rev.
  destruct (rev v) as [|x t]; [discriminate H|].
  cbn [startsWith] in H. apply andb_true_iff in H. destruct H as [H _].
  unfold char_eqb in H. apply N.eqb_eq in H. subst x. left. reflexivity.
Qed.

Lemma gradleFails_floating mr : gradleFails mr = floatingGradle (captured 3 mr).
Proof.
  unfold gradleFails, floatingGradle. cbn zeta.
  destruct (includes (captured 3 mr) (str "+")) eqn:E; [reflexivity|].
  destruct (endsWith (captured 3 mr) (str ".+")) eqn:E2; [|reflexivity].
  apply endsWith_dot_plus in E2. rewrite E2 in E. discriminate E.
Qed.

Lemma version_class c :
  class_match nodeFlags true [CChar SQ; CSpace] c =
  negb (N.eqb SQ c) && negb (isSpace c).
Proof.
  unfold class_match, set_mem. cbn [ignoreCase nodeFlags existsb atom_mem].
  destruct (N.eqb SQ c), (isSpace c); reflexivity.
Qed.

Lemma afterVersion_stops rest :
  afterVersion rest -> stops (class_match nodeFlags true [CChar SQ; CSpace]) rest.
Proof.
  destruct rest as [|c rest]; unfold afterVersion, stops; [auto|]. intros H.
  rewrite version_class. apply orb_true_iff in H.
  destruct H as [H|H]; rewrite H; [reflexivity|apply andb_false_r].
Qed.

Lemma gradle_first bef pre artifact version rest :
  pre <> [] -> without (ch ":") pre = true ->
  artifact <> [] -> without (ch ":") artifact = true ->
  version <> [] -> versionChars version = true ->
  afterVersion rest ->
  first_is (m nodeFlags Re.gradleRegex
              (mk bef (pre ++ ch ":" :: artifact ++ ch ":" :: version ++ rest) []))
           (mk (rev version ++ ch ":" :: rev artifact ++ ch ":" :: rev pre ++ bef)
               rest
               (cap_set 3 version (cap_set 2 artifact (cap_set 1 pre [])))).
Proof.
  intros Hpn Hp Han Ha Hvn Hv Hr. rewrite gradleRegex_shape.
  eapply first_seq_cons.
  { apply (@first_Group nodeFlags 1 _ pre bef).
    exact (@first_plus nodeFlags (not_of [CChar (ch ":")])
             (class_match nodeFlags true [CChar (ch ":")])
             pre (ch ":" :: artifact ++ ch ":" :: version ++ rest) bef []
             eq_refl Hpn (not_char_class_forall (ch ":") pre Hp) eq_refl). }
  eapply first_seq_cons; [apply first_Char; reflexivity|].
  eapply first_seq_cons.
  { apply (@first_Group nodeFlags 2 _ artifact (ch ":" :: rev pre ++ bef)).
    exact (@first_plus nodeFlags (not_of [CChar (ch ":")])
             (class_match nodeFlags true [CChar (ch ":")])
             artifact (ch ":" :: version ++ rest) (ch ":" :: rev pre ++ bef)
             (cap_set 1 pre [])
             eq_refl Han (not_char_class_forall (ch ":") artifact Ha) eq_refl). }
  eapply first_seq_cons; [apply first_Char; reflexivity|].
  eapply first_seq_cons; [|apply first_seq_nil].
  apply (@first_Group nodeFlags 3 _ version
           (ch ":" :: rev artifact ++ ch ":" :: rev pre ++ bef)).
  exact (@first_plus nodeFlags (not_of [CChar SQ; CSpace])
           (class_match nodeFlags true [CChar SQ; CSpace])
           version rest (ch ":" :: rev artifact ++ ch ":" :: rev pre ++ bef)
           (cap_set 2 artifact (cap_set 1 pre []))
           eq_refl Hvn (forallb_eq _ _ version version_class Hv)
           (afterVersion_stops rest Hr)).
Qed.

Lemma gradle_matches pre artifact version rest :
  pre <> [] -> without (ch ":") pre = true ->
  artifact <> [] -> without (ch ":") artifact = true ->
  version <> [] -> versionChars version = true ->
  afterVersion rest -> without (ch ":") rest = true ->
  exists mr,
    allMatches Re.gradleRegex false (gradleCoordinates pre artifact version rest)
    = [mr] /\
    group 1 mr = Some pre /\ group 2 mr = Some artifact /\
    group 3 mr = Some version.
Proof.
  intros Hpn Hp Han Ha Hvn Hv Hr Hc. eexists. split; [|split; [|split]].
  - unfold gradleCoordinates.
    apply (@allMatches_one Re.gradleRegex false _ 0 _
             (@scan_first nodeFlags Re.gradleRegex [] _ _
                (@gradle_first [] pre artifact version rest
                   Hpn Hp Han Ha Hvn Hv Hr))).
    + unfold endIndex, mk. cbn [before length].
      repeat (progress (rewrite ?length_app; cbn [length])).
      destruct version; [contradiction|]. cbn [rev length].
      rewrite ?length_app. cbn [length]. lia.
    + cbn [mk before after]. fold nodeFlags. apply gradle_nowhere. exact Hc.
  - unfold mk_result, mk, group. cbn [mcaps caps].
    rewrite !cap_get_set_other by discriminate. apply cap_get_set_same.
  - unfold mk_result, mk, group. cbn [mcaps caps].
    rewrite cap_get_set_other by discriminate. apply cap_get_set_same.
  - unfold mk_result, mk, group. cbn [mcaps caps]. apply cap_get_set_same.
Qed.

(** X12. The Java matcher lists the warnings of the Gradle pattern before
    those of the Maven pattern, whatever their order in the text.  The Gradle
    pattern takes everything before the first colon, line breaks and
    keywords included, as the group.  A build script with one
    dependency in the colon notation yields one warning exactly when the
    version holds a plus sign or the word latest (the test for a trailing
    dot and plus adds nothing), and the warning names that whole text, the
    artifact and the version. *)
Theorem gradle_coordinates_line :
  forall (content pre artifact version rest : jsstring),
    pre <> [] -> without (ch ":") pre = true ->
    artifact <> [] -> without (ch ":") artifact = true ->
    version <> [] -> versionChars version = true ->
    afterVersion rest -> without (ch ":") rest = true ->
    includes (gradleCoordinates pre artifact version rest) (str "<version>")
      = false ->
    validateJavaPackage content =
      Normal (map (fun mr => gradleMessage (captured 1 mr) (captured 2 mr)
                                           (captured 3 mr))
                  (filter (fun mr => floatingGradle (captured 3 mr))
                          (allMatches Re.gradleRegex false content))
              ++ map (fun mr => mavenMessage (captured 1 mr))
                     (filter (fun mr => mavenKeyword (captured 1 mr))
                             (allMatches Re.mavenRegex false content))) /\
    validateJavaPackage (gradleCoordinates pre artifact version rest) =
      Normal (if floatingGradle version
              then [gradleMessage pre artifact version] else []) /\
    includes (gradleMessage pre artifact version) pre = true.
Proof.
  intros content pre artifact version rest Hpn Hp Han Ha Hvn Hv Hr Hc Hm.
  split; [|split].
  - rewrite validateJavaPackage_matches.
    rewrite (filter_ext _ _ gradleFails_floating). reflexivity.
  - rewrite validateJavaPackage_matches.
    rewrite (@allMatches_none Re.mavenRegex false _
               (@scan_no_occurrence nodeFlags (ch "<" :: str "version>") _
                  eq_refl ltac:(discriminate) _ [] Hm)).
    destruct (@gradle_matches pre artifact version rest
                Hpn Hp Han Ha Hvn Hv Hr Hc) as [mr [E [G1 [G2 G3]]]].
    rewrite E. cbn [filter map]. rewrite app_nil_r, gradleFails_floating.
    unfold captured. rewrite G3. cbn [interp].
    destruct (floatingGradle version); [|reflexivity].
    cbn [map]. rewrite G1, G2, G3. reflexivity.
  - unfold gradleMessage. spliced.
Qed.

Lemma gradle_coordinates_line_witness :
  validateJavaPackage
    (str "dependencies {" ++ LF
         :: str "  implementation 'com.google.guava:guava:31.+'") =
    Normal [gradleMessage
              (str "dependencies {" ++ LF
                   :: str "  implementation 'com.google.guava")
              (str "guava") (str "31.+")].
Proof.
  exact (proj1 (proj2 (@gradle_coordinates_line []
           (str "dependencies {" ++ LF :: str "  implementation 'com.google.guava")
           (str "guava") (str "31.+") [SQ]
           ltac:(discriminate) eq_refl ltac:(discriminate) eq_refl
           ltac:(discriminate) eq_refl eq_refl eq_refl eq_refl))).
Defined.

(* ================================================================== *)
(** * The lines of requirement files *)
(* ================================================================== *)

(** One or two characters of a class, as many as there are. *)
Lemma first_rep12 fl r P op rest bef cs :
  single fl r = Some P ->
  match op with
  | [a] => P a = true /\ stops P rest
  | [a; b] => P a = true /\ P b = true
  | _ => False
  end ->
  first_is (m fl (Rep r 1 (Some 2) true) (mk bef (op ++ rest) cs))
           (mk (rev op ++ bef) rest cs).
Proof.
  intros Hs Hop. apply single_step in Hs. destruct Hs as [Hg Hs].
  destruct op as [|a [|b [|c op]]]; try contradiction.
  - destruct Hop as [Ha Hr]. cbn [m app rev]. rewrite Hg.
    cbn [mk after length Nat.add RepeatMatcher Nat.eqb negb andb dec_max pred
         before caps].
    rewrite !cap_clear_nil, Hs. unfold step. cbn [after before caps].
    rewrite Ha. cbn [flat_map]. rewrite cap_clear_nil, Hs. unfold step.
    cbn [after before caps].
    destruct rest as [|d rest].
    + cbn [flat_map app]. eexists. reflexivity.
    + unfold stops in Hr. rewrite Hr. cbn [flat_map app]. eexists. reflexivity.
  - destruct Hop as [Ha Hb]. cbn [m app rev]. rewrite Hg.
    cbn [mk after length Nat.add RepeatMatcher Nat.eqb negb andb dec_max pred
         before caps].
    rewrite !cap_clear_nil, Hs. unfold step. cbn [after before caps].
    rewrite Ha. cbn [flat_map]. rewrite cap_clear_nil, Hs. unfold step.
    cbn [after before caps]. rewrite Hb.
    cbn [flat_map endIndex before length].
    assert (E : Nat.eqb (S (S (length bef))) (S (length bef)) = false)
      by (apply Nat.eqb_neq; lia).
    rewrite E. cbn [app]. eexists. reflexivity.
Qed.

Lemma requirementRegex_shape :
  Re.requirementRegex =
  seq [Bol;
       Group 1 (plus (not_of [CChar (ch "="); CChar (ch ">"); CChar (ch "<");
                              CChar (ch "~"); CSpace]));
       star ws;
       opt (Group 2
              (seq [opt (Alt (Rep (Class false [CChar (ch "<"); CChar (ch ">");
                                                CChar (ch "="); CChar (ch "~")])
                                  1 (Some 2) true)
                             (Char (ch "^")));
                    star ws;
                    Class false [CRange (ch "0") (ch "9")];
                    star (not_of [CChar (ch ";"); CSpace])]))].
Proof. reflexivity. Qed.

Lemma line_ws_class c : class_match lineFlags false [CSpace] c = isSpace c.
Proof.
  unfold class_match, set_mem. cbn [ignoreCase lineFlags existsb atom_mem].
  destruct (isSpace c); reflexivity.
Qed.

Lemma name_class c :
  class_match lineFlags true
    [CChar (ch "="); CChar (ch ">"); CChar (ch "<"); CChar (ch "~"); CSpace] c =
  negb (isCmp c) && negb (isSpace c).
Proof.
  unfold class_match, set_mem, isCmp.
  cbn [ignoreCase lineFlags existsb atom_mem].
  destruct (N.eqb (ch "=") c), (N.eqb (ch ">") c), (N.eqb (ch "<") c),
    (N.eqb (ch "~") c), (isSpace c); reflexivity.
Qed.

Lemma cmp_class c :
  class_match lineFlags false
    [CChar (ch "<"); CChar (ch ">"); CChar (ch "="); CChar (ch "~")] c =
  isCmp c.
Proof.
  unfold class_match, set_mem, isCmp.
  cbn [ignoreCase lineFlags existsb atom_mem].
  destruct (N.eqb (ch "=") c), (N.eqb (ch ">") c), (N.eqb (ch "<") c),
    (N.eqb (ch "~") c); reflexivity.
Qed.

Lemma digit09_class c :
  class_match lineFlags false [CRange (ch "0") (ch "9")] c = isDigit c.
Proof.
  unfold class_match, set_mem, isDigit.
  cbn [ignoreCase lineFlags existsb atom_mem].
  change (ch "0") with 48%N. change (ch "9") with 57%N.
  destruct (in_range 48%N 57%N c); reflexivity.
Qed.

Lemma tail_class c :
  class_match lineFlags true [CChar (ch ";"); CSpace] c =
  negb (N.eqb (ch ";") c) && negb (isSpace c).
Proof.
  unfold class_match, set_mem. cbn [ignoreCase lineFlags existsb atom_mem].
  destruct (N.eqb (ch ";") c), (isSpace c); reflexivity.
Qed.

Lemma isCmp_cases c :
  isCmp c = true -> c = ch "=" \/ c = ch ">" \/ c = ch "<" \/ c = ch "~".
Proof.
  unfold isCmp. intros H. repeat (apply orb_true_iff in H; destruct H as [H|H]);
    apply N.eqb_eq in H; auto.
Qed.

Lemma cmp_not_space c : isCmp c = true -> isSpace c = false.
Proof.
  intros H. destruct (isCmp_cases c H) as [-> | [-> | [-> | ->]]]; reflexivity.
Qed.

Lemma digit_not_space c : isDigit c = true -> isSpace c = false.
Proof.
  unfold isDigit, in_range. intros H. apply andb_true_iff in H.
  destruct H as [H1 H2]. apply N.leb_le in H1. apply N.leb_le in H2.
  unfold isSpace, in_range.
  repeat (apply orb_false_iff; split);
    try (apply N.eqb_neq; lia);
    apply andb_false_iff; first [left; apply N.leb_gt; lia
                                |right; apply N.leb_gt; lia].
Qed.

Lemma digit_not_semicolon c : isDigit c = true -> N.eqb (ch ";") c = false.
Proof.
  unfold isDigit, in_range. intros H. apply andb_true_iff in H.
  destruct H as [H1 H2]. apply N.leb_le in H1. apply N.leb_le in H2.
  apply N.eqb_neq. change (ch ";") with 59%N. lia.
Qed.

Lemma digit_not_cmp c : isDigit c = true -> isCmp c = false.
Proof.
  intros H. destruct (isCmp c) eqn:E; [|reflexivity].
  destruct (isCmp_cases c E) as [-> | [-> | [-> | ->]]]; discriminate H.
Qed.

Lemma nameChars_first c name :
  nameChars (c :: name) = true -> isSpace c = false.
Proof.
  unfold nameChars. cbn [forallb]. intros H.
  apply andb_true_iff in H. destruct H as [H _].
  apply andb_true_iff in H. destruct H as [_ H].
  apply negb_true_iff. exact H.
Qed.

(** The operator of a requirement, when it is there. *)
Lemma operator_first op rest bef cs :
  isOperator op = true ->
  stops (class_match lineFlags false
           [CChar (ch "<"); CChar (ch ">"); CChar (ch "="); CChar (ch "~")]) rest ->
  first_is (m lineFlags
              (opt (Alt (Rep (Class false [CChar (ch "<"); CChar (ch ">");
                                           CChar (ch "="); CChar (ch "~")])
                             1 (Some 2) true)
                        (Char (ch "^"))))
              (mk bef (op ++ rest) cs))
           (mk (rev op ++ bef) rest cs).
Proof.
  intros Hop Hr.
  apply (@first_opt_taken lineFlags _ (mk bef (op ++ rest) cs)
           (mk (rev op ++ bef) rest cs)).
  - cbn [before after caps mk groups app]. rewrite cap_clear_nil. cbn [m].
    apply first_app.
    apply (@first_rep12 lineFlags
             (Class false [CChar (ch "<"); CChar (ch ">");
                           CChar (ch "="); CChar (ch "~")])
             (class_match lineFlags false
                [CChar (ch "<"); CChar (ch ">"); CChar (ch "="); CChar (ch "~")])
             op rest bef cs eq_refl).
    destruct op as [|a [|b [|c op]]]; try discriminate Hop.
    + cbn [isOperator] in Hop. rewrite cmp_class. auto.
    + cbn [isOperator] in Hop. apply andb_true_iff in Hop.
      rewrite !cmp_class. exact Hop.
  - unfold endIndex, mk. cbn [before]. rewrite length_app, length_rev.
    destruct op; [discriminate Hop|]. cbn [length]. lia.
Qed.

Lemma requirement_version_first bef name sp1 op sp2 d tail rest :
  name <> [] -> nameChars name = true ->
  forallb isSpace sp1 = true ->
  isOperator op = true ->
  forallb isSpace sp2 = true ->
  isDigit d = true -> numberTail tail = true ->
  afterRequirement rest = true ->
  lineStart bef ->
  first_is (m lineFlags Re.requirementRegex
              (mk bef (name ++ sp1 ++ op ++ sp2 ++ d :: tail ++ rest) []))
           (mk (rev (op ++ sp2 ++ d :: tail) ++ rev sp1 ++ rev name ++ bef) rest
               (cap_set 2 (op ++ sp2 ++ d :: tail) (cap_set 1 name []))).
Proof.
  intros Hnn Hn Hs1 Hop Hs2 Hd Ht Hr Hb. rewrite requirementRegex_shape.
  rewrite m_Bol_start by (auto; reflexivity).
  assert (Hop1 : exists o op', op = o :: op' /\ isCmp o = true).
  { destruct op as [|a [|b [|c op]]]; try discriminate Hop.
    - exists a, []. auto.
    - exists a, [b]. cbn [isOperator] in Hop. apply andb_true_iff in Hop.
      split; [reflexivity|apply Hop]. }
  destruct Hop1 as [o [op' [Eop Ho]]].
  eapply first_seq_cons.
  { apply (@first_Group lineFlags 1 _ name bef).
    apply (@first_plus lineFlags
             (not_of [CChar (ch "="); CChar (ch ">"); CChar (ch "<");
                      CChar (ch "~"); CSpace])
             (class_match lineFlags true
                [CChar (ch "="); CChar (ch ">"); CChar (ch "<");
                 CChar (ch "~"); CSpace])
             name (sp1 ++ op ++ sp2 ++ d :: tail ++ rest) bef []
             eq_refl Hnn (forallb_eq _ _ name name_class Hn)).
    destruct sp1 as [|s sp1].
    - subst op. unfold stops. cbn [app]. rewrite name_class, Ho. reflexivity.
    - unfold stops. cbn [app]. rewrite name_class. cbn [forallb] in Hs1.
      apply andb_true_iff in Hs1. destruct Hs1 as [-> _]. apply andb_false_r. }
  eapply first_seq_cons.
  { apply (@first_star lineFlags ws (class_match lineFlags false [CSpace])
             sp1 (op ++ sp2 ++ d :: tail ++ rest) (rev name ++ bef)
             (cap_set 1 name [])
             eq_refl (forallb_eq _ _ sp1 line_ws_class Hs1)).
    subst op. unfold stops. cbn [app]. rewrite line_ws_class.
    exact (cmp_not_space o Ho). }
  eapply first_seq_cons; [|apply first_seq_nil].
  set (bef1 := rev sp1 ++ rev name ++ bef).
  apply (@first_opt_taken lineFlags _
           (mk bef1 (op ++ sp2 ++ d :: tail ++ rest) (cap_set 1 name []))
           (mk (rev (op ++ sp2 ++ d :: tail) ++ bef1) rest
               (cap_set 2 (op ++ sp2 ++ d :: tail) (cap_set 1 name [])))).
  - cbn [before after caps mk].
    change (cap_clear _ (cap_set 1 name [])) with (cap_set 1 name []).
    replace (op ++ sp2 ++ d :: tail ++ rest)
      with ((op ++ sp2 ++ d :: tail) ++ rest)
      by (rewrite <- !app_assoc; cbn [app]; rewrite <- ?app_assoc; reflexivity).
    apply (@first_Group lineFlags 2 _ (op ++ sp2 ++ d :: tail) bef1).
    replace ((op ++ sp2 ++ d :: tail) ++ rest)
      with (op ++ sp2 ++ d :: tail ++ rest)
      by (rewrite <- !app_assoc; cbn [app]; rewrite <- ?app_assoc; reflexivity).
    replace (rev (op ++ sp2 ++ d :: tail) ++ bef1)
      with (rev tail ++ d :: rev sp2 ++ rev op ++ bef1)
      by (rewrite !rev_app_distr; cbn [rev]; rewrite <- !app_assoc;
          reflexivity).
    eapply first_seq_cons.
    { apply (@operator_first op (sp2 ++ d :: tail ++ rest) bef1 _ Hop).
      destruct sp2 as [|s sp2].
      - unfold stops. cbn [app]. rewrite cmp_class.
        exact (digit_not_cmp d Hd).
      - unfold stops. cbn [app]. rewrite cmp_class. cbn [forallb] in Hs2.
        apply andb_true_iff in Hs2. destruct Hs2 as [Hs _].
        destruct (isCmp s) eqn:Ec; [|reflexivity].
        apply cmp_not_space in Ec. rewrite Ec in Hs. discriminate Hs. }
    eapply first_seq_cons.
    { apply (@first_star lineFlags ws (class_match lineFlags false [CSpace])
               sp2 (d :: tail ++ rest) (rev op ++ bef1) (cap_set 1 name [])
               eq_refl (forallb_eq _ _ sp2 line_ws_class Hs2)).
      unfold stops. rewrite line_ws_class. exact (digit_not_space d Hd). }
    eapply first_seq_cons.
    { exact (@first_single lineFlags (Class false [CRange (ch "0") (ch "9")])
               (class_match lineFlags false [CRange (ch "0") (ch "9")])
               d (rev sp2 ++ rev op ++ bef1) (tail ++ rest) (cap_set 1 name [])
               eq_refl (eq_trans (digit09_class d) Hd)). }
    eapply first_seq_cons; [|apply first_seq_nil].
    apply (@first_star lineFlags (not_of [CChar (ch ";"); CSpace])
             (class_match lineFlags true [CChar (ch ";"); CSpace])
             tail rest (d :: rev sp2 ++ rev op ++ bef1) (cap_set 1 name [])
             eq_refl (forallb_eq _ _ tail tail_class Ht)).
    destruct rest as [|c rest]; [exact I|]. unfold stops. rewrite tail_class.
    cbn [afterRequirement] in Hr. apply orb_true_iff in Hr.
    destruct Hr as [-> | ->]; [reflexivity|apply andb_false_r].
  - unfold endIndex, mk. cbn [before]. rewrite length_app, length_rev.
    subst op. cbn [app length]. lia.
Qed.

(** Without an operator, a caret, white space or a digit ahead, there is no
    version to capture. *)
Lemma no_version bef rest cs :
  noVersionAhead rest = true ->
  m lineFlags
    (Group 2
       (seq [opt (Alt (Rep (Class false [CChar (ch "<"); CChar (ch ">");
                                         CChar (ch "="); CChar (ch "~")])
                           1 (Some 2) true)
                      (Char (ch "^")));
             star ws;
             Class false [CRange (ch "0") (ch "9")];
             star (not_of [CChar (ch ";"); CSpace])]))
    (mk bef rest cs) = [].
Proof.
  intros H. cbn [m].
  match goal with |- map _ ?l = [] => assert (E : l = []); [|rewrite E; reflexivity] end.
  change (m lineFlags
            (seq [opt (Alt (Rep (Class false [CChar (ch "<"); CChar (ch ">");
                                              CChar (ch "="); CChar (ch "~")])
                                1 (Some 2) true)
                           (Char (ch "^")));
                  star ws;
                  Class false [CRange (ch "0") (ch "9")];
                  star (not_of [CChar (ch ";"); CSpace])])
            (mk bef rest cs) = []).
  rewrite m_seq_cons, m_opt.
  cbn [before after caps mk groups app]. rewrite cap_clear_nil.
  assert (A : m lineFlags
                (Alt (Rep (Class false [CChar (ch "<"); CChar (ch ">");
                                        CChar (ch "="); CChar (ch "~")])
                          1 (Some 2) true)
                     (Char (ch "^")))
                (mk bef rest cs) = []).
  { cbn [m groups]. unfold step. cbn [mk after before caps].
    destruct rest as [|c rest].
    - reflexivity.
    - cbn [noVersionAhead] in H.
      repeat (apply andb_true_iff in H; destruct H as [H ?]).
      cbn [length Nat.add RepeatMatcher Nat.eqb negb andb dec_max pred
           before after caps].
      rewrite cap_clear_nil. cbn [m]. unfold step. cbn [mk after before caps].
      rewrite cmp_class.
      match goal with Hc : negb (isCmp c) = true |- _ =>
        apply negb_true_iff in Hc; rewrite Hc end.
      cbn [flat_map app]. unfold char_match. cbn [ignoreCase lineFlags].
      match goal with Hc : negb (N.eqb (ch "^") c) = true |- _ =>
        apply negb_true_iff in Hc; rewrite Hc end.
      reflexivity. }
  rewrite A. cbn [filter app flat_map]. rewrite app_nil_r.
  rewrite m_seq_cons.
  rewrite (@m_star lineFlags ws (class_match lineFlags false [CSpace])
             (mk bef rest cs) eq_refl).
  cbn [mk before after caps].
  destruct rest as [|c rest].
  - reflexivity.
  - cbn [noVersionAhead] in H.
    repeat (apply andb_true_iff in H; destruct H as [H ?]).
    cbn [greedy_states]. rewrite line_ws_class.
    apply negb_true_iff in H. rewrite H. cbn [flat_map]. rewrite app_nil_r.
    rewrite m_seq_cons. cbn [m]. unfold step, mk. cbn [after].
    rewrite digit09_class.
    match goal with Hc : negb (isDigit c) = true |- _ =>
      apply negb_true_iff in Hc; rewrite Hc end.
    reflexivity.
Qed.

Lemma requirement_bare_first bef name sp rest :
  name <> [] -> nameChars name = true ->
  forallb isSpace sp = true ->
  noVersionAhead rest = true -> (sp = [] -> rest = []) ->
  lineStart bef ->
  first_is (m lineFlags Re.requirementRegex (mk bef (name ++ sp ++ rest) []))
           (mk (rev sp ++ rev name ++ bef) rest (cap_set 1 name [])).
Proof.
  intros Hnn Hn Hs Hr Hsr Hb. rewrite requirementRegex_shape.
  rewrite m_Bol_start by (auto; reflexivity).
  assert (Hrs : stops isSpace rest).
  { destruct rest as [|c rest]; [exact I|]. cbn [noVersionAhead] in Hr.
    repeat (apply andb_true_iff in Hr; destruct Hr as [Hr ?]).
    apply negb_true_iff in Hr. exact Hr. }
  eapply first_seq_cons.
  { apply (@first_Group lineFlags 1 _ name bef).
    apply (@first_plus lineFlags
             (not_of [CChar (ch "="); CChar (ch ">"); CChar (ch "<");
                      CChar (ch "~"); CSpace])
             (class_match lineFlags true
                [CChar (ch "="); CChar (ch ">"); CChar (ch "<");
                 CChar (ch "~"); CSpace])
             name (sp ++ rest) bef []
             eq_refl Hnn (forallb_eq _ _ name name_class Hn)).
    destruct sp as [|s sp].
    - rewrite (Hsr eq_refl). exact I.
    - unfold stops. cbn [app]. rewrite name_class. cbn [forallb] in Hs.
      apply andb_true_iff in Hs. destruct Hs as [-> _]. apply andb_false_r. }
  eapply first_seq_cons.
  { apply (@first_star lineFlags ws (class_match lineFlags false [CSpace])
             sp rest (rev name ++ bef) (cap_set 1 name [])
             eq_refl (forallb_eq _ _ sp line_ws_class Hs)).
    destruct rest as [|c rest]; [exact I|]. unfold stops in *.
    rewrite line_ws_class. exact Hrs. }
  eapply first_seq_cons; [|apply first_seq_nil].
  apply (@first_opt_skipped lineFlags _
           (mk (rev sp ++ rev name ++ bef) rest (cap_set 1 name []))).
  cbn [before after caps mk]. apply no_version. exact Hr.
Qed.

(** Inside a line a pattern anchored at the line start finds nothing. *)
Lemma scan_bol_inline fl rs : forall w c bef,
  isLineTerminator c = false -> inLine w = true ->
  scan fl (seq (Bol :: rs)) (c :: bef) w = None.
Proof.
  induction w as [|a w IH]; intros c bef Hc Hw.
  - apply scan_end. apply m_Bol_fails. rewrite Hc. apply andb_false_r.
  - unfold inLine in Hw. cbn [forallb] in Hw. apply andb_true_iff in Hw.
    destruct Hw as [Ha Hw]. apply negb_true_iff in Ha.
    rewrite scan_next; [apply IH; assumption|].
    apply m_Bol_fails. rewrite Hc. apply andb_false_r.
Qed.

Lemma requirement_one_match content y l bef' :
  first_is (m lineFlags Re.requirementRegex (mk [] content [])) y ->
  before y = rev l ++ bef' -> l <> [] -> inLine l = true ->
  inLine (after y) = true ->
  allMatches Re.requirementRegex true content = [mk_result (0, y)].
Proof.
  intros F Eb Hl Hin Ha.
  destruct (@rev_head_inside l bef' Hl Hin) as [c [r [E Hc]]].
  apply (@allMatches_one Re.requirementRegex true content 0 y
           (@scan_first lineFlags Re.requirementRegex [] content y F)).
  - unfold endIndex. rewrite Eb, E. discriminate.
  - rewrite Eb, E. fold lineFlags. rewrite requirementRegex_shape.
    apply scan_bol_inline; assumption.
Qed.

Lemma nameChars_inLine s : nameChars s = true -> inLine s = true.
Proof.
  intros H. apply notSpace_inLine. unfold nameChars in H.
  rewrite forallb_forall in *. intros c Hc. specialize (H c Hc).
  apply andb_true_iff in H. tauto.
Qed.

Lemma numberTail_inLine s : numberTail s = true -> inLine s = true.
Proof.
  intros H. apply notSpace_inLine. unfold numberTail in H.
  rewrite forallb_forall in *. intros c Hc. specialize (H c Hc).
  apply andb_true_iff in H. tauto.
Qed.

Lemma requirement_bare_matches name sp rest :
  name <> [] -> nameChars name = true ->
  forallb isSpace sp = true ->
  noVersionAhead rest = true -> (sp = [] -> rest = []) ->
  inLine (sp ++ rest) = true ->
  exists mr,
    allMatches Re.requirementRegex true (name ++ sp ++ rest) = [mr] /\
    group 1 mr = Some name /\ group 2 mr = None.
Proof.
  intros Hnn Hn Hs Hr Hsr Hin. rewrite inLine_app in Hin.
  apply andb_true_iff in Hin. destruct Hin as [Hi1 Hi2].
  eexists. split; [|split].
  - apply (@requirement_one_match _ _ (name ++ sp) []
             (@requirement_bare_first [] name sp rest Hnn Hn Hs Hr Hsr I)).
    + cbn [mk before]. rewrite rev_app_distr, <- app_assoc. reflexivity.
    + destruct name; [contradiction|discriminate].
    + rewrite inLine_app, (nameChars_inLine name Hn), Hi1. reflexivity.
    + exact Hi2.
  - reflexivity.
  - reflexivity.
Qed.

Lemma requirement_version_matches name sp1 op sp2 d tail rest :
  name <> [] -> nameChars name = true ->
  forallb isSpace sp1 = true ->
  isOperator op = true ->
  forallb isSpace sp2 = true ->
  isDigit d = true -> numberTail tail = true ->
  afterRequirement rest = true -> inLine rest = true ->
  exists mr,
    allMatches Re.requirementRegex true
               (name ++ sp1 ++ op ++ sp2 ++ d :: tail ++ rest) = [mr] /\
    group 1 mr = Some name /\ group 2 mr = Some (op ++ sp2 ++ d :: tail).
Proof.
  intros Hnn Hn Hs1 Hop Hs2 Hd Ht Hr Hin.
  eexists. split; [|split].
  - apply (@requirement_one_match _ _ (d :: tail)
             (rev sp2 ++ rev op ++ rev sp1 ++ rev name ++ [])
             (@requirement_version_first [] name sp1 op sp2 d tail rest
                Hnn Hn Hs1 Hop Hs2 Hd Ht Hr I)).
    + cbn [mk before rev]. rewrite !rev_app_distr. cbn [rev].
      rewrite <- !app_assoc. reflexivity.
    + discriminate.
    + unfold inLine. cbn [forallb]. fold (inLine tail).
      rewrite (numberTail_inLine tail Ht), andb_true_r.
      apply negb_true_iff. destruct (isLineTerminator d) eqn:E; [|reflexivity].
      apply LT_is_space in E. rewrite (digit_not_space d Hd) in E.
      discriminate E.
    + exact Hin.
  - unfold mk_result, mk, group. cbn [mcaps caps].
    rewrite cap_get_set_other by discriminate. apply cap_get_set_same.
  - unfold mk_result, mk, group. cbn [mcaps caps]. apply cap_get_set_same.
Qed.

(** X13. A requirement that is a bare name, alone on its line or followed
    after white space by text that cannot begin a version, is reported with
    the version named unspecified.  The name is any run of characters other
    than white space and the comparison signs, so that a comment line is
    reported under the name of its first word. *)
Theorem python_requirement_without_version :
  forall (name sp rest : jsstring),
    name <> [] -> nameChars name = true ->
    forallb isSpace sp = true ->
    noVersionAhead rest = true -> (sp = [] -> rest = []) ->
    inLine (sp ++ rest) = true ->
    validatePythonPackage (name ++ sp ++ rest) =
      Normal [pythonMessage name (str "unspecified")].
Proof.
  intros name sp rest Hnn Hn Hs Hr Hsr Hin.
  destruct (@requirement_bare_matches name sp rest Hnn Hn Hs Hr Hsr Hin)
    as [mr [E [G1 G2]]].
  rewrite validatePythonPackage_matches, E. cbn [filter].
  unfold pythonFails. rewrite G2. cbn [map]. unfold captured.
  rewrite G1, G2. reflexivity.
Qed.

Lemma python_requirement_without_version_witness :
  validatePythonPackage (str "flask") =
    Normal [pythonMessage (str "flask") (str "unspecified")] /\
  validatePythonPackage (str "# pinned by hand") =
    Normal [pythonMessage (str "#") (str "unspecified")].
Proof.
  split.
  - exact (@python_requirement_without_version (str "flask") [] []
             ltac:(discriminate) eq_refl eq_refl eq_refl (fun _ => eq_refl)
             eq_refl).
  - exact (@python_requirement_without_version (str "#") (str " ")
             (str "pinned by hand")
             ltac:(discriminate) eq_refl eq_refl eq_refl
             ltac:(discriminate) eq_refl).
Defined.

(** X14. A requirement with a name, one or two comparison signs and a
    version that begins with a digit: the version reported is the operator
    together with the number, and the requirement is reported exactly when
    that text holds the compatible-release operator, a greater-than or a
    less-than sign; a pin with two equals signs is not reported.  What
    follows the version on the line, after a semicolon or white space, plays
    no part.  The marker of an added line is not taken off here: it counts
    as the first character of the name. *)
Theorem python_requirement_with_version :
  forall (name sp1 op sp2 : jsstring) (d : char) (tail rest : jsstring),
    name <> [] -> nameChars name = true ->
    forallb isSpace sp1 = true ->
    isOperator op = true ->
    forallb isSpace sp2 = true ->
    isDigit d = true -> numberTail tail = true ->
    afterRequirement rest = true -> inLine rest = true ->
    validatePythonPackage (name ++ sp1 ++ op ++ sp2 ++ d :: tail ++ rest) =
      Normal (if unpinned (op ++ sp2 ++ d :: tail)
              then [pythonMessage name (op ++ sp2 ++ d :: tail)] else []).
Proof.
  intros name sp1 op sp2 d tail rest Hnn Hn Hs1 Hop Hs2 Hd Ht Hr Hin.
  destruct (@requirement_version_matches name sp1 op sp2 d tail rest
              Hnn Hn Hs1 Hop Hs2 Hd Ht Hr Hin) as [mr [E [G1 G2]]].
  rewrite validatePythonPackage_matches, E. cbn [filter].
  unfold pythonFails. rewrite G2.
  destruct op as [|o op]; [discriminate Hop|]. cbn [app].
  fold (unpinned (o :: op ++ sp2 ++ d :: tail)).
  destruct (unpinned (o :: op ++ sp2 ++ d :: tail)); [|reflexivity].
  cbn [map]. unfold captured. rewrite G1, G2. reflexivity.
Qed.

Lemma python_requirement_with_version_witness :
  validatePythonPackage (str "requests>=2.28 ; python_version > '3'") =
    Normal [pythonMessage (str "requests") (str ">=2.28")] /\
  validatePythonPackage (str "requests==2.28.1") = Normal [] /\
  validatePythonPackage (str "+flask~=2.0") =
    Normal [pythonMessage (str "+flask") (str "~=2.0")].
Proof.
  split; [|split].
  - idtac.
    exact (@python_requirement_with_version (str "requests") [] (str ">=") []
             (ch "2") (str ".28") (str " ; python_version > '3'")
             ltac:(discriminate) eq_refl eq_refl eq_refl eq_refl eq_refl
             eq_refl eq_refl eq_refl).
  - exact (@python_requirement_with_version (str "requests") [] (str "==") []
             (ch "2") (str ".28.1") []
             ltac:(discriminate) eq_refl eq_refl eq_refl eq_refl eq_refl
             eq_refl eq_refl eq_refl).
  - exact (@python_requirement_with_version (str "+flask") [] (str "~=") []
             (ch "2") (str ".0") []
             ltac:(discriminate) eq_refl eq_refl eq_refl eq_refl eq_refl
             eq_refl eq_refl eq_refl).
Defined.

(* ================================================================== *)
(** * The selection of validators *)
(* ================================================================== *)

Lemma syntaxChar_not c x :
  syntaxChar c = false -> In x syntaxChars -> N.eqb c x = false.
Proof.
  unfold syntaxChar. intros H Hx.
  destruct (N.eqb c x) eqn:E; [|reflexivity].
  assert (T : existsb (N.eqb c) syntaxChars = true)
    by (apply existsb_exists; exists x; auto).
  rewrite T in H. discriminate H.
Qed.

Ltac not_syntax H x :=
  let E := fresh "E" in
  assert (E : N.eqb _ x = false)
    by (apply (@syntaxChar_not _ x H); unfold syntaxChars; simpl; tauto);
  rewrite E; clear E.

Lemma quantify_plain r s n :
  plainPath s = true -> Pattern.quantify r s n = Normal (r, s, n).
Proof.
  intros H. destruct s as [|c s]; [reflexivity|].
  unfold plainPath in H. cbn [forallb] in H. apply andb_true_iff in H.
  destruct H as [H _]. apply negb_true_iff in H.
  unfold Pattern.quantify, Pattern.isc.
  not_syntax H (ch "*"). not_syntax H (ch "+"). not_syntax H (ch "?"). not_syntax H (ch "{").
  reflexivity.
Qed.

Lemma parseTerm_plain f c s n :
  syntaxChar c = false ->
  Pattern.parseTerm (S f) (c :: s) n = Pattern.quantify (atomOf c) s n.
Proof.
  intros H. cbn [Pattern.parseTerm]. unfold Pattern.isc.
  not_syntax H (ch "^"). not_syntax H (ch "$"). not_syntax H (ch "("). not_syntax H (ch "*").
  not_syntax H (ch "+"). not_syntax H (ch "?"). not_syntax H (ch ")"). not_syntax H (ch "{").
  not_syntax H (ch "["). cbn [orb]. unfold atomOf.
  destruct (N.eqb c (ch ".")); [reflexivity|].
  not_syntax H (ch "\"). reflexivity.
Qed.

Lemma parseAlternative_plain : forall s fuel n acc,
  plainPath s = true -> length s + 1 < fuel ->
  Pattern.parseAlternative fuel s n acc =
  Normal (seq (rev acc ++ map atomOf s), [], n).
Proof.
  induction s as [|c s IH]; intros fuel n acc H Hf.
  - destruct fuel as [|f]; [inversion Hf|]. cbn [Pattern.parseAlternative map].
    rewrite app_nil_r. reflexivity.
  - destruct fuel as [|[|f]]; [inversion Hf|cbn [length] in Hf; lia|].
    assert (Hs : plainPath s = true).
    { unfold plainPath in *. cbn [forallb] in H. apply andb_true_iff in H.
      apply H. }
    assert (Hc : syntaxChar c = false).
    { unfold plainPath in H. cbn [forallb] in H. apply andb_true_iff in H.
      destruct H as [H _]. apply negb_true_iff in H. exact H. }
    change (Pattern.parseAlternative (S (S f)) (c :: s) n acc)
      with (if Pattern.isc "|" c || Pattern.isc ")" c
            then Normal (seq (rev acc), c :: s, n)
            else '(t, s1, n1) <- Pattern.parseTerm (S f) (c :: s) n ;;
                 Pattern.parseAlternative (S f) s1 n1 (t :: acc)).
    unfold Pattern.isc. not_syntax Hc (ch "|"). not_syntax Hc (ch ")"). cbn [orb].
    rewrite (@parseTerm_plain f c s n Hc), (@quantify_plain (atomOf c) s n Hs).
    cbn [bind]. rewrite (IH (S f) n (atomOf c :: acc) Hs)
      by (cbn [length] in Hf; lia).
    cbn [rev map]. rewrite <- app_assoc. reflexivity.
Qed.

(** A plain path is a well-formed pattern: its characters in a row, each
    dot a wildcard. *)
Lemma parse_plain path :
  plainPath path = true -> Pattern.parse path = Normal (pathRegex path).
Proof.
  intros H. unfold Pattern.parse.
  replace (3 * length path + 4) with (S (3 * length path + 3)) by lia.
  cbn [Pattern.parseDisjunction].
  rewrite (@parseAlternative_plain path (3 * length path + 3) 0 [] H) by lia.
  reflexivity.
Qed.

Lemma m_atomOf p bef s cs :
  m plainFlags (atomOf p) (mk bef s cs) =
  match s with
  | a :: s' =>
      if (if N.eqb p (ch ".") then negb (isLineTerminator a) else N.eqb p a)
      then [mk (a :: bef) s' cs] else []
  | [] => []
  end.
Proof.
  unfold atomOf. destruct (N.eqb p (ch ".")); cbn [m]; unfold step, mk;
    cbn [after before caps]; destruct s; reflexivity.
Qed.

Lemma m_pathRegex : forall path bef s cs,
  succeeds (m plainFlags (pathRegex path) (mk bef s cs)) = matchesHere path s.
Proof.
  unfold pathRegex. induction path as [|p path IH]; intros bef s cs.
  - destruct s; reflexivity.
  - cbn [map]. rewrite m_seq_cons, m_atomOf.
    destruct s as [|a s]; [reflexivity|]. cbn [matchesHere].
    destruct (if N.eqb p (ch ".") then negb (isLineTerminator a) else N.eqb p a).
    + cbn [flat_map andb]. rewrite app_nil_r. apply IH.
    + reflexivity.
Qed.

Lemma scan_pathRegex path : forall s bef,
  match scan plainFlags (pathRegex path) bef s with
  | Some _ => true
  | None => false
  end = occurs path s.
Proof.
  induction s as [|a s IH]; intros bef.
  - cbn [scan occurs]. fold (mk bef [] []).
    rewrite <- (m_pathRegex path bef [] []).
    destruct (m plainFlags (pathRegex path) (mk bef [] [])); reflexivity.
  - cbn [scan occurs]. fold (mk bef (a :: s) []).
    rewrite <- (m_pathRegex path bef (a :: s) []).
    destruct (m plainFlags (pathRegex path) (mk bef (a :: s) []));
      [apply IH|reflexivity].
Qed.

Lemma some_existsb {A : Type} (f : A -> bool) l :
  some (fun x => Normal (f x)) l = Normal (existsb f l).
Proof.
  induction l as [|x l IH]; [reflexivity|]. cbn [some bind existsb].
  destruct (f x); [reflexivity|exact IH].
Qed.

Lemma match_string_plain pattern path :
  plainPath path = true ->
  (r <- match_string pattern path ;;
   Normal (match r with Some _ => true | None => false end)) =
  Normal (occurs path pattern).
Proof.
  intros H. unfold match_string, RegExpCreate. rewrite (parse_plain path H).
  cbn [bind]. rewrite match_first_scan. fold plainFlags.
  rewrite <- (scan_pathRegex path pattern []).
  destruct (scan plainFlags (pathRegex path) [] pattern); reflexivity.
Qed.

Lemma some_ext {A : Type} (f g : A -> completion bool) l :
  (forall x, f x = g x) -> some f l = some g l.
Proof.
  intros E. induction l as [|x l IH]; [reflexivity|]. cbn [some].
  rewrite E, IH. reflexivity.
Qed.

Lemma selects_plain v path :
  plainPath path = true -> selects v path = Normal (selectsPlain v path).
Proof.
  intros H. unfold selects, selectsPlain.
  rewrite (some_existsb (endsWith path) (extensions v)). cbn [bind].
  destruct (existsb (endsWith path) (extensions v)); [reflexivity|].
  cbn [orb].
  rewrite (some_ext _ (fun pattern => Normal (occurs path pattern)) (patterns v)
             (fun pattern => match_string_plain pattern path H)).
  apply some_existsb.
Qed.

(** X15. For a path of plain characters and dots, a validator is selected
    when the path ends with one of its extensions or when the path, read as
    a pattern in which each dot stands for any character, occurs somewhere
    in one of the validator's patterns: the path is searched for in the
    pattern, not the pattern in the path, and the stars and braces of the
    patterns are never read as wildcards.  A path longer than every pattern
    can only be selected by its extension. *)
Theorem validator_selection_plain_path :
  forall (v : FileValidator) (path : jsstring),
    plainPath path = true ->
    selects v path =
      Normal (existsb (endsWith path) (extensions v)
              || existsb (occurs path) (patterns v)) /\
    ((forall pattern, In pattern (patterns v) -> length pattern < length path) ->
     selects v path = Normal (existsb (endsWith path) (extensions v))).
Proof.
  intros v path H. split; [exact (@selects_plain v path H)|].
  intros Hl. rewrite (@selects_plain v path H). unfold selectsPlain.
  replace (existsb (occurs path) (patterns v)) with false;
    [rewrite orb_false_r; reflexivity|].
  symmetry. apply not_true_is_false. intros E.
  apply existsb_exists in E. destruct E as [p [Hp E]].
  specialize (Hl p Hp). revert E Hl. clear. revert path.
  assert (M : forall path s, matchesHere path s = true -> length path <= length s).
  { induction path as [|c path IH]; intros [|a s] E; cbn [length]; try lia.
    - discriminate E.
    - cbn [matchesHere] in E. apply andb_true_iff in E. destruct E as [_ E].
      apply IH in E. lia. }
  induction p as [|a p IH]; intros path E Hl.
  - cbn [occurs] in E. rewrite orb_false_r in E. apply M in E. lia.
  - cbn [occurs] in E. apply orb_true_iff in E. destruct E as [E|E].
    + apply M in E. lia.
    + apply (IH path E). cbn [length] in Hl. lia.
Qed.

Lemma validator_selection_plain_path_witness :
  selects {| extensions := [str ".gradle"; str ".pom"];
             patterns := [str "build.gradle"; str "pom.xml"];
             validate := validateJavaPackage |} (str "build") = Normal true /\
  selects {| extensions := [str ".txt"; str ".pip"];
             patterns := [str "requirements.txt"; str "requirements/*.txt";
                          str "requirements/**.txt"];
             validate := validatePythonPackage |}
          (str "requirements/production.in") = Normal false.
Proof.
  split.
  - exact (proj1 (@validator_selection_plain_path
             {| extensions := [str ".gradle"; str ".pom"];
                patterns := [str "build.gradle"; str "pom.xml"];
                validate := validateJavaPackage |} (str "build") eq_refl)).
  - exact (proj1 (@validator_selection_plain_path
             {| extensions := [str ".txt"; str ".pip"];
                patterns := [str "requirements.txt"; str "requirements/*.txt";
                             str "requirements/**.txt"];
                validate := validatePythonPackage |}
             (str "requirements/production.in") eq_refl)).
Defined.

(* ---------------------------------------------------------------- *)
(** ** The analysis of files with plain paths *)

Lemma issuesOf_Normal c :
  (exists found, c = Normal found) -> c = Normal (issuesOf c).
Proof. intros [found ->]. reflexivity. Qed.

(** No validator of the two registries throws. *)
Lemma validators_complete v content :
  In v (allValidators module_globals) ->
  validate v content = Normal (issuesOf (validate v content)).
Proof.
  intros H. apply issuesOf_Normal.
  unfold allValidators, module_globals, Object_values in H.
  cbn [PACKAGE_VALIDATORS CONTAINER_VALIDATORS map snd app In] in H.
  destruct H as [<-|[<-|[<-|[<-|[<-|[<-|[<-|[]]]]]]]]; cbn [validate].
  - rewrite validateNodePackage_matches. eexists. reflexivity.
  - rewrite validatePythonPackage_matches. eexists. reflexivity.
  - rewrite validateRubyPackage_matches. eexists. reflexivity.
  - rewrite validateJavaPackage_matches. eexists. reflexivity.
  - rewrite validateDockerfile_lines. eexists. reflexivity.
  - rewrite validateKubernetesManifest_matches. eexists. reflexivity.
  - rewrite validateDockerCompose_matches. eexists. reflexivity.
Qed.

Lemma runValidators_plain path content : forall vs issues,
  plainPath path = true ->
  (forall v, In v vs -> validate v content = Normal (issuesOf (validate v content))) ->
  runValidators vs path content issues =
  Normal (issues ++ flat_map (fun v => issuesOf (validate v content))
                             (filter (fun v => selectsPlain v path) vs)).
Proof.
  unfold runValidators.
  induction vs as [|v vs IH]; intros issues H Hv.
  - cbn [for_of filter flat_map]. rewrite app_nil_r. reflexivity.
  - cbn [for_of filter]. rewrite (@selects_plain v path H). cbn [bind].
    destruct (selectsPlain v path).
    + rewrite (Hv v (or_introl eq_refl)). cbn [bind flat_map].
      rewrite (IH _ H (fun w Hw => Hv w (or_intror Hw))).
      rewrite <- app_assoc. reflexivity.
    + cbn [bind]. apply (IH _ H (fun w Hw => Hv w (or_intror Hw))).
Qed.

Lemma analyzeFile_plain file issues :
  plainFile file ->
  analyzeFile module_globals file issues = Normal (issues ++ fileWarnings file).
Proof.
  unfold plainFile, analyzeFile, fileWarnings.
  destruct (to file) as [[|c path]|]; intros H;
    try (rewrite app_nil_r; reflexivity).
  set (p := c :: path) in *. cbv beta iota.
  destruct (jseq p (str "/dev/null")); [rewrite app_nil_r; reflexivity|].
  rewrite (@runValidators_plain p (diffContent file) _ issues H
             (fun v Hv => @validators_complete v (diffContent file)
                            (in_or_app _ _ v (or_introl Hv)))).
  cbn [bind].
  rewrite (@runValidators_plain p (diffContent file) _ _ H
             (fun v Hv => @validators_complete v (diffContent file)
                            (in_or_app _ _ v (or_intror Hv)))).
  cbn [bind]. unfold fileIssues, allValidators.
  rewrite filter_app, flat_map_app, validateDatabaseMigration_eq.
  destruct (isMigrationPath p); cbn [bind issuesOf];
    rewrite <- ?app_assoc, ?app_nil_r; reflexivity.
Qed.

Lemma analysis_of_plain_paths_aux d :
  Forall plainFile d ->
  forall issues,
    for_of d (analyzeFile module_globals) issues =
    Normal (issues ++ flat_map fileWarnings d).
Proof.
  intros H. induction H as [|f d Hf Hd IH]; intros issues.
  - cbn [for_of flat_map]. rewrite app_nil_r. reflexivity.
  - cbn [for_of flat_map]. rewrite (@analyzeFile_plain f issues Hf). cbn [bind].
    rewrite IH, app_assoc. reflexivity.
Qed.

(** X16. When every path of the diff is made of plain characters and dots
    the analysis does not fail, and its result is, file after file, what the
    selected validators return in the order node, python, ruby, java,
    docker, kubernetes, compose, followed by what the migration check
    returns when the path is that of a migration.  A validator selected
    twice over, by extension and by pattern, runs once; two validators that
    share an extension both run. *)
Theorem analysis_of_plain_paths :
  forall (parsedDiff : list File),
    Forall plainFile parsedDiff ->
    fst (analyzeCode parsedDiff module_globals) =
      Normal (flat_map fileWarnings parsedDiff).
Proof.
  intros d H. unfold analyzeCode. cbn [fst].
  exact (@analysis_of_plain_paths_aux d H []).
Qed.

Lemma analysis_of_plain_paths_witness :
  fst (analyzeCode
         [ {| to := Some (str "deploy/web.yml");
              chunks := [ {| changes :=
                               [ {| type := add;
                                    content := str "+    image: nginx" |} ] |} ] |} ]
         module_globals) =
    Normal [kubernetesMessage (str "nginx") (str "latest");
            composeMessage (str "nginx") (str "latest")].
Proof.
  etransitivity.
  - apply (@analysis_of_plain_paths
             [ {| to := Some (str "deploy/web.yml");
                  chunks := [ {| changes :=
                                   [ {| type := add;
                                        content := str "+    image: nginx" |} ] |} ] |} ]).
    repeat constructor.
  - vm_compute. reflexivity.
Defined.

(* ---------------------------------------------------------------- *)
(** ** Paths that are not patterns *)

Lemma quantify_head r c s n :
  syntaxChar c = false -> Pattern.quantify r (c :: s) n = Normal (r, c :: s, n).
Proof.
  intros H. unfold Pattern.quantify, Pattern.isc.
  not_syntax H (ch "*"). not_syntax H (ch "+"). not_syntax H (ch "?").
  not_syntax H (ch "{"). reflexivity.
Qed.

Lemma parseAlternative_S f c s n acc :
  Pattern.parseAlternative (S f) (c :: s) n acc =
  if Pattern.isc "|" c || Pattern.isc ")" c
  then Normal (seq (rev acc), c :: s, n)
  else '(t, s1, n1) <- Pattern.parseTerm f (c :: s) n ;;
       Pattern.parseAlternative f s1 n1 (t :: acc).
Proof. reflexivity. Qed.

Lemma parseAlternative_plus f post n acc :
  Pattern.parseAlternative (S (S f)) (ch "+" :: post) n acc = Throw SyntaxError.
Proof. reflexivity. Qed.

(** Two plus signs in a row after plain text: the second has nothing to
    repeat. *)
Lemma parseAlternative_double_plus post : forall pre fuel n acc,
  plainPath pre = true -> length pre + 3 < fuel ->
  Pattern.parseAlternative fuel (pre ++ ch "+" :: ch "+" :: post) n acc =
  Throw SyntaxError.
Proof.
  induction pre as [|c pre IH]; intros fuel n acc H Hf.
  - destruct fuel as [|[|f]]; try (cbn [length] in Hf; lia). reflexivity.
  - destruct fuel as [|[|f]]; try (cbn [length] in Hf; lia).
    assert (Hs : plainPath pre = true).
    { unfold plainPath in *. cbn [forallb] in H. apply andb_true_iff in H.
      apply H. }
    assert (Hc : syntaxChar c = false).
    { unfold plainPath in H. cbn [forallb] in H. apply andb_true_iff in H.
      destruct H as [H _]. apply negb_true_iff in H. exact H. }
    cbn [app]. rewrite parseAlternative_S. unfold Pattern.isc.
    not_syntax Hc (ch "|"). not_syntax Hc (ch ")"). cbn [orb].
    rewrite (@parseTerm_plain f c _ n Hc).
    destruct pre as [|d pre].
    + cbn [app]. destruct f as [|[|f]]; try (cbn [length] in Hf; lia).
      reflexivity.
    + assert (Hd : syntaxChar d = false).
      { unfold plainPath in Hs. cbn [forallb] in Hs. apply andb_true_iff in Hs.
        destruct Hs as [Hs _]. apply negb_true_iff in Hs. exact Hs. }
      cbn [app]. rewrite (@quantify_head (atomOf c) d _ n Hd). cbn [bind].
      apply (IH (S f) n (atomOf c :: acc) Hs). cbn [length] in *. lia.
Qed.

Lemma parse_double_plus pre post :
  plainPath pre = true ->
  Pattern.parse (pre ++ str "++" ++ post) = Throw SyntaxError.
Proof.
  intros H. unfold Pattern.parse.
  replace (3 * length (pre ++ str "++" ++ post) + 4)
    with (S (3 * length (pre ++ str "++" ++ post) + 3)) by lia.
  cbn [Pattern.parseDisjunction].
  change (pre ++ str "++" ++ post) with (pre ++ ch "+" :: ch "+" :: post).
  rewrite (@parseAlternative_double_plus post pre _ 0 [] H);
    [reflexivity|].
  rewrite length_app. cbn [length]. lia.
Qed.

Lemma endsWith_last s p q :
  endsWith s p = true -> endsWith s q = true ->
  hd_error (rev p) = hd_error (rev q) \/ p = [] \/ q = [].
Proof.
  unfold endsWith. destruct (rev p) as [|x p'] eqn:Ep.
  - right. left. apply (f_equal (@rev _)) in Ep. rewrite rev_involutive in Ep.
    exact Ep.
  - destruct (rev q) as [|y q'] eqn:Eq.
    + right. right. apply (f_equal (@rev _)) in Eq.
      rewrite rev_involutive in Eq. exact Eq.
    + destruct (rev s) as [|a t]; [discriminate|]. cbn [startsWith].
      intros H1 H2. apply andb_true_iff in H1. apply andb_true_iff in H2.
      destruct H1 as [H1 _]. destruct H2 as [H2 _]. unfold char_eqb in *.
      apply N.eqb_eq in H1. apply N.eqb_eq in H2. left. cbn. congruence.
Qed.

(** A path that is no pattern reaches the constructor whatever it ends
    with: no path ends both with [package.json] and with [.txt] or [.pip]. *)
Lemma runValidators_rejected path e content issues :
  Pattern.parse path = Throw e ->
  runValidators (Object_values (PACKAGE_VALIDATORS module_globals))
                path content issues = Throw e.
Proof.
  intros E. unfold runValidators, module_globals, Object_values.
  cbn [PACKAGE_VALIDATORS map snd for_of].
  assert (T : forall pattern l,
             some (fun pattern =>
                     r <- match_string pattern path ;;
                     Normal (match r with Some _ => true | None => false end))
                  (pattern :: l) = Throw e).
  { intros pattern l. cbn [some]. unfold match_string, RegExpCreate.
    rewrite E. reflexivity. }
  assert (P : selects {| extensions := [str ".txt"; str ".pip"];
                         patterns := [str "requirements.txt";
                                      str "requirements/*.txt";
                                      str "requirements/**.txt"];
                         validate := validatePythonPackage |} path = Throw e
              \/ endsWith path (str "package.json") = false).
  { destruct (endsWith path (str "package.json")) eqn:En; [left|right; reflexivity].
    unfold selects. cbn [extensions patterns].
    rewrite (some_existsb (endsWith path) [str ".txt"; str ".pip"]).
    cbn [existsb].
    destruct (endsWith path (str ".txt")) eqn:E1.
    { destruct (@endsWith_last path _ _ En E1) as [X|[X|X]]; discriminate X. }
    destruct (endsWith path (str ".pip")) eqn:E2.
    { destruct (@endsWith_last path _ _ En E2) as [X|[X|X]]; discriminate X. }
    cbn [orb bind]. apply T. }
  unfold selects at 1. cbn [extensions patterns].
  rewrite (some_existsb (endsWith path) [str "package.json"]).
  cbn [existsb]. rewrite orb_false_r.
  destruct (endsWith path (str "package.json")) eqn:En.
  - cbn [bind validate]. rewrite validateNodePackage_matches. cbn [bind].
    destruct P as [P|P]; [|discriminate P]. rewrite P. reflexivity.
  - cbn [bind]. rewrite T. reflexivity.
Qed.

Lemma analyzeFile_rejected file issues path e :
  to file = Some path -> Pattern.parse path = Throw e ->
  analyzeFile module_globals file issues = Throw e.
Proof.
  intros Ht E. unfold analyzeFile. rewrite Ht.
  destruct path as [|c path]; [discriminate E|].
  destruct (jseq (c :: path) (str "/dev/null")) eqn:Ej.
  - apply jseq_eq in Ej. rewrite Ej in E. discriminate E.
  - rewrite (@runValidators_rejected (c :: path) e _ issues E). reflexivity.
Qed.

Lemma analysis_rejected before_ after_ file path e :
  Forall plainFile before_ ->
  to file = Some path -> Pattern.parse path = Throw e ->
  fst (analyzeCode (before_ ++ file :: after_) module_globals) = Throw e.
Proof.
  intros Hb Ht E. unfold analyzeCode. cbn [fst].
  rewrite for_of_app.
  rewrite (@analysis_of_plain_paths_aux before_ Hb []).
  cbn [bind for_of].
  rewrite (@analyzeFile_rejected file _ path e Ht E).
  reflexivity.
Qed.

(** X17. The path of every analysed file is handed to the [RegExp]
    constructor.  A path with two plus signs in a row after plain text is no
    pattern: the analysis of a diff that holds such a file, after files with
    plain paths, throws a SyntaxError, and nothing of what was found in the
    files before it is returned. *)
Theorem analysis_rejects_path_with_double_plus :
  forall (before_ after_ : list File) (file : File) (pre post : jsstring),
    Forall plainFile before_ ->
    to file = Some (pre ++ str "++" ++ post) ->
    plainPath pre = true ->
    fst (analyzeCode (before_ ++ file :: after_) module_globals) =
      Throw SyntaxError.
Proof.
  intros bf af file pre post Hb Ht Hp.
  exact (@analysis_rejected bf af file _ SyntaxError Hb Ht
           (@parse_double_plus pre post Hp)).
Qed.

Lemma analysis_rejects_path_with_double_plus_witness :
  fst (analyzeCode
         [ {| to := Some (str "Dockerfile");
              chunks := [ {| changes :=
                               [ {| type := add;
                                    content := str "+FROM node" |} ] |} ] |};
           {| to := Some (str "libstdc++/Makefile"); chunks := [] |} ]
         module_globals) = Throw SyntaxError.
Proof.
  apply (@analysis_rejects_path_with_double_plus
           [ {| to := Some (str "Dockerfile");
                chunks := [ {| changes :=
                                 [ {| type := add;
                                      content := str "+FROM node" |} ] |} ] |} ]
           [] {| to := Some (str "libstdc++/Makefile"); chunks := [] |}
           (str "libstdc") (str "/Makefile")).
  - repeat constructor.
  - reflexivity.
  - reflexivity.
Defined.

(* ================================================================== *)
(** * The text put to the checks *)
(* ================================================================== *)

Lemma diffContent_keptLines file :
  diffContent file = join [LF] (map (join [LF]) (keptLines file)).
Proof.
  unfold diffContent, keptLines. rewrite map_map. reflexivity.
Qed.

Lemma analyzeFile_same g f f' issues :
  to f = to f' -> keptLines f = keptLines f' ->
  analyzeFile g f issues = analyzeFile g f' issues.
Proof.
  intros Et Ek. unfold analyzeFile.
  rewrite (diffContent_keptLines f), (diffContent_keptLines f'), Et, Ek.
  reflexivity.
Qed.

Lemma for_of_same {A : Type} (body body' : A -> list jsstring -> completion (list jsstring))
      (l l' : list A) (R : A -> A -> Prop) :
  (forall a a' issues, R a a' -> body a issues = body' a' issues) ->
  Forall2 R l l' ->
  forall issues, for_of l body issues = for_of l' body' issues.
Proof.
  intros Hb H. induction H as [|a a' l l' Ha Hl IH]; intros issues;
    [reflexivity|].
  cbn [for_of]. rewrite (Hb a a' issues Ha).
  destruct (body' a' issues); cbn [bind]; [apply IH|reflexivity].
Qed.

Lemma keptLines_dropRemoved file : keptLines (dropRemoved file) = keptLines file.
Proof.
  unfold keptLines, dropRemoved. cbn [chunks]. rewrite map_map.
  apply map_ext. intros chunk. cbn [changes]. f_equal.
  induction (changes chunk) as [|c l IH]; [reflexivity|]. cbn [filter].
  destruct (kept c) eqn:E; cbn [filter]; rewrite ?E, IH; reflexivity.
Qed.

Lemma keptLines_asAdded file : keptLines (asAdded file) = keptLines file.
Proof.
  unfold keptLines, asAdded. cbn [chunks]. rewrite map_map.
  apply map_ext. intros chunk. cbn [changes].
  induction (changes chunk) as [|c l IH]; [reflexivity|]. cbn [map filter].
  destruct c as [[| |] text]; unfold kept; cbn [type content map];
    fold kept; try rewrite IH; reflexivity.
Qed.

(** X18. The analysis reads a file only through its destination path and
    the texts of its added and context lines, chunk after chunk: two diffs
    that agree on these have the same analysis.  So the removed lines play no
    part, and whether a line is an added line or a context line makes no
    difference beyond its text. *)
Theorem analysis_reads_kept_lines_only :
  forall (d d' : list File) (g : Globals),
    Forall2 (fun f f' => to f = to f' /\ keptLines f = keptLines f') d d' ->
    analyzeCode d g = analyzeCode d' g /\
    analyzeCode (map dropRemoved d) g = analyzeCode d g /\
    analyzeCode (map asAdded d) g = analyzeCode d g.
Proof.
  assert (G : forall (d d' : list File) g,
             Forall2 (fun f f' => to f = to f' /\ keptLines f = keptLines f') d d' ->
             analyzeCode d g = analyzeCode d' g).
  { intros d d' g H. unfold analyzeCode. f_equal.
    apply (for_of_same (analyzeFile g) (analyzeFile g) (l := d) (l' := d')
             (R := fun f f' => to f = to f' /\ keptLines f = keptLines f'));
      [|exact H].
    intros f f' issues [Et Ek]. apply analyzeFile_same; assumption. }
  intros d d' g H. split; [exact (G d d' g H)|]. split.
  - apply G. clear. induction d as [|f d IH]; constructor; [|exact IH].
    split; [reflexivity|apply keptLines_dropRemoved].
  - apply G. clear. induction d as [|f d IH]; constructor; [|exact IH].
    split; [reflexivity|apply keptLines_asAdded].
Qed.

Lemma analysis_reads_kept_lines_only_witness :
  analyzeCode
    [ {| to := Some (str "Dockerfile");
         chunks := [ {| changes := [ {| type := del; content := str "-FROM node" |};
                                     {| type := add;
                                        content := str "+FROM node:20.5.0" |} ] |} ] |} ]
    module_globals =
  analyzeCode
    [ {| to := Some (str "Dockerfile");
         chunks := [ {| changes := [ {| type := normal;
                                        content := str "+FROM node:20.5.0" |} ] |} ] |} ]
    module_globals.
Proof.
  apply (@analysis_reads_kept_lines_only _ _ module_globals).
  repeat constructor.
Defined.

(* ================================================================== *)
(** * Migration paths and cleaned contents *)
(* ================================================================== *)

Lemma scan_anySuffix fl r (P : jsstring -> bool) :
  (forall bef s, succeeds (m fl r (mk bef s [])) = P s) ->
  forall s bef,
    match scan fl r bef s with
    | Some _ => true
    | None => false
    end = anySuffix P s.
Proof.
  intros H. induction s as [|a s IH]; intros bef.
  - cbn [scan anySuffix]. fold (mk bef [] []). rewrite <- (H bef []).
    destruct (m fl r (mk bef [] [])); reflexivity.
  - cbn [scan anySuffix]. fold (mk bef (a :: s) []). rewrite <- (H bef (a :: s)).
    destruct (m fl r (mk bef (a :: s) [])); [apply IH|reflexivity].
Qed.

Lemma anySuffix_or P Q s :
  anySuffix (fun t => P t || Q t) s = anySuffix P s || anySuffix Q s.
Proof.
  induction s as [|a s IH]; cbn [anySuffix].
  - rewrite !orb_false_r. reflexivity.
  - rewrite IH. destruct (P (a :: s)), (Q (a :: s)), (anySuffix P s),
      (anySuffix Q s); reflexivity.
Qed.

Lemma jseq_iff a b : jseq a b = true <-> a = b.
Proof. split; [apply jseq_eq|intros ->; apply jseq_refl]. Qed.

Lemma bool_iff (a b : bool) : (a = true <-> b = true) -> a = b.
Proof.
  destruct a, b; intros [H1 H2]; try reflexivity.
  - symmetry. apply H1. reflexivity.
  - apply H2. reflexivity.
Qed.

Lemma startsWith_iff s p : startsWith s p = true <-> exists t, s = p ++ t.
Proof.
  revert s. induction p as [|x p IH]; intros s.
  - rewrite startsWith_nil. split; [exists s; reflexivity|auto].
  - destruct s as [|y s]; cbn [startsWith].
    + split; [discriminate|intros [t E]; discriminate E].
    + rewrite andb_true_iff, IH. unfold char_eqb. rewrite N.eqb_eq. split.
      * intros [-> [t ->]]. exists t. reflexivity.
      * intros [t E]. injection E as -> ->. split; [reflexivity|exists t; reflexivity].
Qed.

Lemma endsWith_iff s p : endsWith s p = true <-> exists t, s = t ++ p.
Proof.
  unfold endsWith. rewrite startsWith_iff. split.
  - intros [t E]. exists (rev t). apply (f_equal (@rev _)) in E.
    rewrite rev_involutive, rev_app_distr, rev_involutive in E. exact E.
  - intros [t ->]. exists (rev t). apply rev_app_distr.
Qed.

Lemma anySuffix_iff P s :
  anySuffix P s = true <-> exists t u, s = t ++ u /\ P u = true.
Proof.
  induction s as [|a s IH]; cbn [anySuffix].
  - rewrite orb_false_r. split.
    + intros H. exists [], []. auto.
    + intros [t [u [E H]]]. symmetry in E. apply app_eq_nil in E.
      destruct E as [_ ->]. exact H.
  - rewrite orb_true_iff, IH. split.
    + intros [H|[t [u [-> H]]]].
      * exists [], (a :: s). auto.
      * exists (a :: t), u. auto.
    + intros [[|b t] [u [E H]]].
      * left. cbn [app] in E. subst u. exact H.
      * right. cbn [app] in E. injection E as -> ->. exists t, u. auto.
Qed.

Lemma anySuffix_jseq p s : anySuffix (fun t => jseq t p) s = endsWith s p.
Proof.
  apply bool_iff. rewrite anySuffix_iff, endsWith_iff. split.
  - intros [t [u [-> H]]]. apply jseq_eq in H. subst u. exists t. reflexivity.
  - intros [t ->]. exists t, p. split; [reflexivity|apply jseq_refl].
Qed.

Lemma jseq_startsWith s w :
  jseq s w = startsWith s w && Nat.eqb (length (skipn (length w) s)) 0.
Proof.
  revert s. induction w as [|x w IH]; intros [|y s]; cbn [jseq startsWith length skipn];
    try reflexivity.
  rewrite IH. unfold char_eqb. rewrite (N.eqb_sym y x).
  destruct (N.eqb x y); reflexivity.
Qed.

Lemma migrationFile_here bef s :
  succeeds (m plainFlags Re.migrationFileRegex (mk bef s [])) =
  jseq s (str ".sql") || jseq s (str ".migration").
Proof.
  change Re.migrationFileRegex
    with (seq [Char (ch ".");
               Group 1 (Alt (seq (map Char (str "sql") ++ []))
                            (seq (map Char (str "migration") ++ [])));
               Eol]).
  rewrite m_seq_cons. cbn [m]. unfold step. cbn [mk after before caps].
  destruct s as [|a s]; [reflexivity|].
  unfold char_match. cbn [ignoreCase plainFlags].
  change (str ".sql") with (ch "." :: str "sql").
  change (str ".migration") with (ch "." :: str "migration").
  cbn [jseq]. unfold char_eqb. rewrite (N.eqb_sym a (ch ".")).
  destruct (N.eqb (ch ".") a); [|reflexivity]. cbn [flat_map andb].
  rewrite app_nil_r, m_seq_cons. cbn [m]. fold (mk (a :: bef) s []).
  rewrite !m_chars. cbn [mk after before caps].
  rewrite !(@lit_prefix_startsWith plainFlags _ eq_refl).
  rewrite (jseq_startsWith s (str "sql")), (jseq_startsWith s (str "migration")).
  destruct (startsWith s (str "sql")) eqn:E1;
    destruct (startsWith s (str "migration")) eqn:E2;
    cbn [m map app flat_map mk after before caps andb orb multiline plainFlags].
  - apply startsWith_iff in E1. apply startsWith_iff in E2.
    destruct E1 as [t1 ->]. destruct E2 as [t2 E2]. discriminate E2.
  - destruct (skipn (length (str "sql")) s); reflexivity.
  - destruct (skipn (length (str "migration")) s); reflexivity.
  - reflexivity.
Qed.

(** X19. The migration check is run on exactly the files whose path ends
    with [.sql] or with [.migration], or holds [migrations/] somewhere. *)
Theorem migration_paths :
  forall path : jsstring,
    isMigrationPath path =
      endsWith path (str ".sql") || endsWith path (str ".migration")
      || includes path (str "migrations/").
Proof.
  intros path. unfold isMigrationPath. f_equal.
  rewrite test_scan. fold plainFlags.
  rewrite (@scan_anySuffix plainFlags Re.migrationFileRegex _
             migrationFile_here path []).
  rewrite anySuffix_or, !anySuffix_jseq. reflexivity.
Qed.

(* ---------------------------------------------------------------- *)
(** ** Cleaning the markers of added lines *)

Lemma split_line l t :
  without LF l = true -> split LF (l ++ LF :: t) = l :: split LF t.
Proof.
  induction l as [|c l IH]; intros H.
  - cbn [app split]. rewrite char_eqb_refl. reflexivity.
  - unfold without in H. cbn [forallb] in H. apply andb_true_iff in H.
    destruct H as [Hc Hl]. apply negb_true_iff in Hc.
    cbn [app split]. unfold char_eqb. rewrite N.eqb_sym, Hc.
    rewrite (IH Hl). reflexivity.
Qed.

Lemma split_last l : without LF l = true -> split LF l = [l].
Proof.
  induction l as [|c l IH]; intros H; [reflexivity|].
  unfold without in H. cbn [forallb] in H. apply andb_true_iff in H.
  destruct H as [Hc Hl]. apply negb_true_iff in Hc.
  cbn [split]. unfold char_eqb. rewrite N.eqb_sym, Hc, (IH Hl). reflexivity.
Qed.

Lemma split_join : forall lines,
  lines <> [] -> forallb (without LF) lines = true ->
  split LF (join [LF] lines) = lines.
Proof.
  induction lines as [|l lines IH]; intros Hne H; [contradiction|].
  cbn [forallb] in H. apply andb_true_iff in H. destruct H as [Hl Hs].
  destruct lines as [|l2 lines].
  - cbn [join]. apply split_last. exact Hl.
  - rewrite join_cons2, (split_line l _ Hl), IH; [reflexivity|discriminate|exact Hs].
Qed.

Lemma stripLine_marked line : diffLine line = true -> stripLine (markedLine line) = snd line.
Proof.
  destruct line as [[|] l]; unfold diffLine, markedLine; cbn [fst snd marker app];
    intros H; apply andb_true_iff in H; destruct H as [_ H].
  - cbn [stripLine]. rewrite N.eqb_refl. reflexivity.
  - cbn [orb] in H. apply negb_true_iff in H. destruct l as [|c l]; [reflexivity|].
    cbn [stripLine]. cbn [startsWith] in H. unfold char_eqb in H.
    rewrite startsWith_nil, andb_true_r, N.eqb_sym in H. rewrite H. reflexivity.
Qed.

Lemma markedLine_no_LF line : diffLine line = true -> without LF (markedLine line) = true.
Proof.
  destruct line as [b l]. unfold diffLine, markedLine. cbn [fst snd]. intros H.
  apply andb_true_iff in H. destruct H as [H _]. rewrite without_app, H.
  destruct b; reflexivity.
Qed.

(** X20. Cleaning takes the marker off every added line and leaves the
    other lines as they are: for a text that is lines joined by line feeds,
    the added ones marked by a plus sign, the cleaned text is the lines
    themselves joined by line feeds.  Only the first plus sign of a line is
    taken off. *)
Theorem stripPlus_removes_markers :
  forall (lines : list (bool * jsstring)),
    lines <> [] -> forallb diffLine lines = true ->
    stripPlus (join [LF] (map markedLine lines)) = join [LF] (map snd lines).
Proof.
  intros lines Hne H. rewrite stripPlus_lines. unfold cleanLines.
  rewrite split_join.
  - rewrite map_map. f_equal. apply map_ext_in. intros line Hin.
    apply stripLine_marked. rewrite forallb_forall in H. exact (H line Hin).
  - destruct lines; [contradiction|discriminate].
  - rewrite forallb_forall in *. intros l Hl. apply in_map_iff in Hl.
    destruct Hl as [line [<- Hin]]. apply markedLine_no_LF. exact (H line Hin).
Qed.

Lemma stripPlus_removes_markers_witness :
  stripPlus (str "+FROM node:20" ++ LF :: str " RUN make" ++ LF :: str "++x") =
  str "FROM node:20" ++ LF :: str " RUN make" ++ LF :: str "+x".
Proof.
  exact (@stripPlus_removes_markers
           [(true, str "FROM node:20"); (false, str " RUN make"); (true, str "+x")]
           ltac:(discriminate) eq_refl).
Defined.

Lemma inLine_without_LF l : inLine l = true -> without LF l = true.
Proof.
  unfold inLine, without. intros H. rewrite forallb_forall in *. intros c Hc.
  specialize (H c Hc). apply negb_true_iff in H. apply negb_true_iff.
  apply N.eqb_neq. intros <-. discriminate H.
Qed.

Lemma contextLine_clean l : contextLine l = true -> stripLine l = l.
Proof.
  unfold contextLine. intros H. apply andb_true_iff in H. destruct H as [_ H].
  destruct l as [|c l]; [reflexivity|]. apply N.eqb_eq in H. subst c.
  reflexivity.
Qed.

Lemma contextLine_not_from l :
  contextLine l = true -> lineOk l = true /\ isFromLine l = false.
Proof.
  unfold contextLine, lineOk, isFromLine. fold (inLine l). intros H.
  apply andb_true_iff in H. destruct H as [-> H].
  destruct l as [|c l]; [split; reflexivity|]. apply N.eqb_eq in H. subst c.
  split; reflexivity.
Qed.

(** X29. The Dockerfile matcher reads a line only when FROM stands at its
    very start once the marker of an added line is taken off: in a content
    made of context lines, which begin with a blank, it reports nothing,
    whatever images they name. *)
Theorem dockerfile_context_lines_not_read :
  forall lines : list jsstring,
    lines <> [] -> forallb contextLine lines = true ->
    validateDockerfile (join [LF] lines) = Normal [].
Proof.
  intros lines Hne H.
  assert (Hc : cleanLines (join [LF] lines) = lines).
  { unfold cleanLines. rewrite split_join.
    - rewrite <- (map_id lines) at 2. apply map_ext_in. intros l Hl.
      apply contextLine_clean. rewrite forallb_forall in H. exact (H l Hl).
    - exact Hne.
    - rewrite forallb_forall in *. intros l Hl. apply inLine_without_LF.
      specialize (H l Hl). unfold contextLine in H.
      apply andb_true_iff in H. apply H. }
  rewrite validateDockerfile_lines, fromLines_per_line; rewrite Hc.
  - replace (filter isFromLine lines) with (@nil jsstring); [reflexivity|].
    symmetry. clear Hc Hne. induction lines as [|l lines IH]; [reflexivity|].
    cbn [forallb] in H. apply andb_true_iff in H. destruct H as [Hl Hs].
    cbn [filter]. destruct (contextLine_not_from l Hl) as [_ ->].
    exact (IH Hs).
  - rewrite forallb_forall in *. intros l Hl.
    exact (proj1 (contextLine_not_from l (H l Hl))).
Qed.

Lemma dockerfile_context_lines_not_read_witness :
  validateDockerfile (str " FROM node:latest" ++ LF :: str " RUN make") =
  Normal [].
Proof.
  exact (@dockerfile_context_lines_not_read
           [str " FROM node:latest"; str " RUN make"]
           ltac:(discriminate) eq_refl).
Defined.

(* ================================================================== *)
(** * The migration check *)
(* ================================================================== *)

Lemma In_split_line c sep : forall s l,
  In l (split sep s) -> In c l -> In c s.
Proof.
  induction s as [|a s IH]; intros l Hl Hc.
  - cbn [split] in Hl. destruct Hl as [<-|[]]. exact Hc.
  - cbn [split] in Hl. destruct (char_eqb a sep).
    + destruct Hl as [<-|Hl]; [contradiction|]. right. exact (IH l Hl Hc).
    + destruct (split sep s) as [|piece pieces] eqn:E.
      * destruct Hl as [<-|[]]. destruct Hc as [->|[]]. left. reflexivity.
      * destruct Hl as [<-|Hl].
        -- destruct Hc as [->|Hc]; [left; reflexivity|].
           right. apply (IH piece); [left; reflexivity|exact Hc].
        -- right. apply (IH l); [right; exact Hl|exact Hc].
Qed.

Lemma In_stripLine c l : In c (stripLine l) -> In c l.
Proof.
  destruct l as [|a l]; [auto|]. cbn [stripLine].
  destruct (N.eqb a PLUS); [intros H; right; exact H|auto].
Qed.

Lemma In_join c : forall ls,
  In c (join [LF] ls) -> c = LF \/ exists l, In l ls /\ In c l.
Proof.
  induction ls as [|l ls IH]; intros H; [contradiction|].
  destruct ls as [|l2 ls].
  - right. exists l. split; [left; reflexivity|exact H].
  - rewrite join_cons2 in H. apply in_app_iff in H. destruct H as [H|[H|H]].
    + right. exists l. split; [left; reflexivity|exact H].
    + left. symmetry. exact H.
    + destruct (IH H) as [E|[l' [Hl Hc]]]; [left; exact E|].
      right. exists l'. split; [right; exact Hl|exact Hc].
Qed.

(** Cleaning adds no character other than what the content holds. *)
Lemma In_stripPlus c content : c <> LF -> In c (stripPlus content) -> In c content.
Proof.
  intros Hc H. rewrite stripPlus_lines in H. unfold cleanLines in H.
  apply In_join in H. destruct H as [E|[l [Hl Hin]]]; [contradiction|].
  apply in_map_iff in Hl. destruct Hl as [l0 [<- Hl0]].
  apply In_stripLine in Hin. exact (@In_split_line c LF content l0 Hl0 Hin).
Qed.

Lemma without_In c s : without c s = true <-> ~ In c s.
Proof.
  unfold without. induction s as [|a s IH]; cbn [forallb In]; [tauto|].
  rewrite andb_true_iff, IH, negb_true_iff, N.eqb_neq. split.
  - intros [H1 H2] [E|E]; [symmetry in E|]; auto.
  - intros H. split; [intros E; apply H; left; symmetry; exact E|tauto].
Qed.

Lemma without_stripPlus c content :
  c <> LF -> without c content = true -> without c (stripPlus content) = true.
Proof.
  intros Hc H. apply without_In. apply without_In in H. intros Hin.
  apply H. exact (@In_stripPlus c content Hc Hin).
Qed.

Lemma wrapperRegex_shape :
  Re.wrapperRegex =
  seq (map Char (str "DO")
       ++ star ws
          :: map Char (str "$$")
          ++ ([star ws] ++ chars "BEGIN"
              ++ [star (Class false [CSpace; CNotSpace])] ++ chars "END"
              ++ [star ws] ++ chars "$$")).
Proof. reflexivity. Qed.

Lemma dollar_ci a : a <> ch "$" -> char_match ciFlags (ch "$") a = false.
Proof.
  intros H. unfold char_match. cbn [ignoreCase ciFlags].
  apply N.eqb_neq. intros E. apply H. unfold canonicalize in E.
  destruct (in_range 97%N 122%N a) eqn:Er.
  - change (36%N = (a - 32)%N) in E.
    unfold in_range in Er. apply andb_true_iff in Er. destruct Er as [E1 E2].
    apply N.leb_le in E1. apply N.leb_le in E2. lia.
  - symmetry. exact E.
Qed.

(** Without a dollar sign ahead the wrapper pattern cannot match. *)
Lemma wrapper_needs_dollar bef s :
  without (ch "$") s = true ->
  m ciFlags Re.wrapperRegex (mk bef s []) = [].
Proof.
  intros H. rewrite wrapperRegex_shape, m_chars. cbn [mk after before caps].
  destruct (lit_prefix ciFlags (str "DO") s) as [[consumed rest]|] eqn:E;
    [|reflexivity].
  assert (Hr : without (ch "$") rest = true).
  { clear -H E. change (str "DO") with [ch "D"; ch "O"] in E.
    destruct s as [|a [|b s]]; cbn [lit_prefix] in E.
    - discriminate E.
    - destruct (char_match ciFlags (ch "D") a); discriminate E.
    - destruct (char_match ciFlags (ch "D") a); [|discriminate E].
      destruct (char_match ciFlags (ch "O") b); [|discriminate E].
      injection E as _ <-. apply without_tail in H. apply without_tail in H.
      exact H. }
  rewrite m_seq_cons. apply flat_map_nil. intros y Hy.
  apply m_extends in Hy. destruct Hy as [w [Ha _]]. cbn [after mk] in Ha.
  destruct y as [b a cs]. cbn [after] in Ha. fold (mk b a cs).
  apply (@m_lit_fails ciFlags [ch "$"; ch "$"] _ b a cs).
  rewrite Ha, without_app in Hr.
  apply andb_true_iff in Hr. destruct Hr as [_ Hr].
  destruct a as [|d a]; [reflexivity|]. cbn [lit_prefix].
  rewrite dollar_ci; [reflexivity|].
  apply without_In in Hr. intros ->. apply Hr. left. reflexivity.
Qed.

Lemma wrapper_nowhere s :
  without (ch "$") s = true -> hasProperWrapper s = false.
Proof.
  intros H. unfold hasProperWrapper. rewrite test_scan. fold ciFlags.
  rewrite (@scan_never ciFlags Re.wrapperRegex
             (fun s => without (ch "$") s = true)
             (fun c t => @without_tail (ch "$") c t)
             wrapper_needs_dollar s [] H).
  reflexivity.
Qed.

(** X21. A migration in which no dollar sign occurs has no wrapper: the
    check returns the one warning about the missing wrapper and nothing
    else, whatever statements the migration holds. *)
Theorem migration_without_dollar_sign :
  forall content : jsstring,
    without (ch "$") content = true ->
    validateDatabaseMigration content = Normal [wrapperMessage].
Proof.
  intros content H. rewrite validateDatabaseMigration_eq.
  rewrite (@wrapper_nowhere (stripPlus content)); [reflexivity|].
  apply without_stripPlus; [discriminate|exact H].
Qed.

Lemma migration_without_dollar_sign_witness :
  validateDatabaseMigration
    (str "+CREATE TABLE orders (id int);" ++ LF :: str "+DROP TABLE carts;") =
  Normal [wrapperMessage].
Proof.
  exact (@migration_without_dollar_sign
           (str "+CREATE TABLE orders (id int);" ++ LF :: str "+DROP TABLE carts;")
           eq_refl).
Defined.

(** X22. The check returns either the warning about the wrapper alone or
    warnings of the four statement rules: at most one for each rule, however
    many statements of its kind there are, in the order create, alter,
    insert, drop. *)
Theorem migration_warnings_bounded :
  forall content : jsstring,
    exists found,
      validateDatabaseMigration content = Normal found /\
      (found = [wrapperMessage] \/
       exists keep : jsstring -> bool, found = filter keep statementMessages) /\
      length found <= 4 /\ NoDup found.
Proof.
  intros content. rewrite validateDatabaseMigration_eq.
  destruct (hasProperWrapper (stripPlus content)).
  - set (block := blockContent (stripPlus content)).
    unfold structuralWarnings, riskyPatterns. cbn [flat_map fst snd app].
    assert (D : NoDup statementMessages).
    { unfold statementMessages.
      repeat constructor; cbn [In]; intros H;
        repeat (destruct H as [H|H]; [discriminate H|]); exact H. }
    assert (K : forall c a i d : bool,
               (if c then [createTableMessage] else [])
               ++ (if a then [alterTableMessage] else [])
               ++ (if i then [insertIntoMessage] else [])
               ++ (if d then [dropTableMessage] else [])
               = filter (fun w => (c && jseq w createTableMessage)
                                  || (a && jseq w alterTableMessage)
                                  || (i && jseq w insertIntoMessage)
                                  || (d && jseq w dropTableMessage))
                        statementMessages).
    { intros [|] [|] [|] [|]; reflexivity. }
    eexists. split; [reflexivity|]. rewrite app_nil_r, K. split; [|split].
    + right. eexists. reflexivity.
    + etransitivity; [apply filter_length_le|]. reflexivity.
    + apply NoDup_filter. exact D.
  - exists [wrapperMessage]. split; [reflexivity|]. split; [left; reflexivity|].
    split; [cbn; lia|]. repeat constructor. intros [].
Qed.

(* ---------------------------------------------------------------- *)
(** ** Literal text, the case of the letters apart *)





(* ---------------------------------------------------------------- *)
(** ** The block between BEGIN and END *)










(* ---------------------------------------------------------------- *)
(** ** The wrapper and the guard *)









Lemma includes_split w : forall s,
  includes s w = true -> exists b1 b2, s = b1 ++ w ++ b2.
Proof.
  induction s as [|a s IH]; intros H.
  - rewrite includes_unfold, orb_false_r in H. apply startsWith_iff in H.
    destruct H as [t E]. exists [], t. exact E.
  - rewrite includes_unfold in H. apply orb_true_iff in H. destruct H as [H|H].
    + apply startsWith_iff in H. destruct H as [t E]. exists [], t. exact E.
    + destruct (IH H) as [b1 [b2 ->]]. exists (a :: b1), b2. reflexivity.
Qed.





(* ---------------------------------------------------------------- *)
(** ** An unguarded table creation *)



















(* ================================================================== *)
(** * The comment and the outcome of the action *)
(* ================================================================== *)

Lemma includes_join sep issue : forall issues,
  In issue issues -> includes (join sep issues) issue = true.
Proof.
  induction issues as [|x issues IH]; intros H; [contradiction|].
  destruct issues as [|y issues].
  - destruct H as [->|[]]. cbn [join]. rewrite <- (app_nil_r issue) at 1.
    apply includes_prefix.
  - change (join sep (x :: y :: issues)) with (x ++ sep ++ join sep (y :: issues)).
    destruct H as [->|H].
    + apply includes_prefix.
    + rewrite app_assoc. apply includes_app_r. apply IH. exact H.
Qed.

(** X26. Without issues nothing is posted and the action is not marked as
    failed.  With issues, and a request that goes through, one comment is
    posted on the pull request, whose body holds every issue, and the action
    is then marked as failed. *)
Theorem comment_holds_every_issue :
  forall (request : outcome unit) (owner repo : jsstring) (pull_number : N)
         (issues : list jsstring),
    issues <> [] ->
    createComment request owner repo pull_number [] = (Returned tt, []) /\
    createComment (Returned tt) owner repo pull_number issues =
      (Returned tt,
       [CreateComment owner repo pull_number (commentBody issues);
        SetFailed failedMessage]) /\
    forall issue, In issue issues -> includes (commentBody issues) issue = true.
Proof.
  intros request owner repo n issues Hne. split; [reflexivity|]. split.
  - destruct issues; [contradiction|reflexivity].
  - intros issue Hin. unfold commentBody. apply includes_app_r.
    pose proof (includes_join [LF; LF] issue issues Hin) as H.
    apply includes_split in H. destruct H as [b1 [b2 ->]].
    rewrite <- !app_assoc. spliced.
Qed.

Lemma comment_holds_every_issue_witness :
  includes (commentBody [dockerNoTagMessage (str "node"); wrapperMessage])
           wrapperMessage = true.
Proof.
  apply (@comment_holds_every_issue (Returned tt) [] [] 0%N
           [dockerNoTagMessage (str "node"); wrapperMessage]
           ltac:(discriminate)).
  right. left. reflexivity.
Defined.

(** X27. Whatever the outside answers, a run posts at most one comment and
    marks the action as failed at most once; it never posts a comment
    without marking the action as failed; and when the diff is the empty
    text it does nothing at all. *)
Theorem run_posts_and_fails_at_most_once :
  forall (describe : error -> jsstring) (event : outcome PRDetails)
         (response : PRDetails -> outcome jsstring)
         (parseDiff : jsstring -> list File) (request : outcome unit),
    let effects := run describe event response parseDiff request in
    length (comments effects) <= 1 /\
    length (failures effects) <= 1 /\
    length (comments effects) <= length (failures effects) /\
    (forall prDetails,
        event = Returned prDetails -> response prDetails = Returned [] ->
        effects = []).
Proof.
  intros describe event response parseDiff request effects.
  assert (G : length (comments effects) <= 1 /\ length (failures effects) <= 1 /\
              length (comments effects) <= length (failures effects)).
  { unfold effects, run.
    destruct event as [pr|text]; [|cbn; lia].
    destruct (response pr) as [[|c diff]|text]; [cbn; lia| |cbn; lia].
    destruct (fst (analyzeCode (parseDiff (c :: diff)) module_globals))
      as [issues|e]; [|cbn; lia].
    unfold createComment. destruct issues as [|i issues]; [cbn; lia|].
    destruct request as [u|text]; cbn; lia. }
  destruct G as [G1 [G2 G3]]. repeat split; try assumption.
  intros pr -> E. unfold effects, run. rewrite E. reflexivity.
Qed.

(** X28. A run on a diff that is not empty.  When all its paths are plain
    and no validator finds anything, nothing is posted and the action is not
    marked as failed; when something is found, the comment with these issues
    is posted and the action is marked as failed, by the message of the
    validation if the request went through and by the handler if it did
    not.  When a path with two plus signs in a row follows files with plain
    paths, nothing is posted, whatever was found before, and the action is
    marked as failed with the text of the SyntaxError. *)
Theorem run_on_a_diff :
  forall (describe : error -> jsstring) (prDetails : PRDetails)
         (response : PRDetails -> outcome jsstring)
         (parseDiff : jsstring -> list File) (request : outcome unit)
         (diff : jsstring),
    diff <> [] -> response prDetails = Returned diff ->
    (Forall plainFile (parseDiff diff) ->
     run describe (Returned prDetails) response parseDiff request =
       match flat_map fileWarnings (parseDiff diff) with
       | [] => []
       | issues =>
           CreateComment (owner prDetails) (repo prDetails)
                         (pull_number prDetails) (commentBody issues)
           :: match request with
              | Returned _ => [SetFailed failedMessage]
              | Rejected text => [SetFailed (str "Action failed: " ++ text)]
              end
       end) /\
    (forall before_ after_ file pre post,
        parseDiff diff = before_ ++ file :: after_ ->
        Forall plainFile before_ ->
        to file = Some (pre ++ str "++" ++ post) -> plainPath pre = true ->
        run describe (Returned prDetails) response parseDiff request =
          [SetFailed (str "Action failed: " ++ describe SyntaxError)]).
Proof.
  intros describe pr response parseDiff request diff Hne Er. split.
  - intros Hp. unfold run. rewrite Er.
    destruct diff as [|c diff]; [contradiction|].
    unfold analyzeCode. cbn [fst].
    rewrite (@analysis_of_plain_paths_aux (parseDiff (c :: diff)) Hp []).
    cbn [app]. unfold createComment.
    destruct (flat_map fileWarnings (parseDiff (c :: diff))) as [|i issues];
      [reflexivity|].
    destruct request; reflexivity.
  - intros bf af file pre post Ed Hb Ht Hp. unfold run. rewrite Er.
    destruct diff as [|c diff]; [contradiction|].
    rewrite Ed.
    rewrite (@analysis_rejected bf af file _ SyntaxError Hb Ht
               (@parse_double_plus pre post Hp)).
    reflexivity.
Qed.

Lemma run_on_a_diff_witness :
  run (fun _ => str "SyntaxError")
      (Returned {| owner := str "o"; repo := str "r"; pull_number := 7%N |})
      (fun _ => Returned (str "diff"))
      (fun _ => [ {| to := Some (str "Dockerfile");
                     chunks := [ {| changes :=
                                      [ {| type := add;
                                           content := str "+FROM node" |} ] |} ] |} ])
      (Returned tt) =
  [CreateComment (str "o") (str "r") 7%N
                 (commentBody [dockerNoTagMessage (str "node")]);
   SetFailed failedMessage].
Proof.
  etransitivity.
  - apply (@run_on_a_diff (fun _ => str "SyntaxError")
             {| owner := str "o"; repo := str "r"; pull_number := 7%N |}
             (fun _ => Returned (str "diff"))
             (fun _ => [ {| to := Some (str "Dockerfile");
                            chunks := [ {| changes :=
                                             [ {| type := add;
                                                  content := str "+FROM node" |} ] |} ] |} ])
             (Returned tt) (str "diff") ltac:(discriminate) eq_refl).
    repeat constructor.
  - vm_compute. reflexivity.
Defined.

(* ================================================================== *)
(** * Completion of the checks *)
(* ================================================================== *)

(** X30. No check throws, whatever the text: every group a check calls a
    method on is a group of the pattern that takes part in every match, so
    that it is never undefined. *)
Theorem validators_never_throw :
  forall content : jsstring,
    (exists found, validateNodePackage content = Normal found) /\
    (exists found, validatePythonPackage content = Normal found) /\
    (exists found, validateRubyPackage content = Normal found) /\
    (exists found, validateJavaPackage content = Normal found) /\
    (exists found, validateDockerfile content = Normal found) /\
    (exists found, validateKubernetesManifest content = Normal found) /\
    (exists found, validateDockerCompose content = Normal found) /\
    (exists found, validateGitHubActions content = Normal found) /\
    (exists found, validateDatabaseMigration content = Normal found).
Proof.
  intros content.
  rewrite validateNodePackage_matches, validatePythonPackage_matches,
    validateRubyPackage_matches, validateJavaPackage_matches,
    validateDockerfile_lines, validateKubernetesManifest_matches,
    validateDockerCompose_matches, validateGitHubActions_matches,
    validateDatabaseMigration_eq.
  repeat split; eexists; reflexivity.
Qed.
